(** * Camelot playlist organiser: harmonic classification and greedy mixing

    A shallow embedding of the Python modules

      - [camelot_utilities.py]  (key decoding, circular increment),
      - [camelot_rules.py]      (the mix-type classifier),
      - [camelot_mixer_bpm_first.py] and [camelot_mixer_harmonics_first.py]
        (the two scoring functions and the two greedy path builders),

    together with the properties stated about them.

    Modelling conventions.
      - Python [str] values are ASCII text, a [string]; [None] is the
        [None] of an [option].
      - Python [int] is [Z]; [%] with a positive divisor is [Z.modulo].
      - JSON numbers and Python floats appear twice.  The statements
        about the values of the scores and about the choices made by
        comparing scores are made over IEEE 754 binary64, the kernel's
        primitive floats, in the module [Binary64]: there every operation
        rounds as Python's does.  The statements about the shape of the
        results (permutations, failures, bounds, the path taken when the
        exact scores differ) are made over exact rationals ([Q]), in which
        every constant of the source (0.40, 0.15, 10.0 and the score
        table) is represented exactly.
      - A raised exception is the [Raise] branch of [result]; code that can
        raise is written in the corresponding error monad.
      - The [while] loops of the path builders are driven by a fuel counter;
        running out of fuel is the [None] of the returned [option], and the
        builders are proved never to do so. *)

From Stdlib Require Import List String Ascii Bool Arith ZArith QArith Qabs Qminmax Lia Lqa.
From Stdlib Require Import Permutation Sorted.
From Stdlib Require Import Floats.
Import ListNotations.

Local Open Scope string_scope.
Local Open Scope Z_scope.
Local Open Scope list_scope.

Set Warnings "-inexact-float".

(* ================================================================== *)
(** ** Exceptions and the error monad *)

Inductive exn : Type :=
| ValueError
| IndexError.

Inductive result (A : Type) : Type :=
| Ok (a : A)
| Raise (e : exn).

Arguments Ok {A} a.
Arguments Raise {A} e.

Definition bind {A B : Type} (m : result A) (k : A -> result B) : result B :=
  match m with
  | Ok a => k a
  | Raise e => Raise e
  end.

Notation "x <- m ;; k" := (bind m (fun x => k))
  (at level 61, m at next level, right associativity).
Notation "' pat <- m ;; k" := (bind m (fun x => match x with pat => k end))
  (at level 61, pat pattern, m at next level, right associativity).

(* ================================================================== *)
(** ** Python string primitives used by the source *)

Module PyStr.

(** [s[:-1]]: every character but the last; empty for strings of length
    at most one. *)
Fixpoint but_last (s : string) : string :=
  match s with
  | EmptyString => EmptyString
  | String c r =>
      match r with
      | EmptyString => EmptyString
      | _ => String c (but_last r)
      end
  end.

(** [s[-1]]: the last character; [IndexError] on the empty string. *)
Fixpoint index_last (s : string) : result ascii :=
  match s with
  | EmptyString => Raise IndexError
  | String c r =>
      match r with
      | EmptyString => Ok c
      | _ => index_last r
      end
  end.

(** [c.upper()] on one ASCII character. *)
Definition upper (c : ascii) : ascii :=
  let n := nat_of_ascii c in
  if ((97 <=? n) && (n <=? 122))%nat then ascii_of_nat (n - 32) else c.

(** Whitespace as [int] strips it from an ASCII string: TAB, LF, VT, FF,
    CR and the space.  (The separators FS, GS, RS and US, codes 28 to 31,
    are stripped by [str.strip] but not by [int]: [int] of a string that
    holds one of them raises [ValueError].) *)
Definition is_space (c : ascii) : bool :=
  let n := nat_of_ascii c in
  (((9 <=? n) && (n <=? 13)) || (n =? 32))%nat.

Definition digit_val (c : ascii) : option Z :=
  let n := nat_of_ascii c in
  if ((48 <=? n) && (n <=? 57))%nat then Some (Z.of_nat (n - 48)) else None.

Fixpoint lstrip (l : list ascii) : list ascii :=
  match l with
  | [] => []
  | c :: r => if is_space c then lstrip r else l
  end.

Definition strip (l : list ascii) : list ascii :=
  rev (lstrip (rev (lstrip l))).

(** Where the scan of a decimal literal stands: nothing read yet, just
    after a digit, or just after an underscore. *)
Inductive lit_state : Type := AtStart | AfterDigit | AfterUnderscore.

(** Digits with single underscores allowed between two digits. *)
Fixpoint digits (st : lit_state) (acc : Z) (l : list ascii) : option Z :=
  match l with
  | [] => match st with AfterDigit => Some acc | _ => None end
  | c :: r =>
      match digit_val c with
      | Some d => digits AfterDigit (10 * acc + d) r
      | None =>
          if Ascii.eqb c "_"%char
          then match st with
               | AfterDigit => digits AfterUnderscore acc r
               | _ => None
               end
          else None
      end
  end.

(** The builtin [int(s)] on a string, base 10: surrounding whitespace is
    stripped, one sign is allowed, then a decimal literal; anything else
    is a [ValueError]. *)
Definition int (s : string) : result Z :=
  let body := strip (list_ascii_of_string s) in
  let signed :=
    match body with
    | c :: r =>
        if Ascii.eqb c "-"%char then option_map Z.opp (digits AtStart 0 r)
        else if Ascii.eqb c "+"%char then digits AtStart 0 r
        else digits AtStart 0 body
    | [] => None
    end in
  match signed with
  | Some z => Ok z
  | None => Raise ValueError
  end.

End PyStr.

(* ================================================================== *)
(** ** camelot_utilities.py *)

(** [parse_camelot(key)]: [num = int(key[:-1])], then
    [letter = key[-1].upper()]. *)
Definition parse_camelot (key : string) : result (Z * ascii) :=
  num <- PyStr.int (PyStr.but_last key) ;;
  c <- PyStr.index_last key ;;
  Ok (num, PyStr.upper c).

(** [camelot_increment(num, step)]. *)
Definition camelot_increment (num step : Z) : Z :=
  ((num - 1 + step) mod 12) + 1.

(* ================================================================== *)
(** ** camelot_rules.py *)

Definition is_perfect_mix (k1 k2 : string) : bool :=
  String.eqb k1 k2.

Definition is_plus1_mix (k1 k2 : string) : result bool :=
  '(n1, l1) <- parse_camelot k1 ;;
  '(n2, l2) <- parse_camelot k2 ;;
  Ok (Ascii.eqb l1 l2 && (n2 =? camelot_increment n1 1)).

Definition is_minus1_mix (k1 k2 : string) : result bool :=
  '(n1, l1) <- parse_camelot k1 ;;
  '(n2, l2) <- parse_camelot k2 ;;
  Ok (Ascii.eqb l1 l2 && (n2 =? camelot_increment n1 (-1))).

Definition is_energy_boost (k1 k2 : string) : result bool :=
  '(n1, l1) <- parse_camelot k1 ;;
  '(n2, l2) <- parse_camelot k2 ;;
  Ok (Ascii.eqb l1 l2 && (n2 =? camelot_increment n1 2)).

Definition is_scale_change (k1 k2 : string) : result bool :=
  '(n1, l1) <- parse_camelot k1 ;;
  '(n2, l2) <- parse_camelot k2 ;;
  Ok ((n1 =? n2) && negb (Ascii.eqb l1 l2)).

Definition is_diagonal_mix (k1 k2 : string) : result bool :=
  '(n1, l1) <- parse_camelot k1 ;;
  '(n2, l2) <- parse_camelot k2 ;;
  let changed_scale := negb (Ascii.eqb l1 l2) in
  let anticlockwise_step := n2 =? camelot_increment n1 (-1) in
  Ok (changed_scale && anticlockwise_step).

Definition is_mood_shifter (k1 k2 : string) : result bool :=
  '(n1, l1) <- parse_camelot k1 ;;
  '(n2, l2) <- parse_camelot k2 ;;
  let clockwise_3 := n2 =? camelot_increment n1 3 in
  let scale_change := negb (Ascii.eqb l1 l2) in
  Ok (clockwise_3 && scale_change).

Definition is_jaws_mix (k1 k2 : string) : result bool :=
  '(n1, l1) <- parse_camelot k1 ;;
  '(n2, l2) <- parse_camelot k2 ;;
  let anticlockwise_5 := n2 =? camelot_increment n1 (-5) in
  let same_scale := Ascii.eqb l1 l2 in
  Ok (anticlockwise_5 && same_scale).

(** [classify_mix_type(k1, k2)]: the label of the first rule that holds. *)
Definition classify_mix_type (k1 k2 : option string) : result string :=
  match k1, k2 with
  | None, _ | _, None => Ok "unknown"
  | Some k1, Some k2 =>
      if is_perfect_mix k1 k2 then Ok "perfect mix" else
      b <- is_plus1_mix k1 k2 ;;
      if b then Ok "+1 mix" else
      b <- is_minus1_mix k1 k2 ;;
      if b then Ok "-1 mix" else
      b <- is_energy_boost k1 k2 ;;
      if b then Ok "energy boost" else
      b <- is_scale_change k1 k2 ;;
      if b then Ok "scale change" else
      b <- is_diagonal_mix k1 k2 ;;
      if b then Ok "diagonal mix" else
      b <- is_mood_shifter k1 k2 ;;
      if b then Ok "mood shifter" else
      b <- is_jaws_mix k1 k2 ;;
      if b then Ok "jaws mix" else
      Ok "non-harmonic"
  end.

(* ================================================================== *)
(** ** Track records and Python list primitives *)

(** A track as the mixers read it: the four fields fetched with
    [dict.get], each [None] when the entry is missing or null. *)
Record Song : Type := mkSong {
  song : option string;
  artist : option string;
  bpm : option Q;
  key : option string
}.

(** Floats that may be infinite: the sort key [float("inf")] and the
    initial [best_score = float("-inf")]. *)
Inductive xreal : Type :=
| NegInf
| Finite (q : Q)
| PosInf.

Definition Qltb (x y : Q) : bool :=
  match Qcompare x y with
  | Lt => true
  | _ => false
  end.

(** [a < b] on possibly infinite values. *)
Definition xlt (a b : xreal) : bool :=
  match a, b with
  | NegInf, NegInf => false
  | NegInf, _ => true
  | Finite x, Finite y => Qltb x y
  | Finite _, PosInf => true
  | Finite _, NegInf => false
  | PosInf, _ => false
  end.

Module PyList.

(** [l[i]] for a non-negative index; [IndexError] when out of range. *)
Definition index {A : Type} (l : list A) (i : nat) : result A :=
  match nth_error l i with
  | Some a => Ok a
  | None => Raise IndexError
  end.

(** [l[-1]]. *)
Definition index_last {A : Type} (l : list A) : result A :=
  match rev l with
  | a :: _ => Ok a
  | [] => Raise IndexError
  end.

(** [l.remove(x)] on a list of indices: drops the first occurrence,
    [ValueError] when there is none. *)
Fixpoint remove (x : nat) (l : list nat) : result (list nat) :=
  match l with
  | [] => Raise ValueError
  | y :: r =>
      if Nat.eqb y x then Ok r
      else r' <- remove x r ;; Ok (y :: r')
  end.

(** [[f(i) for i in l]] where [f] may raise. *)
Fixpoint comprehension {A B : Type} (f : A -> result B) (l : list A)
  : result (list B) :=
  match l with
  | [] => Ok []
  | a :: r => b <- f a ;; bs <- comprehension f r ;; Ok (b :: bs)
  end.

Section Sorted.
Context {A : Type} (sort_key : A -> xreal).

(** Insertion in front of the first element whose key is not smaller:
    an element inserted earlier in the input stays ahead of its
    equals. *)
Fixpoint insert (x : A) (l : list A) : list A :=
  match l with
  | [] => [x]
  | y :: r =>
      if xlt (sort_key y) (sort_key x) then y :: insert x r
      else x :: l
  end.

(** [sorted(l, key=sort_key)]: the stable ascending sort. *)
Definition sorted (l : list A) : list A :=
  fold_right insert [] l.
End Sorted.

End PyList.

(** The key both mixers sort by:
    [float("inf") if s.get("bpm") is None else s["bpm"]]. *)
Definition bpm_sort_key (s : Song) : xreal :=
  match bpm s with
  | None => PosInf
  | Some b => Finite b
  end.

(** Truth value of [s.get("key")]: neither [None] nor the empty string. *)
Definition key_truthy (s : Song) : bool :=
  match key s with
  | None => false
  | Some k => negb (String.eqb k "")
  end.

(** [dict.get(k, default)] on a table given as its items. *)
Fixpoint dict_get (d : list (string * Q)) (k : string) (default : Q) : Q :=
  match d with
  | [] => default
  | (k', v) :: r => if String.eqb k' k then v else dict_get r k default
  end.

(* ================================================================== *)
(** ** The greedy extension loop shared by the two mixers

    Both files contain the same [while remaining: ...] loop, over their own
    [transition_score]. *)

Section Greedy.

Variable transition_score : Song -> Song -> result (Q * string).
Variable songs_sorted : list Song.

(** The [for idx in remaining] scan, started from the current
    [best_idx] and [best_score]. *)
Fixpoint scan (curr_song : Song) (remaining : list nat)
         (best_idx : option nat) (best_score : xreal)
  : result (option nat) :=
  match remaining with
  | [] => Ok best_idx
  | idx :: rest =>
      candidate <- PyList.index songs_sorted idx ;;
      '(score, mix_type) <- transition_score curr_song candidate ;;
      if xlt best_score (Finite score)
      then scan curr_song rest (Some idx) (Finite score)
      else scan curr_song rest best_idx best_score
  end.

(** One iteration of the [while] body: the new [path] and [remaining].
    When no candidate was selected, [remaining.remove(None)] raises. *)
Definition extend_once (path remaining : list nat)
  : result (list nat * list nat) :=
  last_idx <- PyList.index_last path ;;
  curr_song <- PyList.index songs_sorted last_idx ;;
  best <- scan curr_song remaining None NegInf ;;
  match best with
  | None => Raise ValueError
  | Some best_idx =>
      remaining' <- PyList.remove best_idx remaining ;;
      Ok (path ++ [best_idx], remaining')
  end.

(** The [while remaining:] loop; [None] when the fuel runs out. *)
Fixpoint extend (fuel : nat) (path remaining : list nat)
  : option (result (list nat)) :=
  match remaining with
  | [] => Some (Ok path)
  | _ :: _ =>
      match fuel with
      | O => None
      | S fuel' =>
          match extend_once path remaining with
          | Raise e => Some (Raise e)
          | Ok (path', remaining') => extend fuel' path' remaining'
          end
      end
  end.

(** [[songs_sorted[i] for i in path]]. *)
Definition rebuild (path : list nat) : result (list Song) :=
  PyList.comprehension (PyList.index songs_sorted) path.

End Greedy.

(** Lifting of [bind] to computations that may run out of fuel. *)
Definition bind_fuel {A B : Type} (m : option (result A))
           (k : A -> result B) : option (result B) :=
  match m with
  | None => None
  | Some r => Some (bind r k)
  end.

(* ================================================================== *)
(** ** camelot_mixer_bpm_first.py *)

Module BpmFirst.

Local Open Scope Q_scope.

Definition MIX_SCORES : list (string * Q) :=
  [ ("perfect mix", 5.0);
    ("+1 mix", 4.0);
    ("-1 mix", 4.0);
    ("energy boost", 3.0);
    ("scale change", 3.0);
    ("diagonal mix", 2.0);
    ("mood shifter", 2.0);
    ("jaws mix", 1.0);
    ("non-harmonic", 0.0);
    ("unknown", 0.0) ].

(** Default value of the keyword argument [weight_bpm]. *)
Definition default_weight_bpm : Q := 0.40.

Definition transition_score_w (weight_bpm : Q) (song_a song_b : Song)
  : result (Q * string) :=
  let key_a := key song_a in
  let key_b := key song_b in
  let bpm_a := bpm song_a in
  let bpm_b := bpm song_b in
  mix_type <- classify_mix_type key_a key_b ;;
  let harmonic := dict_get MIX_SCORES mix_type 0.0 in
  let bpm_score :=
    match bpm_a, bpm_b with
    | Some bpm_a, Some bpm_b =>
        let diff := Qabs (bpm_b - bpm_a) in
        Qmax 0.0 (10.0 - diff)
    | _, _ => 0.0
    end in
  let score := bpm_score * weight_bpm + harmonic * (1 - weight_bpm) in
  Ok (score, mix_type).

(** [transition_score(song_a, song_b)] as the builder calls it. *)
Definition transition_score : Song -> Song -> result (Q * string) :=
  transition_score_w default_weight_bpm.

(** The value of [path] when [build_bpm_first_path] leaves its loop, for
    a non-empty input already sorted. *)
Definition path_indices (songs_sorted : list Song)
  : option (result (list nat)) :=
  let remaining := seq 0 (List.length songs_sorted) in
  match remaining with
  | [] => Some (Raise IndexError)
  | current_idx :: remaining =>
      extend transition_score songs_sorted
             (List.length remaining) [current_idx] remaining
  end.

Definition build_bpm_first_path (songs : list Song)
  : option (result (list Song)) :=
  match songs with
  | [] => Some (Ok [])
  | _ :: _ =>
      let songs_sorted := PyList.sorted bpm_sort_key songs in
      bind_fuel (path_indices songs_sorted) (rebuild songs_sorted)
  end.

End BpmFirst.

(* ================================================================== *)
(** ** camelot_mixer_harmonics_first.py *)

Module HarmonicsFirst.

Local Open Scope Q_scope.

Definition MIX_SCORES : list (string * Q) :=
  [ ("perfect mix", 5.0);
    ("+1 mix", 4.0);
    ("-1 mix", 4.0);
    ("energy boost", 3.0);
    ("scale change", 3.0);
    ("diagonal mix", 2.0);
    ("mood shifter", 2.0);
    ("jaws mix", 1.0);
    ("non-harmonic", 0.0);
    ("unknown", 0.0) ].

Definition default_weight_bpm : Q := 0.15.

Definition transition_score_w (weight_bpm : Q) (song_a song_b : Song)
  : result (Q * string) :=
  let key_a := key song_a in
  let key_b := key song_b in
  let bpm_a := bpm song_a in
  let bpm_b := bpm song_b in
  mix_type <- classify_mix_type key_a key_b ;;
  let base := dict_get MIX_SCORES mix_type 0.0 * 10.0 in
  let bpm_penalty :=
    match bpm_a, bpm_b with
    | Some bpm_a, Some bpm_b =>
        let bpm_diff := Qabs (bpm_b - bpm_a) in
        bpm_diff * weight_bpm
    | _, _ => 0.0
    end in
  let score := base - bpm_penalty in
  Ok (score, mix_type).

Definition transition_score : Song -> Song -> result (Q * string) :=
  transition_score_w default_weight_bpm.

(** The search [for idx in remaining_indices: if ...get("key"): break]. *)
Fixpoint find_start (songs_sorted : list Song) (remaining_indices : list nat)
  : result (option nat) :=
  match remaining_indices with
  | [] => Ok None
  | idx :: rest =>
      s <- PyList.index songs_sorted idx ;;
      if key_truthy s then Ok (Some idx)
      else find_start songs_sorted rest
  end.

(** The value of [path_indices] when the loop of [build_harmonic_path]
    ends, started from [start_idx]. *)
Definition path_indices (songs_sorted : list Song) (start_idx : nat)
  : option (result (list nat)) :=
  let remaining_indices := seq 0 (List.length songs_sorted) in
  match PyList.remove start_idx remaining_indices with
  | Raise e => Some (Raise e)
  | Ok remaining_indices =>
      extend transition_score songs_sorted
             (List.length remaining_indices) [start_idx] remaining_indices
  end.

Definition build_harmonic_path (songs : list Song)
  : option (result (list Song)) :=
  match songs with
  | [] => Some (Ok [])
  | _ :: _ =>
      let songs_sorted := PyList.sorted bpm_sort_key songs in
      let remaining_indices := seq 0 (List.length songs_sorted) in
      match find_start songs_sorted remaining_indices with
      | Raise e => Some (Raise e)
      | Ok None => Some (Ok songs_sorted)
      | Ok (Some start_idx) =>
          bind_fuel (path_indices songs_sorted start_idx)
                    (rebuild songs_sorted)
      end
  end.

End HarmonicsFirst.

(* ================================================================== *)
(** ** The specification's vocabulary

    Definitions written after the prose of the specification, to be
    compared with the definitions above that come from the code. *)

Module Spec.

(** The closed enumeration of mix types. *)
Inductive MixType : Type :=
| PerfectMix | Plus1Mix | Minus1Mix | EnergyBoost | ScaleChange
| DiagonalMix | MoodShifter | JawsMix | NonHarmonic | Unknown.

Definition label (m : MixType) : string :=
  match m with
  | PerfectMix => "perfect mix"
  | Plus1Mix => "+1 mix"
  | Minus1Mix => "-1 mix"
  | EnergyBoost => "energy boost"
  | ScaleChange => "scale change"
  | DiagonalMix => "diagonal mix"
  | MoodShifter => "mood shifter"
  | JawsMix => "jaws mix"
  | NonHarmonic => "non-harmonic"
  | Unknown => "unknown"
  end.

(** The fixed score of each mix type. *)
Definition table (m : MixType) : Q :=
  match m with
  | PerfectMix => 5.0
  | Plus1Mix => 4.0
  | Minus1Mix => 4.0
  | EnergyBoost => 3.0
  | ScaleChange => 3.0
  | DiagonalMix => 2.0
  | MoodShifter => 2.0
  | JawsMix => 1.0
  | NonHarmonic => 0.0
  | Unknown => 0.0
  end%Q.

(** A decoded key: its position on the wheel and its scale letter. *)
Record DecodedKey : Type := mkDecoded {
  position : Z;
  scale : ascii
}.

Definition same_scale (a b : DecodedKey) : bool :=
  Ascii.eqb (scale a) (scale b).

Definition at_step (step : Z) (a b : DecodedKey) : bool :=
  position b =? camelot_increment (position a) step.

(** The priority chain: rules 1 to 8, in order, all of them on the two
    decoded keys; rule 1, keys identical, is the identity of the two
    decodings. *)
Definition rules : list ((DecodedKey -> DecodedKey -> bool) * MixType) :=
  [ (fun a b => (position a =? position b) && same_scale a b, PerfectMix);
    (fun a b => same_scale a b && at_step 1 a b, Plus1Mix);
    (fun a b => same_scale a b && at_step (-1) a b, Minus1Mix);
    (fun a b => same_scale a b && at_step 2 a b, EnergyBoost);
    (fun a b => (position a =? position b) && negb (same_scale a b),
     ScaleChange);
    (fun a b => negb (same_scale a b) && at_step (-1) a b, DiagonalMix);
    (fun a b => negb (same_scale a b) && at_step 3 a b, MoodShifter);
    (fun a b => same_scale a b && at_step (-5) a b, JawsMix) ].

(** First match wins; [NonHarmonic] when no rule holds. *)
Fixpoint first_match
         (rs : list ((DecodedKey -> DecodedKey -> bool) * MixType))
         (a b : DecodedKey) : MixType :=
  match rs with
  | [] => NonHarmonic
  | (holds, m) :: rs' => if holds a b then m else first_match rs' a b
  end.

Definition classify (a b : DecodedKey) : MixType :=
  first_match rules a b.

Definition is_letter (c : ascii) : bool :=
  let n := nat_of_ascii c in
  (((65 <=? n) && (n <=? 90)) || ((97 <=? n) && (n <=? 122)))%nat.

(** The malformed keys of the specification: no trailing letter, a
    remainder that is not a positive integer, or a position outside
    [1,12]. *)
Definition invalid_key_format (k : string) : bool :=
  match PyStr.index_last k with
  | Raise _ => true
  | Ok c =>
      negb (is_letter c) ||
      match PyStr.int (PyStr.but_last k) with
      | Raise _ => true
      | Ok n => negb (0 <? n) || negb ((1 <=? n) && (n <=? 12))
      end
  end.

Local Open Scope Q_scope.

(** BPM closeness [max(0, 10 - |bpmB - bpmA|)], 0 when a BPM is
    absent. *)
Definition bpm_score (bpm_a bpm_b : option Q) : Q :=
  match bpm_a, bpm_b with
  | Some a, Some b => Qmax 0 (10 - Qabs (b - a))
  | _, _ => 0
  end.

End Spec.

(** A track with a tempo and a key, for the examples. *)
Definition track (b : Q) (k : string) : Song :=
  mkSong None None (Some b) (Some k).

(** The end-to-end example of the specification. *)
Definition example_tracks : list Song :=
  [track 128 "8A"; track 130 "9A"; track 126 "8B"].

(** Two tracks of which the slower one has no key. *)
Definition example_keyless : list Song :=
  [track 128 "8A"; mkSong None None (Some 120%Q) None].

(* ================================================================== *)
(** ** Vocabulary for the path builders *)

(** The input precondition of the builders: a BPM, and a key that
    [parse_camelot] decodes. *)
Definition usable (s : Song) : Prop :=
  bpm s <> None /\
  exists k p, key s = Some k /\ parse_camelot k = Ok p.

(** BPM order, read off the records themselves: [a] may stand before [c]
    when the tempo of [a] is at most that of [c]; a record without a
    tempo stands after every record that has one. *)
Definition bpm_le (a c : Song) : Prop :=
  match bpm a, bpm c with
  | Some x, Some y => (x <= y)%Q
  | _, None => True
  | None, Some _ => False
  end.

(** The record has the tempo [t]; [None] for no tempo. *)
Definition has_bpm (t : option Q) (s : Song) : bool :=
  match t, bpm s with
  | Some x, Some y => Qeq_bool x y
  | None, None => true
  | _, _ => false
  end.

(** Position, counted from [k], of the first track whose key is truthy. *)
Fixpoint first_keyed_from (k : nat) (l : list Song) : option nat :=
  match l with
  | [] => None
  | s :: r => if key_truthy s then Some k else first_keyed_from (S k) r
  end.

Section GreedySpec.

Variable transition_score : Song -> Song -> result (Q * string).
Variable songs_sorted : list Song.

(** The candidate at index [idx] scores [s] when it follows the track
    [curr_song]. *)
Definition scored (curr_song : Song) (idx : nat) (s : Q) : Prop :=
  exists candidate mix_type,
    nth_error songs_sorted idx = Some candidate /\
    transition_score curr_song candidate = Ok (s, mix_type).

(** [best] is the greedy choice in [remaining] after [curr_song]: every
    candidate met before it scores strictly less, every candidate met after
    it scores at most as much; [rest] is [remaining] without it, order
    kept. *)
Definition selects (curr_song : Song) (remaining : list nat)
           (best : nat) (rest : list nat) : Prop :=
  exists before after s_best,
    remaining = before ++ best :: after /\
    rest = before ++ after /\
    scored curr_song best s_best /\
    (forall j, In j before ->
               exists s, scored curr_song j s /\ (s < s_best)%Q) /\
    (forall j, In j after ->
               exists s, scored curr_song j s /\ (s <= s_best)%Q).

(** A run of greedy steps from the state ([path], [remaining]) to the
    finished path: each step appends to [path] the choice made after its
    last track and removes it from [remaining]. *)
Inductive greedy_run : list nat -> list nat -> list nat -> Prop :=
| greedy_stop (path : list nat) :
    greedy_run path [] path
| greedy_next (path pre : list nat) (cur : nat) (curr_song : Song)
              (remaining : list nat) (best : nat) (rest final : list nat) :
    path = pre ++ [cur] ->
    nth_error songs_sorted cur = Some curr_song ->
    remaining <> [] ->
    selects curr_song remaining best rest ->
    greedy_run (path ++ [best]) rest final ->
    greedy_run path remaining final.

End GreedySpec.

(* ================================================================== *)
(** ** The rest of the two mixer scripts *)

(** [s.get("bpm") is not None]. *)
Definition bpm_present (s : Song) : bool :=
  match bpm s with
  | Some _ => true
  | None => false
  end.

(** The filter of [main], the same in both scripts:
    [[s for s in songs if s.get("key") and s.get("bpm") is not None]]. *)
Definition main_usable (songs : list Song) : list Song :=
  filter (fun s => key_truthy s && bpm_present s) songs.

(** [[s for s in songs if not s.get("key") or s.get("bpm") is None]]. *)
Definition main_missing (songs : list Song) : list Song :=
  filter (fun s => negb (key_truthy s) || negb (bpm_present s)) songs.

(** [ordered = build_bpm_first_path(usable)] in
    [camelot_mixer_bpm_first.py]. *)
Definition bpm_first_main_ordered (songs : list Song)
  : option (result (list Song)) :=
  BpmFirst.build_bpm_first_path (main_usable songs).

(** [ordered = build_harmonic_path(usable)] in
    [camelot_mixer_harmonics_first.py]. *)
Definition harmonics_first_main_ordered (songs : list Song)
  : option (result (list Song)) :=
  HarmonicsFirst.build_harmonic_path (main_usable songs).

(** A key that is present decodes; an absent key asks for nothing. *)
Definition decodes_if_present (s : Song) : Prop :=
  forall k, key s = Some k -> exists p, parse_camelot k = Ok p.

Section CleanOutput.

(** The values a track dictionary holds are copied, never inspected;
    [none] is Python's [None]. *)
Variable value : Type.
Variable none : value.

(** A dictionary as its items in insertion order. *)
Definition pydict : Type := list (string * value).

(** [d.get(k)]: the value under [k], [None] when [k] is missing. *)
Fixpoint py_get (d : pydict) (k : string) : value :=
  match d with
  | [] => none
  | (k', v) :: r => if String.eqb k' k then v else py_get r k
  end.

(** [make_clean_output(ordered_songs)], the same in both scripts: one new
    dictionary per track with the four entries song, artist, bpm, key. *)
Definition make_clean_output (ordered_songs : list pydict) : list pydict :=
  map (fun s =>
         [ ("song", py_get s "song");
           ("artist", py_get s "artist");
           ("bpm", py_get s "bpm");
           ("key", py_get s "key") ])
      ordered_songs.

End CleanOutput.

(** The names of the entries of a clean track. *)
Definition clean_keys : list string := ["song"; "artist"; "bpm"; "key"].

Arguments py_get {value} none d k.
Arguments make_clean_output {value} none ordered_songs.

(* ================================================================== *)
(** ** Vocabulary for the rule predicates *)

(** The outcome of the eight rule predicates of [camelot_rules.py] on one
    pair of keys, in the order [classify_mix_type] tries them. *)
Definition rule_results (k1 k2 : string) : list (result bool) :=
  [ Ok (is_perfect_mix k1 k2);
    is_plus1_mix k1 k2;
    is_minus1_mix k1 k2;
    is_energy_boost k1 k2;
    is_scale_change k1 k2;
    is_diagonal_mix k1 k2;
    is_mood_shifter k1 k2;
    is_jaws_mix k1 k2 ].

(** A predicate returned [True]. *)
Definition holds (r : result bool) : bool :=
  match r with
  | Ok true => true
  | _ => false
  end.

(** The eight predicates paired with the labels [classify_mix_type]
    returns for them, in the order it tries them. *)
Definition rule_table (k1 k2 : string) : list (result bool * string) :=
  [ (Ok (is_perfect_mix k1 k2), "perfect mix");
    (is_plus1_mix k1 k2, "+1 mix");
    (is_minus1_mix k1 k2, "-1 mix");
    (is_energy_boost k1 k2, "energy boost");
    (is_scale_change k1 k2, "scale change");
    (is_diagonal_mix k1 k2, "diagonal mix");
    (is_mood_shifter k1 k2, "mood shifter");
    (is_jaws_mix k1 k2, "jaws mix") ].

(** A chain of [if pred: return label] statements tried in the order of
    the list, ending in [return "non-harmonic"]: a predicate that raises
    ends the chain with its exception, the predicates after the first
    [True] are not called. *)
Fixpoint first_hit (rs : list (result bool * string)) : result string :=
  match rs with
  | [] => Ok "non-harmonic"
  | (r, lbl) :: rest => b <- r ;; if b then Ok lbl else first_hit rest
  end.

(* ================================================================== *)
(** ** The two mixers over binary64

    The scores of the two mixers are Python floats.  This module is the
    two mixer files once more, with every arithmetic operation and every
    comparison on scores and tempos the IEEE 754 binary64 operation of
    the kernel's primitive floats: [*], [+], [-], [abs] round to nearest,
    ties to even, as CPython's float operations do.  A tempo is a
    [float]; a JSON integer below 2^53 in magnitude is the float of the
    same value, and the code's arithmetic on it gives the same results.
    The classification of keys is the one of [camelot_rules.py] above. *)

Module Binary64.

Local Open Scope float_scope.

(** A track as the mixers read it. *)
Record Song : Type := mkSong {
  song : option string;
  artist : option string;
  bpm : option float;
  key : option string
}.

(** A track with a tempo and a key, for the examples. *)
Definition track (b : float) (k : string) : Song :=
  mkSong None None (Some b) (Some k).

(** The builtin [max(a, x)] on two floats: [x] when [x > a], else [a]. *)
Definition pymax (a x : float) : float := if a <? x then x else a.

(** [dict.get(k, default)] on a table given as its items. *)
Fixpoint dict_get (d : list (string * float)) (k : string)
         (default : float) : float :=
  match d with
  | [] => default
  | (k', v) :: r => if String.eqb k' k then v else dict_get r k default
  end.

(** [float("inf") if s.get("bpm") is None else s["bpm"]]. *)
Definition bpm_sort_key (s : Song) : float :=
  match bpm s with
  | None => infinity
  | Some b => b
  end.

(** Truth value of [s.get("key")]. *)
Definition key_truthy (s : Song) : bool :=
  match key s with
  | None => false
  | Some k => negb (String.eqb k "")
  end.

(** Stable insertion by the sort key, as [PyList.insert], the keys
    compared as floats.  It is [sorted] for keys that are numbers; a NaN
    among the keys is outside what is modelled. *)
Fixpoint insert (x : Song) (l : list Song) : list Song :=
  match l with
  | [] => [x]
  | y :: r =>
      if bpm_sort_key y <? bpm_sort_key x then y :: insert x r
      else x :: l
  end.

(** [sorted(songs, key=lambda s: ...)]. *)
Definition sorted (l : list Song) : list Song :=
  fold_right insert [] l.

Section Greedy.

Variable transition_score : Song -> Song -> result (float * string).
Variable songs_sorted : list Song.

(** The [for idx in remaining] scan, with [if score > best_score]. *)
Fixpoint scan (curr_song : Song) (remaining : list nat)
         (best_idx : option nat) (best_score : float)
  : result (option nat) :=
  match remaining with
  | [] => Ok best_idx
  | idx :: rest =>
      candidate <- PyList.index songs_sorted idx ;;
      '(score, mix_type) <- transition_score curr_song candidate ;;
      if best_score <? score
      then scan curr_song rest (Some idx) score
      else scan curr_song rest best_idx best_score
  end.

(** One iteration of the [while] body, [best_score = float("-inf")] at
    its start.  When no candidate was selected, [remaining.remove(None)]
    raises. *)
Definition extend_once (path remaining : list nat)
  : result (list nat * list nat) :=
  last_idx <- PyList.index_last path ;;
  curr_song <- PyList.index songs_sorted last_idx ;;
  best <- scan curr_song remaining None neg_infinity ;;
  match best with
  | None => Raise ValueError
  | Some best_idx =>
      remaining' <- PyList.remove best_idx remaining ;;
      Ok (path ++ [best_idx], remaining')
  end.

(** The [while remaining:] loop; [None] when the fuel runs out. *)
Fixpoint extend (fuel : nat) (path remaining : list nat)
  : option (result (list nat)) :=
  match remaining with
  | [] => Some (Ok path)
  | _ :: _ =>
      match fuel with
      | O => None
      | S fuel' =>
          match extend_once path remaining with
          | Raise e => Some (Raise e)
          | Ok (path', remaining') => extend fuel' path' remaining'
          end
      end
  end.

(** [[songs_sorted[i] for i in path]]. *)
Definition rebuild (path : list nat) : result (list Song) :=
  PyList.comprehension (PyList.index songs_sorted) path.

End Greedy.

(** [camelot_mixer_bpm_first.py]. *)
Module BpmFirst.

Definition MIX_SCORES : list (string * float) :=
  [ ("perfect mix", 5.0);
    ("+1 mix", 4.0);
    ("-1 mix", 4.0);
    ("energy boost", 3.0);
    ("scale change", 3.0);
    ("diagonal mix", 2.0);
    ("mood shifter", 2.0);
    ("jaws mix", 1.0);
    ("non-harmonic", 0.0);
    ("unknown", 0.0) ].

Definition default_weight_bpm : float := 0.40.

Definition transition_score_w (weight_bpm : float) (song_a song_b : Song)
  : result (float * string) :=
  let key_a := key song_a in
  let key_b := key song_b in
  let bpm_a := bpm song_a in
  let bpm_b := bpm song_b in
  mix_type <- classify_mix_type key_a key_b ;;
  let harmonic := dict_get MIX_SCORES mix_type 0.0 in
  let bpm_score :=
    match bpm_a, bpm_b with
    | Some bpm_a, Some bpm_b =>
        let diff := abs (bpm_b - bpm_a) in
        pymax 0.0 (10.0 - diff)
    | _, _ => 0.0
    end in
  let score := bpm_score * weight_bpm + harmonic * (1 - weight_bpm) in
  Ok (score, mix_type).

Definition transition_score : Song -> Song -> result (float * string) :=
  transition_score_w default_weight_bpm.

Definition path_indices (songs_sorted : list Song)
  : option (result (list nat)) :=
  let remaining := seq 0 (List.length songs_sorted) in
  match remaining with
  | [] => Some (Raise IndexError)
  | current_idx :: remaining =>
      extend transition_score songs_sorted
             (List.length remaining) [current_idx] remaining
  end.

Definition build_bpm_first_path (songs : list Song)
  : option (result (list Song)) :=
  match songs with
  | [] => Some (Ok [])
  | _ :: _ =>
      let songs_sorted := sorted songs in
      bind_fuel (path_indices songs_sorted) (rebuild songs_sorted)
  end.

End BpmFirst.

(** [camelot_mixer_harmonics_first.py]. *)
Module HarmonicsFirst.

Definition MIX_SCORES : list (string * float) :=
  [ ("perfect mix", 5.0);
    ("+1 mix", 4.0);
    ("-1 mix", 4.0);
    ("energy boost", 3.0);
    ("scale change", 3.0);
    ("diagonal mix", 2.0);
    ("mood shifter", 2.0);
    ("jaws mix", 1.0);
    ("non-harmonic", 0.0);
    ("unknown", 0.0) ].

Definition default_weight_bpm : float := 0.15.

Definition transition_score_w (weight_bpm : float) (song_a song_b : Song)
  : result (float * string) :=
  let key_a := key song_a in
  let key_b := key song_b in
  let bpm_a := bpm song_a in
  let bpm_b := bpm song_b in
  mix_type <- classify_mix_type key_a key_b ;;
  let base := dict_get MIX_SCORES mix_type 0.0 * 10.0 in
  let bpm_penalty :=
    match bpm_a, bpm_b with
    | Some bpm_a, Some bpm_b =>
        let bpm_diff := abs (bpm_b - bpm_a) in
        bpm_diff * weight_bpm
    | _, _ => 0.0
    end in
  let score := base - bpm_penalty in
  Ok (score, mix_type).

Definition transition_score : Song -> Song -> result (float * string) :=
  transition_score_w default_weight_bpm.

Fixpoint find_start (songs_sorted : list Song) (remaining_indices : list nat)
  : result (option nat) :=
  match remaining_indices with
  | [] => Ok None
  | idx :: rest =>
      s <- PyList.index songs_sorted idx ;;
      if key_truthy s then Ok (Some idx)
      else find_start songs_sorted rest
  end.

Definition path_indices (songs_sorted : list Song) (start_idx : nat)
  : option (result (list nat)) :=
  let remaining_indices := seq 0 (List.length songs_sorted) in
  match PyList.remove start_idx remaining_indices with
  | Raise e => Some (Raise e)
  | Ok remaining_indices =>
      extend transition_score songs_sorted
             (List.length remaining_indices) [start_idx] remaining_indices
  end.

Definition build_harmonic_path (songs : list Song)
  : option (result (list Song)) :=
  match songs with
  | [] => Some (Ok [])
  | _ :: _ =>
      let songs_sorted := sorted songs in
      let remaining_indices := seq 0 (List.length songs_sorted) in
      match find_start songs_sorted remaining_indices with
      | Raise e => Some (Raise e)
      | Ok None => Some (Ok songs_sorted)
      | Ok (Some start_idx) =>
          bind_fuel (path_indices songs_sorted start_idx)
                    (rebuild songs_sorted)
      end
  end.

End HarmonicsFirst.

(** *** The specification's formulas, evaluated in binary64 *)

Module Formula.

(** The fixed score of each mix type. *)
Definition table (m : Spec.MixType) : float :=
  match m with
  | Spec.PerfectMix => 5.0
  | Spec.Plus1Mix => 4.0
  | Spec.Minus1Mix => 4.0
  | Spec.EnergyBoost => 3.0
  | Spec.ScaleChange => 3.0
  | Spec.DiagonalMix => 2.0
  | Spec.MoodShifter => 2.0
  | Spec.JawsMix => 1.0
  | Spec.NonHarmonic => 0.0
  | Spec.Unknown => 0.0
  end.

(** [max(0, x)]. *)
Definition max0 (x : float) : float := if 0 <? x then x else 0.

(** [bpmScore = max(0, 10 - |bpmB - bpmA|)], 0 when a BPM is absent. *)
Definition bpm_score (bpm_a bpm_b : option float) : float :=
  match bpm_a, bpm_b with
  | Some a, Some b => max0 (10 - abs (b - a))
  | _, _ => 0
  end.

(** BPM-first: [bpmScore * 0.40 + table * 0.60]. *)
Definition bpm_first_score (m : Spec.MixType) (bpm_a bpm_b : option float)
  : float :=
  bpm_score bpm_a bpm_b * 0.40 + table m * 0.60.

(** Harmonic-first penalty [|bpmB - bpmA| * 0.15], 0 when a BPM is
    absent. *)
Definition bpm_penalty (bpm_a bpm_b : option float) : float :=
  match bpm_a, bpm_b with
  | Some a, Some b => abs (b - a) * 0.15
  | _, _ => 0
  end.

(** Harmonic-first: [table * 10 - penalty]. *)
Definition harmonic_first_score (m : Spec.MixType)
           (bpm_a bpm_b : option float) : float :=
  table m * 10 - bpm_penalty bpm_a bpm_b.

End Formula.

(** *** Vocabulary of the statements *)

(** The float of a whole number from 0 up; exact below 2^53. *)
Definition of_Z (z : Z) : float := of_uint63 (Uint63.of_Z z).

(** The tempo is the whole number [z]. *)
Definition whole_bpm (z : Z) (s : Song) : Prop := bpm s = Some (of_Z z).

(** BPM order, read off the records: the tempo of [a] is at most that of
    [c]; a record without a tempo stands after every record that has
    one. *)
Definition bpm_le (a c : Song) : Prop :=
  match bpm a, bpm c with
  | Some x, Some y => (x <=? y) = true
  | _, None => True
  | None, Some _ => False
  end.

(** The example input of the specification, and an input on which two
    candidates score 3.6 and 3.6000000000000005. *)
Definition example_tracks : list Song :=
  [track 128 "8A"; track 130 "9A"; track 126 "8B"].

Definition close_scores_tracks : list Song :=
  [track 104 "4B"; track 105 "2A"; track 108 "7A"].

(** The whole numbers [z], [z + 1], ..., [n] of them. *)
Fixpoint zrange_from (z : Z) (n : nat) : list Z :=
  match n with
  | O => []
  | S k => z :: zrange_from (z + 1) k
  end.

(** The values of the score table. *)
Definition table_values : list float := [5; 4; 3; 2; 1; 0].

(** The two scores as functions of the table value [h] and of a whole
    tempo difference [d]. *)
Definition bpm_first_at (h : float) (d : Z) : float :=
  pymax 0 (10 - of_Z d) * 0.40 + h * (1 - 0.40).

Definition harmonics_first_at (h : float) (d : Z) : float :=
  h * 10 - of_Z d * 0.15.

(** The input precondition of the builders: a tempo that is a number,
    and a key that [parse_camelot] decodes. *)
Definition usable (s : Song) : Prop :=
  (exists b, bpm s = Some b /\ is_nan b = false) /\
  exists k p, key s = Some k /\ parse_camelot k = Ok p.

Section GreedySpec.

Variable transition_score : Song -> Song -> result (float * string).
Variable songs_sorted : list Song.

(** The candidate at index [idx] scores [s] when it follows the track
    [curr_song]. *)
Definition scored (curr_song : Song) (idx : nat) (s : float) : Prop :=
  exists candidate mix_type,
    nth_error songs_sorted idx = Some candidate /\
    transition_score curr_song candidate = Ok (s, mix_type).

(** [best] is the greedy choice in [remaining] after [curr_song]: every
    candidate met before it scores strictly less, every candidate met after
    it scores at most as much, both as comparisons of floats; [rest] is
    [remaining] without it, order kept. *)
Definition selects (curr_song : Song) (remaining : list nat)
           (best : nat) (rest : list nat) : Prop :=
  exists before after s_best,
    remaining = before ++ best :: after /\
    rest = before ++ after /\
    scored curr_song best s_best /\
    (forall j, In j before ->
               exists s, scored curr_song j s /\ (s <? s_best) = true) /\
    (forall j, In j after ->
               exists s, scored curr_song j s /\ (s <=? s_best) = true).

(** A run of greedy steps from the state ([path], [remaining]) to the
    finished path. *)
Inductive greedy_run : list nat -> list nat -> list nat -> Prop :=
| greedy_stop (path : list nat) :
    greedy_run path [] path
| greedy_next (path pre : list nat) (cur : nat) (curr_song : Song)
              (remaining : list nat) (best : nat) (rest final : list nat) :
    path = pre ++ [cur] ->
    nth_error songs_sorted cur = Some curr_song ->
    remaining <> [] ->
    selects curr_song remaining best rest ->
    greedy_run (path ++ [best]) rest final ->
    greedy_run path remaining final.

End GreedySpec.

End Binary64.

(** *** The order of binary64 numbers, for the proofs

    [SFrank] sends a float that is a number to a triple of integers whose
    lexicographic order is the order of floats. *)

Definition SFrank (x : spec_float) : Z * Z * Z :=
  match x with
  | S754_nan => (0, 0, 0)
  | S754_zero _ => (0, 0, 0)
  | S754_infinity s => (if s then -2 else 2, 0, 0)
  | S754_finite s m e =>
      if s then (-1, - e, - Z.pos m) else (1, e, Z.pos m)
  end.

Definition rank_lt (a b : Z * Z * Z) : Prop :=
  let '(s1, e1, m1) := a in
  let '(s2, e2, m2) := b in
  s1 < s2 \/ (s1 = s2 /\ (e1 < e2 \/ (e1 = e2 /\ m1 < m2))).

Definition SFnumber (x : spec_float) : Prop := x <> S754_nan.

(** Zero, a positive number or plus infinity. *)
Definition SFnonneg (x : spec_float) : Prop :=
  match x with
  | S754_nan => False
  | S754_zero s | S754_infinity s | S754_finite s _ _ => s = false
  end.

(* ================================================================== *)
(** ** Properties of the key model *)

(** Arithmetic on the twelve-slot ring. *)
Ltac ring12 :=
  unfold camelot_increment in *; Z.div_mod_to_equations; lia.

Lemma camelot_increment_range (num step : Z) :
  1 <= camelot_increment num step <= 12.
Proof.
  unfold camelot_increment.
  pose proof (Z.mod_pos_bound (num - 1 + step) 12 ltac:(lia)). lia.
Qed.

Lemma camelot_increment_back (p s : Z) :
  1 <= p <= 12 -> camelot_increment (camelot_increment p s) (- s) = p.
Proof.
  intros Hp. unfold camelot_increment.
  replace ((p - 1 + s) mod 12 + 1 - 1 + - s) with ((p - 1 + s) mod 12 - s)
    by lia.
  rewrite Zminus_mod_idemp_l.
  replace (p - 1 + s - s) with (p - 1) by lia.
  rewrite Z.mod_small; lia.
Qed.

(** C8. [camelot_increment] is the 1-indexed circular sum
    [((position - 1 + step) mod 12) + 1], also for a negative step; for
    each fixed step it maps [1,12] one-to-one onto [1,12], and stepping
    back by the opposite step returns to the starting position. *)
Theorem camelot_increment_ring :
  (forall p s, camelot_increment p s = ((p - 1 + s) mod 12) + 1) /\
  camelot_increment 1 (-1) = 12 /\
  camelot_increment 3 (-5) = 10 /\
  (forall s p, 1 <= p <= 12 -> 1 <= camelot_increment p s <= 12) /\
  (forall s p q, 1 <= p <= 12 -> 1 <= q <= 12 ->
     camelot_increment p s = camelot_increment q s -> p = q) /\
  (forall s r, 1 <= r <= 12 ->
     exists p, 1 <= p <= 12 /\ camelot_increment p s = r) /\
  (forall p s, 1 <= p <= 12 ->
     camelot_increment (camelot_increment p s) (- s) = p).
Proof.
  repeat split.
  - apply camelot_increment_range.
  - apply camelot_increment_range.
  - intros s p q Hp Hq Heq.
    rewrite <- (camelot_increment_back p s Hp).
    rewrite <- (camelot_increment_back q s Hq).
    now rewrite Heq.
  - intros s r Hr. exists (camelot_increment r (- s)). split.
    + apply camelot_increment_range.
    + pose proof (camelot_increment_back r (- s) Hr) as H.
      now rewrite Z.opp_involutive in H.
  - intros p s Hp. now apply camelot_increment_back.
Qed.

Lemma camelot_increment_ring_witness :
  1 <= 8 <= 12 /\ camelot_increment (camelot_increment 8 (-5)) (- (-5)) = 8.
Proof.
  split; [lia | ].
  apply (proj2 (proj2 (proj2 (proj2 (proj2 (proj2
           camelot_increment_ring)))))). lia.
Defined.

(* ================================================================== *)
(** ** Properties of the decoder *)

Lemma index_last_total (k : string) :
  k <> "" -> exists c, PyStr.index_last k = Ok c.
Proof.
  induction k as [| c r IH]; [congruence | ].
  intros _. simpl. destruct r as [| c' r'].
  - now exists c.
  - apply IH. discriminate.
Qed.

Lemma index_last_exn (k : string) (e : exn) :
  PyStr.index_last k = Raise e -> k = "".
Proof.
  intros H. destruct (string_dec k "") as [-> | Hne]; [reflexivity | ].
  destruct (index_last_total k Hne) as [c Hc]. congruence.
Qed.

(** [parse_camelot] raises exactly when [int] rejects [key[:-1]], and then
    with [ValueError]: the [IndexError] of [key[-1]] is never reached. *)
Lemma parse_camelot_raises (k : string) (e : exn) :
  parse_camelot k = Raise e <->
  e = ValueError /\ PyStr.int (PyStr.but_last k) = Raise ValueError.
Proof.
  unfold parse_camelot. split.
  - destruct (PyStr.int (PyStr.but_last k)) as [n | e'] eqn:Hint; simpl.
    + destruct (PyStr.index_last k) as [c | e'] eqn:Hlast; simpl;
        [discriminate | ].
      apply index_last_exn in Hlast. subst k. discriminate.
    + intros H. injection H as <-.
      assert (e' = ValueError) as ->; [ | now split].
      unfold PyStr.int in Hint.
      repeat match type of Hint with
             | context [match ?x with _ => _ end] => destruct x
             end; congruence.
  - intros [-> Hint]. now rewrite Hint.
Qed.

(* ================================================================== *)
(** ** Properties of the classifier *)

Lemma is_perfect_mix_refl (k : string) : is_perfect_mix k k = true.
Proof. apply String.eqb_refl. Qed.

(** Classification of two keys that both decode: the comparison of the
    two strings first, then rules 2 to 8 on the decoded keys. *)
Lemma classify_decoded (k1 k2 : string) (n1 n2 : Z) (l1 l2 : ascii) :
  parse_camelot k1 = Ok (n1, l1) ->
  parse_camelot k2 = Ok (n2, l2) ->
  classify_mix_type (Some k1) (Some k2) =
  Ok (if String.eqb k1 k2 then "perfect mix"
      else Spec.label (Spec.first_match (tl Spec.rules)
                         (Spec.mkDecoded n1 l1) (Spec.mkDecoded n2 l2))).
Proof.
  intros H1 H2.
  unfold classify_mix_type, is_perfect_mix, is_plus1_mix, is_minus1_mix,
    is_energy_boost, is_scale_change, is_diagonal_mix, is_mood_shifter,
    is_jaws_mix.
  rewrite H1, H2.
  unfold Spec.rules, Spec.first_match, Spec.same_scale, Spec.at_step.
  cbn [bind tl Spec.position Spec.scale].
  destruct (String.eqb k1 k2); [reflexivity | ].
  destruct (Ascii.eqb l1 l2); cbn [andb negb].
  - destruct (n2 =? camelot_increment n1 1); [reflexivity | ].
    destruct (n2 =? camelot_increment n1 (-1)); [reflexivity | ].
    destruct (n2 =? camelot_increment n1 2); [reflexivity | ].
    rewrite !andb_false_r. cbn [andb].
    destruct (n2 =? camelot_increment n1 3); cbn [andb];
    destruct (n2 =? camelot_increment n1 (-5)); reflexivity.
  - destruct (n1 =? n2); [reflexivity | ]. cbn [andb].
    destruct (n2 =? camelot_increment n1 (-1)); [reflexivity | ].
    destruct (n2 =? camelot_increment n1 3); [reflexivity | ].
    rewrite !andb_false_r. reflexivity.
Qed.

(** Rules 2 to 8 all fail between a decoded key and itself. *)
Lemma later_rules_same_key (n : Z) (l : ascii) :
  Spec.first_match (tl Spec.rules) (Spec.mkDecoded n l) (Spec.mkDecoded n l)
  = Spec.NonHarmonic.
Proof.
  unfold Spec.rules, Spec.first_match, Spec.same_scale, Spec.at_step.
  cbn [tl Spec.position Spec.scale].
  rewrite Ascii.eqb_refl. cbn [andb negb]. rewrite andb_false_r.
  repeat match goal with
         | |- context [n =? camelot_increment n ?k] =>
             destruct (Z.eqb_spec n (camelot_increment n k)) as [E | _];
             [exfalso; revert E; ring12 | ]
         end.
  reflexivity.
Qed.

(** A key that does not decode makes the classification of two distinct
    keys raise. *)
Lemma classify_undecodable (k1 k2 : string) (e : exn) :
  k1 <> k2 ->
  parse_camelot k1 = Raise e \/ parse_camelot k2 = Raise e ->
  classify_mix_type (Some k1) (Some k2) = Raise ValueError.
Proof.
  intros Hne H. unfold classify_mix_type, is_perfect_mix.
  destruct (String.eqb_spec k1 k2) as [Heq | _]; [contradiction | ].
  unfold is_plus1_mix.
  destruct (parse_camelot k1) as [[n1 l1] | e1] eqn:H1; cbn [bind].
  - destruct H as [H | H]; [discriminate | ].
    rewrite H. cbn [bind]. apply parse_camelot_raises in H.
    now destruct H as [-> _].
  - apply parse_camelot_raises in H1. now destruct H1 as [-> _].
Qed.

(** Every label the classifier returns is one of the ten mix types. *)
Lemma classify_label (k1 k2 : option string) (lbl : string) :
  classify_mix_type k1 k2 = Ok lbl -> exists m, lbl = Spec.label m.
Proof.
  destruct k1 as [k1 | ], k2 as [k2 | ];
    try (intros [= <-]; now exists Spec.Unknown).
  destruct (String.eqb_spec k1 k2) as [-> | Hne].
  - unfold classify_mix_type. rewrite is_perfect_mix_refl.
    intros [= <-]. now exists Spec.PerfectMix.
  - destruct (parse_camelot k1) as [[n1 l1] | e1] eqn:H1.
    + destruct (parse_camelot k2) as [[n2 l2] | e2] eqn:H2.
      * rewrite (classify_decoded _ _ _ _ _ _ H1 H2).
        destruct (String.eqb k1 k2); intros [= <-];
          [now exists Spec.PerfectMix | eauto].
      * rewrite (classify_undecodable k1 k2 e2 Hne (or_intror H2)).
        discriminate.
    + rewrite (classify_undecodable k1 k2 e1 Hne (or_introl H1)).
      discriminate.
Qed.

(** C1. Two present keys that decode are classified by the priority chain
    perfect mix, +1 mix, -1 mix, energy boost, scale change, diagonal mix,
    mood shifter, jaws mix, first match winning and non-harmonic otherwise,
    whenever the two key strings are equal or their decodings differ.  Two
    different strings with one decoding are identical keys for the chain,
    a perfect mix, but the classifier compares the strings and answers
    non-harmonic.  An absent key gives unknown; the ten example
    equations hold. *)
Theorem classify_mix_type_priority :
  (forall k1 k2 n1 l1 n2 l2,
      parse_camelot k1 = Ok (n1, l1) ->
      parse_camelot k2 = Ok (n2, l2) ->
      k1 = k2 \/ (n1, l1) <> (n2, l2) ->
      classify_mix_type (Some k1) (Some k2) =
      Ok (Spec.label (Spec.first_match Spec.rules
                        (Spec.mkDecoded n1 l1) (Spec.mkDecoded n2 l2)))) /\
  (forall k1 k2 n l,
      parse_camelot k1 = Ok (n, l) ->
      parse_camelot k2 = Ok (n, l) ->
      k1 <> k2 ->
      Spec.first_match Spec.rules (Spec.mkDecoded n l) (Spec.mkDecoded n l)
      = Spec.PerfectMix /\
      classify_mix_type (Some k1) (Some k2) = Ok "non-harmonic") /\
  (forall k, classify_mix_type None k = Ok "unknown" /\
             classify_mix_type k None = Ok "unknown") /\
  classify_mix_type (Some "8A") (Some "8A") = Ok "perfect mix" /\
  classify_mix_type (Some "8A") (Some "9A") = Ok "+1 mix" /\
  classify_mix_type (Some "9A") (Some "8A") = Ok "-1 mix" /\
  classify_mix_type (Some "8A") (Some "10A") = Ok "energy boost" /\
  classify_mix_type (Some "8A") (Some "8B") = Ok "scale change" /\
  classify_mix_type (Some "9A") (Some "8B") = Ok "diagonal mix" /\
  classify_mix_type (Some "1B") (Some "4A") = Ok "mood shifter" /\
  classify_mix_type (Some "1A") (Some "8A") = Ok "jaws mix" /\
  classify_mix_type (Some "8A") (Some "3B") = Ok "non-harmonic" /\
  classify_mix_type None (Some "8A") = Ok "unknown".
Proof.
  assert (Hsame : forall n l,
             Spec.first_match Spec.rules (Spec.mkDecoded n l)
               (Spec.mkDecoded n l) = Spec.PerfectMix).
  { intros n l. unfold Spec.rules, Spec.first_match, Spec.same_scale.
    cbn [Spec.position Spec.scale].
    now rewrite Z.eqb_refl, Ascii.eqb_refl. }
  split; [ | split; [ | split]].
  - intros k1 k2 n1 l1 n2 l2 H1 H2 Hcase.
    rewrite (classify_decoded _ _ _ _ _ _ H1 H2).
    destruct (String.eqb_spec k1 k2) as [-> | Hne].
    + assert (E : (n1, l1) = (n2, l2)) by congruence.
      injection E as <- <-. now rewrite Hsame.
    + destruct Hcase as [-> | Hdiff]; [contradiction | ].
      f_equal. f_equal.
      transitivity
        (if (n1 =? n2) && Ascii.eqb l1 l2 then Spec.PerfectMix
         else Spec.first_match (tl Spec.rules)
                (Spec.mkDecoded n1 l1) (Spec.mkDecoded n2 l2));
        [ | reflexivity].
      destruct (Z.eqb_spec n1 n2) as [-> | _]; [ | reflexivity].
      destruct (Ascii.eqb_spec l1 l2) as [-> | _]; [ | reflexivity].
      now contradiction Hdiff.
  - intros k1 k2 n l H1 H2 Hne. split; [apply Hsame | ].
    rewrite (classify_decoded _ _ _ _ _ _ H1 H2).
    destruct (String.eqb_spec k1 k2) as [-> | _]; [contradiction | ].
    now rewrite later_rules_same_key.
  - intros [k | ]; split; reflexivity.
  - repeat split; vm_compute; reflexivity.
Qed.

Lemma classify_mix_type_priority_witness :
  (parse_camelot "12B" = Ok (12, "B"%char) /\
   parse_camelot "1b" = Ok (1, "B"%char) /\
   classify_mix_type (Some "12B") (Some "1b") = Ok "+1 mix") /\
  (parse_camelot "08A" = Ok (8, "A"%char) /\
   parse_camelot "8A" = Ok (8, "A"%char) /\
   "08A" <> "8A" /\
   Spec.first_match Spec.rules (Spec.mkDecoded 8 "A") (Spec.mkDecoded 8 "A")
   = Spec.PerfectMix /\
   classify_mix_type (Some "08A") (Some "8A") = Ok "non-harmonic").
Proof.
  split.
  - split; [reflexivity | split; [reflexivity | ]].
    refine (proj1 classify_mix_type_priority
              "12B" "1b" 12 "B"%char 1 "B"%char eq_refl eq_refl _).
    right. discriminate.
  - split; [reflexivity | split; [reflexivity | split; [discriminate | ]]].
    refine (proj1 (proj2 classify_mix_type_priority)
              "08A" "8A" 8 "A"%char eq_refl eq_refl _).
    discriminate.
Defined.

(** C10. Two identical present keys are a perfect mix whatever the string
    is, including strings that [parse_camelot] rejects: the identity test
    comes before any decoding. *)
Theorem classify_identical_keys :
  (forall k : string,
      classify_mix_type (Some k) (Some k) = Ok "perfect mix") /\
  parse_camelot "XX" = Raise ValueError /\
  classify_mix_type (Some "XX") (Some "XX") = Ok "perfect mix" /\
  parse_camelot "" = Raise ValueError /\
  classify_mix_type (Some "") (Some "") = Ok "perfect mix".
Proof.
  split.
  - intros k. unfold classify_mix_type. now rewrite is_perfect_mix_refl.
  - repeat split; reflexivity.
Qed.

(** The identity test is on the key strings: two spellings of one key
    are not a perfect mix, and no later rule applies to them. *)
Lemma classify_other_spelling :
  parse_camelot "8a" = parse_camelot "8A" /\
  classify_mix_type (Some "8a") (Some "8A") = Ok "non-harmonic" /\
  parse_camelot "08A" = parse_camelot "8A" /\
  classify_mix_type (Some "08A") (Some "8A") = Ok "non-harmonic".
Proof. repeat split; reflexivity. Qed.

(** C2, as stated, fails: keys that the specification calls malformed (a
    position outside [1,12], no trailing letter, a non-positive number) are
    decoded without failure, and the classifier returns a category for
    them. *)
Lemma malformed_key_decodes :
  Spec.invalid_key_format "13A" = true /\
  parse_camelot "13A" = Ok (13, "A"%char) /\
  classify_mix_type (Some "13A") (Some "2A") = Ok "+1 mix" /\
  Spec.invalid_key_format "12" = true /\
  parse_camelot "12" = Ok (1, "2"%char) /\
  classify_mix_type (Some "12") (Some "22") = Ok "+1 mix" /\
  Spec.invalid_key_format "0A" = true /\
  parse_camelot "0A" = Ok (0, "A"%char) /\
  classify_mix_type (Some "0A") (Some "1A") = Ok "+1 mix".
Proof. repeat split; vm_compute; reflexivity. Qed.

(** C2, amended. Decoding fails exactly when [int] rejects the text before
    the last character, and then with [ValueError]; the classification of
    two distinct present keys raises [ValueError] as soon as one of them
    fails to decode. *)
Theorem undecodable_key_raises :
  (forall k e,
      parse_camelot k = Raise e <->
      e = ValueError /\ PyStr.int (PyStr.but_last k) = Raise ValueError) /\
  (forall k1 k2 e,
      k1 <> k2 ->
      parse_camelot k1 = Raise e \/ parse_camelot k2 = Raise e ->
      classify_mix_type (Some k1) (Some k2) = Raise ValueError).
Proof.
  split.
  - apply parse_camelot_raises.
  - apply classify_undecodable.
Qed.

Lemma undecodable_key_raises_witness :
  "8A" <> "AB" /\
  parse_camelot "AB" = Raise ValueError /\
  classify_mix_type (Some "8A") (Some "AB") = Raise ValueError.
Proof.
  split; [discriminate | split; [reflexivity | ]].
  apply (proj2 undecodable_key_raises "8A" "AB" ValueError).
  - discriminate.
  - right. reflexivity.
Defined.

(* ================================================================== *)
(** ** Properties of the two scoring functions *)

Section Scores.

Local Open Scope Q_scope.

Lemma bpm_first_table (m : Spec.MixType) :
  dict_get BpmFirst.MIX_SCORES (Spec.label m) 0.0 = Spec.table m.
Proof. destruct m; reflexivity. Qed.

Lemma harmonics_first_table (m : Spec.MixType) :
  dict_get HarmonicsFirst.MIX_SCORES (Spec.label m) 0.0 = Spec.table m.
Proof. destruct m; reflexivity. Qed.

Lemma bpm_first_score_inv (a b : Song) (s : Q) (lbl : string) :
  BpmFirst.transition_score a b = Ok (s, lbl) ->
  classify_mix_type (key a) (key b) = Ok lbl /\
  s = match bpm a, bpm b with
      | Some x, Some y => Qmax 0.0 (10.0 - Qabs (y - x))
      | _, _ => 0.0
      end * 0.40
      + dict_get BpmFirst.MIX_SCORES lbl 0.0 * (1 - 0.40).
Proof.
  unfold BpmFirst.transition_score, BpmFirst.transition_score_w.
  destruct (classify_mix_type (key a) (key b)) as [l | e]; cbn [bind];
    [ | discriminate].
  intros [= <- <-]. split; [reflexivity | ].
  destruct (bpm a), (bpm b); reflexivity.
Qed.

Lemma bpm_score_code (x y : option Q) :
  match x, y with
  | Some x, Some y => Qmax 0.0 (10.0 - Qabs (y - x))
  | _, _ => 0.0
  end == Spec.bpm_score x y.
Proof.
  unfold Spec.bpm_score. destruct x as [x | ], y as [y | ];
    try reflexivity.
  destruct (Q.max_spec 0.0 (10.0 - Qabs (y - x))) as [[H1 E1] | [H1 E1]];
  destruct (Q.max_spec 0 (10 - Qabs (y - x))) as [[H2 E2] | [H2 E2]];
    rewrite E1, E2; lra.
Qed.

Lemma harmonics_first_score_inv (a b : Song) (s : Q) (lbl : string) :
  HarmonicsFirst.transition_score a b = Ok (s, lbl) ->
  classify_mix_type (key a) (key b) = Ok lbl /\
  s = dict_get HarmonicsFirst.MIX_SCORES lbl 0.0 * 10.0
      - match bpm a, bpm b with
        | Some x, Some y => Qabs (y - x) * 0.15
        | _, _ => 0.0
        end.
Proof.
  unfold HarmonicsFirst.transition_score,
    HarmonicsFirst.transition_score_w.
  destruct (classify_mix_type (key a) (key b)) as [l | e]; cbn [bind];
    [ | discriminate].
  intros [= <- <-]. split; [reflexivity | ].
  destruct (bpm a), (bpm b); reflexivity.
Qed.

(** The clamp of the BPM-first closeness term. *)
Lemma bpm_score_cases (x y : Q) :
  (Qabs (y - x) < 10 /\
   Spec.bpm_score (Some x) (Some y) == 10 - Qabs (y - x)) \/
  (10 <= Qabs (y - x) /\ Spec.bpm_score (Some x) (Some y) == 0).
Proof.
  unfold Spec.bpm_score.
  destruct (Q.max_spec 0 (10 - Qabs (y - x))) as [[Hlt Heq] | [Hle Heq]].
  - left. split; [lra | exact Heq].
  - right. split; [lra | exact Heq].
Qed.

End Scores.

(* ================================================================== *)
(** ** The order on sort keys and scores *)

Lemma Qltb_lt (x y : Q) : Qltb x y = true <-> (x < y)%Q.
Proof.
  unfold Qltb. rewrite Qlt_alt.
  destruct (Qcompare x y); split; congruence.
Qed.

Lemma Qltb_ge (x y : Q) : Qltb x y = false <-> (y <= x)%Q.
Proof.
  rewrite <- Bool.not_true_iff_false, Qltb_lt. split.
  - apply Qnot_lt_le.
  - apply Qle_not_lt.
Qed.

Lemma xlt_irrefl (a : xreal) : xlt a a = false.
Proof.
  destruct a as [ | q | ]; try reflexivity.
  simpl. apply Qltb_ge. apply Qle_refl.
Qed.

Lemma xlt_trans (a b c : xreal) :
  xlt a b = true -> xlt b c = true -> xlt a c = true.
Proof.
  destruct a as [ | x | ], b as [ | y | ], c as [ | z | ]; simpl;
    try congruence.
  rewrite !Qltb_lt. apply Qlt_trans.
Qed.

(** [b <= a] and [a < c] give [b < c]. *)
Lemma xlt_le_lt (a b c : xreal) :
  xlt a b = false -> xlt a c = true -> xlt b c = true.
Proof.
  destruct a as [ | x | ], b as [ | y | ], c as [ | z | ]; simpl;
    try congruence.
  rewrite Qltb_ge, !Qltb_lt. apply Qle_lt_trans.
Qed.

Lemma xlt_asym (a b : xreal) : xlt a b = true -> xlt b a = false.
Proof.
  intros H. destruct (xlt b a) eqn:E; [ | reflexivity].
  pose proof (xlt_trans _ _ _ H E) as C. now rewrite xlt_irrefl in C.
Qed.

(** [b <= a] and [c <= b] give [c <= a]. *)
Lemma xle_trans (a b c : xreal) :
  xlt a b = false -> xlt b c = false -> xlt a c = false.
Proof.
  intros H1 H2. destruct (xlt a c) eqn:E; [ | reflexivity].
  pose proof (xlt_le_lt _ _ _ H1 E) as C. congruence.
Qed.

(* ================================================================== *)
(** ** The stable sort *)

Section SortedFacts.

Context {A : Type} (sort_key : A -> xreal).

Lemma insert_perm (x : A) (l : list A) :
  Permutation (PyList.insert sort_key x l) (x :: l).
Proof.
  induction l as [ | y r IH]; simpl.
  - apply Permutation_refl.
  - destruct (xlt (sort_key y) (sort_key x)).
    + eapply perm_trans; [apply perm_skip, IH | apply perm_swap].
    + apply Permutation_refl.
Qed.

Lemma sorted_perm (l : list A) : Permutation (PyList.sorted sort_key l) l.
Proof.
  induction l as [ | x r IH]; simpl.
  - apply perm_nil.
  - eapply perm_trans; [apply insert_perm | now apply perm_skip].
Qed.

Lemma sorted_length (l : list A) :
  List.length (PyList.sorted sort_key l) = List.length l.
Proof. apply Permutation_length, sorted_perm. Qed.

Lemma sorted_nonempty (l : list A) :
  l <> [] -> PyList.sorted sort_key l <> [].
Proof.
  intros Hl E. apply Hl. apply length_zero_iff_nil.
  rewrite <- sorted_length, E. reflexivity.
Qed.

(** The head of the sorted list is the leftmost minimum of the input:
    everything before it in the input has a strictly greater key,
    nothing after it has a smaller one. *)
Lemma sorted_head (l : list A) (h : A) (t : list A) :
  PyList.sorted sort_key l = h :: t ->
  exists before after,
    l = before ++ h :: after /\
    (forall x, In x before -> xlt (sort_key h) (sort_key x) = true) /\
    (forall x, In x after -> xlt (sort_key x) (sort_key h) = false).
Proof.
  revert h t. induction l as [ | x r IH]; intros h t; simpl.
  - discriminate.
  - destruct (PyList.sorted sort_key r) as [ | h' t'] eqn:Hs.
    + simpl. intros [= <- <-].
      assert (r = []) as ->.
      { apply length_zero_iff_nil. rewrite <- sorted_length, Hs.
        reflexivity. }
      exists [], []. repeat split; intros y [].
    + destruct (IH h' t' eq_refl) as (before & after & -> & Hb & Ha).
      simpl. destruct (xlt (sort_key h') (sort_key x)) eqn:Hlt.
      * intros [= <- <-]. exists (x :: before), after.
        repeat split; [ | exact Ha].
        intros y [<- | Hy]; [exact Hlt | now apply Hb].
      * intros [= <- <-]. exists [], (before ++ h' :: after).
        repeat split; [intros y [] | ].
        intros y Hy. apply in_app_or in Hy.
        destruct Hy as [Hy | [<- | Hy]].
        -- apply xle_trans with (b := sort_key h'); [ | exact Hlt].
           apply xlt_asym. now apply Hb.
        -- exact Hlt.
        -- apply xle_trans with (b := sort_key h'); [ | exact Hlt].
           now apply Ha.
Qed.

(** The result is ascending: no element is followed by a smaller one. *)
Lemma insert_ascending (x : A) (l : list A) :
  StronglySorted (fun a b => xlt (sort_key b) (sort_key a) = false) l ->
  StronglySorted (fun a b => xlt (sort_key b) (sort_key a) = false)
                 (PyList.insert sort_key x l).
Proof.
  induction 1 as [ | y r Hr IH Hy]; simpl.
  - constructor; constructor.
  - destruct (xlt (sort_key y) (sort_key x)) eqn:Hlt.
    + constructor; [exact IH | ].
      rewrite Forall_forall in *. intros z Hz.
      apply (Permutation_in _ (insert_perm x r)) in Hz.
      destruct Hz as [<- | Hz]; [now apply xlt_asym | now apply Hy].
    + constructor; [now constructor | ].
      constructor; [exact Hlt | ].
      rewrite Forall_forall in *. intros z Hz.
      apply xle_trans with (b := sort_key y); [now apply Hy | exact Hlt].
Qed.

Lemma sorted_ascending (l : list A) :
  StronglySorted (fun a b => xlt (sort_key b) (sort_key a) = false)
                 (PyList.sorted sort_key l).
Proof.
  induction l as [ | x r IH]; simpl.
  - constructor.
  - now apply insert_ascending.
Qed.

End SortedFacts.

(* ================================================================== *)
(** ** Python list primitives *)

Lemma index_Some {A : Type} (l : list A) (i : nat) (a : A) :
  nth_error l i = Some a -> PyList.index l i = Ok a.
Proof. unfold PyList.index. now intros ->. Qed.

Lemma index_inv {A : Type} (l : list A) (i : nat) (a : A) :
  PyList.index l i = Ok a -> nth_error l i = Some a.
Proof.
  unfold PyList.index. destruct (nth_error l i); congruence.
Qed.

Lemma index_last_snoc {A : Type} (l : list A) (a : A) :
  PyList.index_last (l ++ [a]) = Ok a.
Proof. unfold PyList.index_last. now rewrite rev_unit. Qed.

Lemma remove_middle (x : nat) (before after : list nat) :
  ~ In x before ->
  PyList.remove x (before ++ x :: after) = Ok (before ++ after).
Proof.
  induction before as [ | y r IH]; simpl; intros Hn.
  - now rewrite Nat.eqb_refl.
  - destruct (Nat.eqb_spec y x) as [-> | _]; [tauto | ].
    rewrite IH by tauto. reflexivity.
Qed.

Lemma remove_inv (x : nat) (l l' : list nat) :
  PyList.remove x l = Ok l' ->
  exists before after,
    l = before ++ x :: after /\ l' = before ++ after /\ ~ In x before.
Proof.
  revert l'. induction l as [ | y r IH]; simpl; intros l'.
  - discriminate.
  - destruct (Nat.eqb_spec y x) as [-> | Hne].
    + intros [= <-]. exists [], r. repeat split. intros [].
    + destruct (PyList.remove x r) as [r' | e]; simpl; [ | discriminate].
      intros [= <-].
      destruct (IH r' eq_refl) as (before & after & -> & -> & Hn).
      exists (y :: before), after. repeat split.
      intros [E | Hin]; [now apply Hne | now apply Hn].
Qed.

Lemma remove_length (x : nat) (l l' : list nat) :
  PyList.remove x l = Ok l' -> List.length l = S (List.length l').
Proof.
  intros H. destruct (remove_inv _ _ _ H) as (b & a & -> & -> & _).
  rewrite !length_app. simpl. lia.
Qed.

Lemma comprehension_index {A : Type} (l : list A) (d : A)
      (path : list nat) :
  (forall i, In i path -> (i < List.length l)%nat) ->
  PyList.comprehension (PyList.index l) path
  = Ok (map (fun i => nth i l d) path).
Proof.
  induction path as [ | i r IH]; simpl; intros Hlt; [reflexivity | ].
  assert (Hi : (i < List.length l)%nat) by (apply Hlt; now left).
  rewrite (index_Some l i (nth i l d)) by now apply nth_error_nth'.
  simpl. rewrite IH by (intros j Hj; apply Hlt; now right).
  reflexivity.
Qed.

Lemma comprehension_head {A B : Type} (f : A -> result B) (a : A)
      (r : list A) (out : list B) :
  PyList.comprehension f (a :: r) = Ok out ->
  exists b bs, f a = Ok b /\ out = b :: bs.
Proof.
  simpl. destruct (f a) as [b | e]; simpl; [ | discriminate].
  destruct (PyList.comprehension f r) as [bs | e]; simpl; [ | discriminate].
  intros [= <-]. now exists b, bs.
Qed.

Lemma map_nth_seq {A : Type} (l : list A) (d : A) :
  map (fun i => nth i l d) (seq 0 (List.length l)) = l.
Proof.
  apply nth_ext with (d := d) (d' := d).
  - now rewrite length_map, length_seq.
  - intros n Hn. rewrite length_map, length_seq in Hn.
    rewrite (nth_indep _ d (nth 0 l d))
      by now rewrite length_map, length_seq.
    rewrite (map_nth (fun i => nth i l d) (seq 0 (List.length l)) 0%nat n).
    now rewrite seq_nth.
Qed.

(* ================================================================== *)
(** ** The greedy loop *)

Section GreedyFacts.

Variable transition_score : Song -> Song -> result (Q * string).
Variable songs_sorted : list Song.

Local Abbreviation scored := (scored transition_score songs_sorted).
Local Abbreviation selects := (selects transition_score songs_sorted).
Local Abbreviation greedy_run := (greedy_run transition_score songs_sorted).
Local Abbreviation scan := (scan transition_score songs_sorted).
Local Abbreviation extend_once := (extend_once transition_score songs_sorted).
Local Abbreviation loop := (extend transition_score songs_sorted).

Lemma scored_fun (a : Song) (j : nat) (s s' : Q) :
  scored a j s -> scored a j s' -> s = s'.
Proof.
  intros (c & t & Hc & Hs) (c' & t' & Hc' & Hs'). congruence.
Qed.

(** What one scan returns, from any starting [best_idx], [best_score]:
    either nothing beat the starting score, or the leftmost maximum of the
    scanned candidates did. *)
Lemma scan_spec (a : Song) (remaining : list nat) :
  forall (bi : option nat) (bs : xreal),
    (forall j, In j remaining -> exists s, scored a j s) ->
    exists r,
      scan a remaining bi bs = Ok r /\
      ((r = bi /\
        forall j s, In j remaining -> scored a j s ->
                    xlt bs (Finite s) = false) \/
       (exists before best after sb,
           remaining = before ++ best :: after /\
           r = Some best /\
           scored a best sb /\
           xlt bs (Finite sb) = true /\
           (forall j s, In j before -> scored a j s -> (s < sb)%Q) /\
           (forall j s, In j after -> scored a j s -> (s <= sb)%Q))).
Proof.
  induction remaining as [ | idx rest IH]; intros bi bs Hall.
  - exists bi. split; [reflexivity | left]. split; [reflexivity | ].
    intros j s [].
  - destruct (Hall idx (or_introl eq_refl)) as (s & Hs).
    pose proof Hs as (c & t & Hc & Ht).
    assert (Hrest : forall j, In j rest -> exists s, scored a j s)
      by (intros j Hj; apply Hall; now right).
    simpl. rewrite (index_Some _ _ _ Hc). simpl. rewrite Ht. simpl.
    destruct (xlt bs (Finite s)) eqn:Hlt.
    + destruct (IH (Some idx) (Finite s) Hrest) as (r & Hr & Hcase).
      exists r. split; [exact Hr | right].
      destruct Hcase as [[-> Hle] | Hcase].
      * exists [], idx, rest, s. repeat split; try assumption.
        -- intros j s' [].
        -- intros j s' Hj Hs'. apply Qltb_ge. exact (Hle j s' Hj Hs').
      * destruct Hcase as (before & best & after & sb & -> & -> & Hsb
                           & Hgt & Hb & Ha).
        exists (idx :: before), best, after, sb. repeat split;
          try assumption.
        -- now apply xlt_trans with (b := Finite s).
        -- intros j s' [<- | Hj] Hs'.
           ++ rewrite (scored_fun _ _ _ _ Hs' Hs). now apply Qltb_lt.
           ++ now apply (Hb j).
    + destruct (IH bi bs Hrest) as (r & Hr & Hcase).
      exists r. split; [exact Hr | ].
      destruct Hcase as [[-> Hle] | Hcase].
      * left. split; [reflexivity | ].
        intros j s' [<- | Hj] Hs'.
        -- now rewrite (scored_fun _ _ _ _ Hs' Hs).
        -- now apply (Hle j).
      * right.
        destruct Hcase as (before & best & after & sb & -> & -> & Hsb
                           & Hgt & Hb & Ha).
        exists (idx :: before), best, after, sb. repeat split;
          try assumption.
        intros j s' [<- | Hj] Hs'.
        -- rewrite (scored_fun _ _ _ _ Hs' Hs).
           apply Qltb_lt.
           exact (xlt_le_lt bs (Finite s) (Finite sb) Hlt Hgt).
        -- now apply (Hb j).
Qed.

(** One iteration of the loop body makes the greedy choice. *)
Lemma extend_once_selects (pre : list nat) (cur : nat) (a : Song)
      (remaining : list nat) :
  nth_error songs_sorted cur = Some a ->
  remaining <> [] ->
  (forall j, In j remaining -> exists s, scored a j s) ->
  exists best rest,
    extend_once (pre ++ [cur]) remaining
    = Ok ((pre ++ [cur]) ++ [best], rest) /\
    selects a remaining best rest.
Proof.
  intros Ha Hne Hall. unfold extend_once.
  rewrite index_last_snoc. simpl. rewrite (index_Some _ _ _ Ha). simpl.
  destruct (scan_spec a remaining None NegInf Hall) as (r & Hr & Hcase).
  rewrite Hr. simpl.
  destruct Hcase as [[-> Hle] | Hcase].
  - destruct remaining as [ | j rest]; [congruence | ].
    destruct (Hall j (or_introl eq_refl)) as (s & Hs).
    specialize (Hle j s (or_introl eq_refl) Hs). discriminate.
  - destruct Hcase as (before & best & after & sb & -> & -> & Hsb
                       & _ & Hb & Hafter).
    assert (Hnin : ~ In best before).
    { intros Hin. specialize (Hb best sb Hin Hsb).
      exact (Qlt_irrefl _ Hb). }
    rewrite (remove_middle _ _ _ Hnin). simpl.
    exists best, (before ++ after). split; [reflexivity | ].
    exists before, after, sb. repeat split; try assumption.
    + intros j Hj.
      destruct (Hall j) as (s & Hs); [apply in_or_app; now left | ].
      exists s. split; [exact Hs | now apply (Hb j)].
    + intros j Hj.
      destruct (Hall j) as (s & Hs);
        [apply in_or_app; right; now right | ].
      exists s. split; [exact Hs | now apply (Hafter j)].
Qed.

(** Whatever happens, an iteration appends one index to the path and
    takes one index out of the pool. *)
Lemma extend_once_shape (path remaining path' remaining' : list nat) :
  extend_once path remaining = Ok (path', remaining') ->
  (exists best, path' = path ++ [best]) /\
  List.length remaining = S (List.length remaining').
Proof.
  unfold extend_once.
  destruct (PyList.index_last path) as [last_idx | e]; simpl;
    [ | discriminate].
  destruct (PyList.index songs_sorted last_idx) as [a | e]; simpl;
    [ | discriminate].
  destruct (scan a remaining None NegInf) as [[best | ] | e]; simpl;
    try discriminate.
  destruct (PyList.remove best remaining) as [r' | e] eqn:Hrm; simpl;
    [ | discriminate].
  intros [= <- <-]. split; [now exists best | ].
  exact (remove_length _ _ _ Hrm).
Qed.

(** The loop never runs out of the fuel its callers give it. *)
Lemma extend_fuel (fuel : nat) :
  forall path remaining,
    (List.length remaining <= fuel)%nat ->
    loop fuel path remaining <> None.
Proof.
  induction fuel as [ | fuel IH]; intros path remaining Hlen.
  - destruct remaining; simpl in *; [discriminate | lia].
  - destruct remaining as [ | j rest]; [discriminate | ].
    cbn [extend].
    destruct (extend_once path (j :: rest)) as [[path' rest'] | e] eqn:Hone;
      [ | discriminate].
    apply IH. apply extend_once_shape in Hone. destruct Hone as [_ Hlen'].
    simpl in *. lia.
Qed.

(** A finished path starts with the path the loop was entered with. *)
Lemma extend_prefix (fuel : nat) :
  forall path remaining final,
    loop fuel path remaining = Some (Ok final) ->
    exists more, final = path ++ more.
Proof.
  induction fuel as [ | fuel IH]; intros path remaining final.
  - destruct remaining; simpl; [ | discriminate].
    intros [= <-]. exists []. now rewrite app_nil_r.
  - destruct remaining as [ | j rest]; simpl.
    + intros [= <-]. exists []. now rewrite app_nil_r.
    + destruct (extend_once path (j :: rest)) as [[path' rest'] | e]
        eqn:Hone; [ | discriminate].
      intros Hext. apply IH in Hext. destruct Hext as [more ->].
      apply extend_once_shape in Hone. destruct Hone as [[best ->] _].
      exists (best :: more). now rewrite <- app_assoc.
Qed.

(** When every track can be scored after every track, the loop finishes
    and its path is a run of greedy steps. *)
Lemma extend_greedy (fuel : nat) :
  (forall a c, In a songs_sorted -> In c songs_sorted ->
               exists s t, transition_score a c = Ok (s, t)) ->
  forall pre cur remaining,
    (List.length remaining <= fuel)%nat ->
    (cur < List.length songs_sorted)%nat ->
    (forall j, In j remaining -> (j < List.length songs_sorted)%nat) ->
    exists final,
      loop fuel (pre ++ [cur]) remaining = Some (Ok final) /\
      greedy_run (pre ++ [cur]) remaining final.
Proof.
  intros Hscore.
  induction fuel as [ | fuel IH]; intros pre cur remaining Hlen Hcur Hrem.
  - destruct remaining; simpl in Hlen; [ | lia].
    eexists. split; [reflexivity | constructor].
  - destruct remaining as [ | j rest].
    + eexists. split; [reflexivity | constructor].
    + destruct (nth_error songs_sorted cur) as [a | ] eqn:Ha;
        [ | apply nth_error_None in Ha; lia].
      assert (Hall : forall i, In i (j :: rest) -> exists s, scored a i s).
      { intros i Hi. specialize (Hrem i Hi).
        destruct (nth_error songs_sorted i) as [c | ] eqn:Hc;
          [ | apply nth_error_None in Hc; lia].
        destruct (Hscore a c) as (s & t & Hs);
          [now apply nth_error_In with cur
          | now apply nth_error_In with i | ].
        exists s, c, t. now split. }
      destruct (extend_once_selects pre cur a (j :: rest) Ha
                  ltac:(discriminate) Hall)
        as (best & rest' & Hone & Hsel).
      cbn [extend]. rewrite Hone.
      pose proof Hsel as (before & after & sb & Hsplit & -> & _).
      destruct (IH (pre ++ [cur]) best (before ++ after))
        as (final & Hext & Hrun).
      * assert (Hl : List.length (j :: rest)
                     = S (List.length (before ++ after))).
        { rewrite Hsplit, !length_app. simpl. lia. }
        simpl in Hlen, Hl. lia.
      * apply Hrem. rewrite Hsplit. apply in_or_app. right. now left.
      * intros i Hi. apply Hrem. rewrite Hsplit.
        apply in_app_or in Hi. apply in_or_app.
        destruct Hi; [now left | right; now right].
      * exists final. split; [exact Hext | ].
        eapply greedy_next; try eassumption; [reflexivity | discriminate].
Qed.

(** A run of greedy steps permutes the indices it started with, and only
    appends to the path. *)
Lemma greedy_run_perm (path remaining final : list nat) :
  greedy_run path remaining final ->
  Permutation final (path ++ remaining) /\
  exists more, final = path ++ more.
Proof.
  induction 1 as [path | path pre cur a remaining best rest final
                          Hpath Ha Hne Hsel Hrun [IHp [more IHm]]].
  - rewrite app_nil_r. split; [apply Permutation_refl | ].
    exists []. now rewrite app_nil_r.
  - destruct Hsel as (before & after & sb & -> & -> & _).
    split.
    + eapply perm_trans; [exact IHp | ].
      rewrite <- app_assoc. apply Permutation_app_head.
      simpl. apply Permutation_middle.
    + exists (best :: more). rewrite IHm. now rewrite <- app_assoc.
Qed.

End GreedyFacts.

(* ================================================================== *)
(** ** The builders on inputs that satisfy the precondition *)

Lemma classify_decodable (k1 k2 : string) (p1 p2 : Z * ascii) :
  parse_camelot k1 = Ok p1 ->
  parse_camelot k2 = Ok p2 ->
  exists lbl, classify_mix_type (Some k1) (Some k2) = Ok lbl.
Proof.
  destruct p1 as [n1 l1], p2 as [n2 l2]. intros H1 H2.
  eexists. exact (classify_decoded _ _ _ _ _ _ H1 H2).
Qed.

Lemma usable_classified (a c : Song) :
  usable a -> usable c ->
  exists lbl, classify_mix_type (key a) (key c) = Ok lbl.
Proof.
  intros (_ & k1 & p1 & -> & H1) (_ & k2 & p2 & -> & H2).
  exact (classify_decodable _ _ _ _ H1 H2).
Qed.

Lemma usable_bpm_first_scored (a c : Song) :
  usable a -> usable c ->
  exists s t, BpmFirst.transition_score a c = Ok (s, t).
Proof.
  intros Ha Hc. destruct (usable_classified a c Ha Hc) as [lbl Hl].
  unfold BpmFirst.transition_score, BpmFirst.transition_score_w.
  rewrite Hl. simpl. eauto.
Qed.

Lemma usable_harmonics_first_scored (a c : Song) :
  usable a -> usable c ->
  exists s t, HarmonicsFirst.transition_score a c = Ok (s, t).
Proof.
  intros Ha Hc. destruct (usable_classified a c Ha Hc) as [lbl Hl].
  unfold HarmonicsFirst.transition_score,
    HarmonicsFirst.transition_score_w.
  rewrite Hl. simpl. eauto.
Qed.

Lemma usable_key_truthy (s : Song) : usable s -> key_truthy s = true.
Proof.
  intros (_ & k & p & Hk & Hp). unfold key_truthy. rewrite Hk.
  destruct (String.eqb_spec k "") as [-> | _]; [discriminate | reflexivity].
Qed.

Lemma usable_sort_key (s : Song) :
  usable s -> exists b, bpm s = Some b /\ bpm_sort_key s = Finite b.
Proof.
  intros (Hb & _). unfold bpm_sort_key.
  destruct (bpm s) as [b | ]; [now exists b | congruence].
Qed.

Lemma usable_sorted (songs : list Song) :
  Forall usable songs -> Forall usable (PyList.sorted bpm_sort_key songs).
Proof.
  intros H. eapply Permutation_Forall; [ | exact H].
  apply Permutation_sym, sorted_perm.
Qed.

(** Rebuilding a path that permutes all indices yields a permutation of
    the sorted list. *)
Lemma rebuild_perm (songs_sorted : list Song) (final : list nat) :
  Permutation final (seq 0 (List.length songs_sorted)) ->
  exists out,
    rebuild songs_sorted final = Ok out /\
    out = map (fun i => nth i songs_sorted (mkSong None None None None))
              final /\
    Permutation out songs_sorted.
Proof.
  intros Hp. eexists. split; [ | split; [reflexivity | ]].
  - unfold rebuild. apply comprehension_index.
    intros i Hi. apply (Permutation_in _ Hp) in Hi.
    apply in_seq in Hi. lia.
  - eapply perm_trans; [apply Permutation_map, Hp | ].
    rewrite map_nth_seq. apply Permutation_refl.
Qed.

Section FromFirst.

Variable transition_score : Song -> Song -> result (Q * string).
Variable songs_sorted : list Song.

Hypothesis all_scored :
  forall a c, In a songs_sorted -> In c songs_sorted ->
              exists s t, transition_score a c = Ok (s, t).
Hypothesis nonempty : songs_sorted <> [].

(** The loop entered with the first index as path and the other indices,
    in order, as pool. *)
Lemma extend_from_first :
  let pool := seq 1 (List.length songs_sorted - 1) in
  exists final out first rest,
    extend transition_score songs_sorted (List.length pool) [0%nat] pool
    = Some (Ok final) /\
    greedy_run transition_score songs_sorted [0%nat] pool final /\
    rebuild songs_sorted final = Ok out /\
    Permutation out songs_sorted /\
    songs_sorted = first :: rest /\
    exists tail, out = first :: tail.
Proof.
  intros pool. subst pool.
  destruct songs_sorted as [ | first rest] eqn:Hss; [congruence | ].
  rewrite <- Hss in *.
  assert (Hlen : List.length songs_sorted = S (List.length rest))
    by now rewrite Hss.
  set (pool := seq 1 (List.length songs_sorted - 1)).
  destruct (extend_greedy transition_score songs_sorted
              (List.length pool) all_scored [] 0%nat pool)
    as (final & Hext & Hrun).
  - apply Nat.le_refl.
  - lia.
  - intros j Hj. apply in_seq in Hj. lia.
  - destruct (greedy_run_perm _ _ _ _ _ Hrun) as [Hperm [more Hmore]].
    assert (Hall : Permutation final (seq 0 (List.length songs_sorted))).
    { eapply perm_trans; [exact Hperm | ].
      subst pool. rewrite Hlen. simpl. rewrite Nat.sub_0_r.
      apply Permutation_refl. }
    destruct (rebuild_perm songs_sorted final Hall)
      as (out & Hout & Hmap & Hpout).
    exists final, out, first, rest. repeat split; try assumption.
    rewrite Hmap, Hmore, Hss. simpl. eauto.
Qed.

End FromFirst.

Lemma bpm_first_unfold (songs : list Song) :
  songs <> [] ->
  let ss := PyList.sorted bpm_sort_key songs in
  let pool := seq 1 (List.length ss - 1) in
  BpmFirst.path_indices ss
  = extend BpmFirst.transition_score ss (List.length pool) [0%nat] pool /\
  BpmFirst.build_bpm_first_path songs
  = bind_fuel (BpmFirst.path_indices ss) (rebuild ss).
Proof.
  intros Hne ss pool. split.
  - unfold BpmFirst.path_indices. subst pool.
    pose proof (sorted_nonempty bpm_sort_key songs Hne) as Hss.
    fold ss in Hss. destruct ss as [ | h t]; [congruence | ].
    simpl. now rewrite Nat.sub_0_r.
  - destruct songs; [congruence | reflexivity].
Qed.

(** [find_start] walks the sorted list from its first index. *)
Lemma find_start_seq (l pre : list Song) :
  HarmonicsFirst.find_start (pre ++ l)
                            (seq (List.length pre) (List.length l))
  = Ok (first_keyed_from (List.length pre) l).
Proof.
  revert pre. induction l as [ | s r IH]; intros pre; simpl.
  - reflexivity.
  - rewrite (index_Some (pre ++ s :: r) (List.length pre) s).
    + simpl. destruct (key_truthy s); [reflexivity | ].
      specialize (IH (pre ++ [s])).
      rewrite <- app_assoc, length_app in IH. simpl in IH.
      now rewrite Nat.add_1_r in IH.
    + rewrite nth_error_app2 by apply Nat.le_refl.
      now rewrite Nat.sub_diag.
Qed.

Lemma first_keyed_none (l : list Song) (k : nat) :
  (forall s, In s l -> key_truthy s = false) ->
  first_keyed_from k l = None.
Proof.
  revert k. induction l as [ | s r IH]; intros k H; simpl.
  - reflexivity.
  - rewrite (H s (or_introl eq_refl)). apply IH.
    intros x Hx. apply H. now right.
Qed.

Lemma first_keyed_split (before after : list Song) (s : Song) (k : nat) :
  (forall x, In x before -> key_truthy x = false) ->
  key_truthy s = true ->
  first_keyed_from k (before ++ s :: after)
  = Some (k + List.length before)%nat.
Proof.
  revert k. induction before as [ | x r IH]; intros k Hb Hs; simpl.
  - rewrite Hs. now rewrite Nat.add_0_r.
  - rewrite (Hb x (or_introl eq_refl)).
    rewrite IH; [ | intros y Hy; apply Hb; now right | exact Hs].
    f_equal. lia.
Qed.

Lemma harmonics_first_unfold (songs : list Song) :
  songs <> [] ->
  let ss := PyList.sorted bpm_sort_key songs in
  HarmonicsFirst.build_harmonic_path songs
  = match first_keyed_from 0 ss with
    | None => Some (Ok ss)
    | Some start_idx =>
        bind_fuel (HarmonicsFirst.path_indices ss start_idx) (rebuild ss)
    end.
Proof.
  intros Hne ss. destruct songs as [ | s r]; [congruence | ].
  unfold HarmonicsFirst.build_harmonic_path. fold ss.
  pose proof (find_start_seq ss []) as Hfs. simpl in Hfs.
  rewrite Hfs. reflexivity.
Qed.

Lemma harmonics_first_from_first (ss : list Song) :
  let pool := seq 1 (List.length ss - 1) in
  ss <> [] ->
  HarmonicsFirst.path_indices ss 0
  = extend HarmonicsFirst.transition_score ss (List.length pool)
           [0%nat] pool.
Proof.
  intros pool Hne. unfold HarmonicsFirst.path_indices. subst pool.
  destruct ss as [ | h t]; [congruence | ].
  simpl. now rewrite Nat.sub_0_r.
Qed.

(** Neither builder runs out of fuel. *)
Lemma bpm_first_total (songs : list Song) :
  BpmFirst.build_bpm_first_path songs <> None.
Proof.
  destruct songs as [ | s r]; [discriminate | ].
  unfold BpmFirst.build_bpm_first_path, BpmFirst.path_indices.
  destruct (seq 0 (List.length (PyList.sorted bpm_sort_key (s :: r))))
    as [ | i pool]; [discriminate | ].
  pose proof (extend_fuel BpmFirst.transition_score
                (PyList.sorted bpm_sort_key (s :: r))
                (List.length pool) [i] pool (Nat.le_refl _)) as H.
  destruct (extend _ _ _ _ _); [discriminate | congruence].
Qed.

Lemma harmonics_first_total (songs : list Song) :
  HarmonicsFirst.build_harmonic_path songs <> None.
Proof.
  destruct songs as [ | s r]; [discriminate | ].
  unfold HarmonicsFirst.build_harmonic_path.
  destruct (HarmonicsFirst.find_start _ _) as [[start | ] | e];
    try discriminate.
  unfold HarmonicsFirst.path_indices.
  destruct (PyList.remove start _) as [pool | e]; [ | discriminate].
  pose proof (extend_fuel HarmonicsFirst.transition_score
                (PyList.sorted bpm_sort_key (s :: r))
                (List.length pool) [start] pool (Nat.le_refl _)) as H.
  destruct (extend _ _ _ _ _); [discriminate | congruence].
Qed.

Lemma bpm_first_run (songs : list Song) :
  songs <> [] ->
  Forall usable songs ->
  let ss := PyList.sorted bpm_sort_key songs in
  let pool := seq 1 (List.length ss - 1) in
  exists final out first rest,
    BpmFirst.path_indices ss = Some (Ok final) /\
    greedy_run BpmFirst.transition_score ss [0%nat] pool final /\
    rebuild ss final = Ok out /\
    BpmFirst.build_bpm_first_path songs = Some (Ok out) /\
    Permutation out ss /\
    ss = first :: rest /\
    exists tail, out = first :: tail.
Proof.
  intros Hne Hus ss pool. subst pool.
  pose proof (usable_sorted songs Hus) as Hss. fold ss in Hss.
  rewrite Forall_forall in Hss.
  destruct (extend_from_first BpmFirst.transition_score ss)
    as (final & out & first & rest & Hext & Hrun & Hout & Hperm & Hsplit
        & Htail).
  - intros a c Ha Hc. apply usable_bpm_first_scored; now apply Hss.
  - now apply sorted_nonempty.
  - destruct (bpm_first_unfold songs Hne) as [Hpath Hbuild].
    fold ss in Hpath, Hbuild.
    exists final, out, first, rest. repeat split; try assumption.
    + now rewrite Hpath.
    + rewrite Hbuild, Hpath, Hext. simpl. now rewrite Hout.
Qed.

Lemma harmonics_first_run (songs : list Song) :
  songs <> [] ->
  Forall usable songs ->
  let ss := PyList.sorted bpm_sort_key songs in
  let pool := seq 1 (List.length ss - 1) in
  exists final out first rest,
    HarmonicsFirst.path_indices ss 0 = Some (Ok final) /\
    greedy_run HarmonicsFirst.transition_score ss [0%nat] pool final /\
    rebuild ss final = Ok out /\
    HarmonicsFirst.build_harmonic_path songs = Some (Ok out) /\
    Permutation out ss /\
    ss = first :: rest /\
    exists tail, out = first :: tail.
Proof.
  intros Hne Hus ss pool. subst pool.
  pose proof (usable_sorted songs Hus) as Hss. fold ss in Hss.
  rewrite Forall_forall in Hss.
  pose proof (sorted_nonempty bpm_sort_key songs Hne) as Hnss.
  fold ss in Hnss.
  destruct (extend_from_first HarmonicsFirst.transition_score ss)
    as (final & out & first & rest & Hext & Hrun & Hout & Hperm & Hsplit
        & Htail).
  - intros a c Ha Hc. apply usable_harmonics_first_scored; now apply Hss.
  - exact Hnss.
  - pose proof (harmonics_first_unfold songs Hne) as Hbuild.
    pose proof (harmonics_first_from_first ss Hnss) as Hpath.
    cbv zeta in Hbuild, Hpath. fold ss in Hbuild.
    assert (Hstart : first_keyed_from 0 ss = Some 0%nat).
    { rewrite Hsplit. simpl. rewrite usable_key_truthy; [reflexivity | ].
      apply Hss. rewrite Hsplit. now left. }
    rewrite Hstart in Hbuild.
    exists final, out, first, rest. repeat split; try assumption.
    + now rewrite Hpath.
    + rewrite Hbuild, Hpath, Hext. simpl. now rewrite Hout.
Qed.

Lemma example_tracks_usable : Forall usable example_tracks.
Proof.
  repeat constructor; try discriminate;
    eexists; eexists; (split; [reflexivity | reflexivity]).
Defined.

(* ================================================================== *)
(** ** The claims about the path builders *)

(** C3. On an input in which every record has a BPM and a key that decodes,
    each builder (BPM-first and harmonic-first) returns a permutation of
    its input: the same records with the same multiplicities, hence the
    same length. *)
Theorem builders_permute (songs : list Song) :
  Forall usable songs ->
  (exists out,
      BpmFirst.build_bpm_first_path songs = Some (Ok out) /\
      Permutation songs out /\
      List.length out = List.length songs) /\
  (exists out,
      HarmonicsFirst.build_harmonic_path songs = Some (Ok out) /\
      Permutation songs out /\
      List.length out = List.length songs).
Proof.
  intros Hus. destruct songs as [ | s r] eqn:Hsongs.
  - split; exists []; repeat split; constructor.
  - rewrite <- Hsongs in *.
    assert (Hne : songs <> []) by (rewrite Hsongs; discriminate).
    assert (Hfin : forall out,
               Permutation out (PyList.sorted bpm_sort_key songs) ->
               Permutation songs out /\
               List.length out = List.length songs).
    { intros out Hp.
      assert (Hps : Permutation songs out).
      { apply Permutation_sym. eapply perm_trans; [exact Hp | ].
        apply sorted_perm. }
      split; [exact Hps | ]. symmetry. now apply Permutation_length. }
    split.
    + destruct (bpm_first_run songs Hne Hus)
        as (final & out & first & rest & _ & _ & _ & Hb & Hp & _).
      exists out. split; [exact Hb | now apply Hfin].
    + destruct (harmonics_first_run songs Hne Hus)
        as (final & out & first & rest & _ & _ & _ & Hb & Hp & _).
      exists out. split; [exact Hb | now apply Hfin].
Qed.

Lemma builders_permute_witness :
  Forall usable example_tracks /\
  exists out,
    BpmFirst.build_bpm_first_path example_tracks = Some (Ok out) /\
    Permutation example_tracks out /\
    List.length out = List.length example_tracks.
Proof.
  split; [exact example_tracks_usable | ].
  exact (proj1 (builders_permute example_tracks example_tracks_usable)).
Defined.

(** The sorted list is in BPM order, whatever the input. *)
Lemma sorted_bpm_le (songs : list Song) :
  StronglySorted bpm_le (PyList.sorted bpm_sort_key songs).
Proof.
  pose proof (sorted_ascending bpm_sort_key songs) as H.
  induction H as [ | a r Hr IH Ha]; constructor; [exact IH | ].
  rewrite Forall_forall in *. intros c Hc. specialize (Ha c Hc).
  unfold bpm_le, bpm_sort_key in *.
  destruct (bpm a) as [x | ], (bpm c) as [y | ]; cbn [xlt] in Ha;
    try exact I; [ | discriminate].
  now apply Qltb_ge.
Qed.

(** Two records of one tempo are never exchanged by an insertion. *)
Lemma has_bpm_key (t : option Q) (x y : Song) :
  has_bpm t x = true -> has_bpm t y = true ->
  xlt (bpm_sort_key y) (bpm_sort_key x) = false.
Proof.
  unfold has_bpm, bpm_sort_key.
  destruct t as [q | ], (bpm x) as [a | ], (bpm y) as [b | ];
    try discriminate; cbn [xlt]; [ | reflexivity].
  intros Ha Hb. apply Qeq_bool_iff in Ha, Hb. apply Qltb_ge.
  rewrite <- Ha, <- Hb. apply Qle_refl.
Qed.

Lemma insert_filter (t : option Q) (x : Song) (l : list Song) :
  filter (has_bpm t) (PyList.insert bpm_sort_key x l)
  = filter (has_bpm t) (x :: l).
Proof.
  induction l as [ | y r IH]; [reflexivity | ].
  cbn [PyList.insert].
  destruct (xlt (bpm_sort_key y) (bpm_sort_key x)) eqn:Hlt;
    [ | reflexivity].
  cbn [filter] in *. rewrite IH.
  destruct (has_bpm t x) eqn:Hx, (has_bpm t y) eqn:Hy; try reflexivity.
  rewrite (has_bpm_key t x y Hx Hy) in Hlt. discriminate.
Qed.

(** The sort is stable: the records of one tempo keep their order. *)
Lemma sorted_stable (t : option Q) (songs : list Song) :
  filter (has_bpm t) (PyList.sorted bpm_sort_key songs)
  = filter (has_bpm t) songs.
Proof.
  induction songs as [ | x r IH]; [reflexivity | ].
  cbn [PyList.sorted fold_right].
  change (fold_right (PyList.insert bpm_sort_key) [] r)
    with (PyList.sorted bpm_sort_key r).
  rewrite insert_filter. cbn [filter]. now rewrite IH.
Qed.

(** C9. The BPM-sorted list the harmonic-first builder works on holds the
    records of the input, in BPM order (a tempo never before a smaller
    one, the records without a tempo last), the records of one tempo in
    their input order.  The builder never runs out of steps; when no
    record has a key it returns that sorted list as it is; otherwise it
    enters its loop with the first record of the sorted list that has a
    key, and every path it returns starts with that record. *)
Theorem harmonic_start (songs : list Song) :
  let ss := PyList.sorted bpm_sort_key songs in
  Permutation songs ss /\
  StronglySorted bpm_le ss /\
  (forall t, filter (has_bpm t) ss = filter (has_bpm t) songs) /\
  HarmonicsFirst.build_harmonic_path songs <> None /\
  ((forall s, In s songs -> key_truthy s = false) ->
   HarmonicsFirst.build_harmonic_path songs = Some (Ok ss)) /\
  (forall before s after,
      ss = before ++ s :: after ->
      (forall x, In x before -> key_truthy x = false) ->
      key_truthy s = true ->
      HarmonicsFirst.build_harmonic_path songs
      = bind_fuel (HarmonicsFirst.path_indices ss (List.length before))
                  (rebuild ss) /\
      forall out,
        HarmonicsFirst.build_harmonic_path songs = Some (Ok out) ->
        exists rest, out = s :: rest).
Proof.
  intros ss.
  split; [apply Permutation_sym, sorted_perm | ].
  split; [apply sorted_bpm_le | ].
  split; [intros t; apply sorted_stable | ].
  split; [apply harmonics_first_total | split].
  - intros Hnone. subst ss.
    destruct songs as [ | s0 r] eqn:Hsongs; [reflexivity | ].
    rewrite <- Hsongs in *.
    assert (Hne : songs <> []) by (rewrite Hsongs; discriminate).
    rewrite (harmonics_first_unfold songs Hne). cbv zeta.
    rewrite first_keyed_none; [reflexivity | ].
    intros x Hx. apply Hnone.
    apply Permutation_in with (l := PyList.sorted bpm_sort_key songs);
      [apply sorted_perm | exact Hx].
  - intros before s after Hsplit Hbefore Hs.
    assert (Hne : songs <> []).
    { intros ->. destruct before; discriminate. }
    pose proof (harmonics_first_unfold songs Hne) as Hbuild.
    cbv zeta in Hbuild. fold ss in Hbuild.
    rewrite Hsplit in Hbuild at 1.
    rewrite (first_keyed_split before after s 0 Hbefore Hs) in Hbuild.
    simpl in Hbuild. split; [exact Hbuild | ].
    intros out Hout. rewrite Hbuild in Hout.
    unfold HarmonicsFirst.path_indices in Hout.
    destruct (PyList.remove (List.length before) _) as [poolr | e];
      [ | discriminate].
    destruct (extend HarmonicsFirst.transition_score ss
                (List.length poolr) [List.length before] poolr)
      as [[final | e] | ] eqn:Hext; try discriminate.
    apply extend_prefix in Hext. destruct Hext as [more ->].
    simpl in Hout. injection Hout as Hout.
    apply comprehension_head in Hout.
    destruct Hout as (b & bs & Hidx & ->).
    apply index_inv in Hidx. rewrite Hsplit in Hidx.
    rewrite nth_error_app2 in Hidx by apply Nat.le_refl.
    rewrite Nat.sub_diag in Hidx. injection Hidx as <-. now exists bs.
Qed.

Lemma harmonic_start_witness :
  (exists rest,
      [track 128 "8A"; mkSong None None (Some 120%Q) None]
      = track 128 "8A" :: rest) /\
  PyList.sorted bpm_sort_key
    [track 130 "9A"; mkSong None None None None; track 126 "8B";
     mkSong None None (Some 126%Q) None]
  = [track 126 "8B"; mkSong None None (Some 126%Q) None; track 130 "9A";
     mkSong None None None None].
Proof.
  split; [ | reflexivity].
  refine (proj2 (proj2 (proj2 (proj2 (proj2 (proj2
                   (harmonic_start example_keyless)))))
                   [mkSong None None (Some 120%Q) None]
                   (track 128 "8A") [] eq_refl _ eq_refl)
                [track 128 "8A"; mkSong None None (Some 120%Q) None]
                eq_refl).
  intros x [<- | []]. reflexivity.
Defined.

(** The end-to-end example: BPM-first starts at the 126/8B record, then
    takes 128/8A (score 5.0, against 2.4 for 130/9A), then 130/9A. *)
Lemma bpm_first_example :
  BpmFirst.build_bpm_first_path example_tracks
  = Some (Ok [track 126 "8B"; track 128 "8A"; track 130 "9A"]).
Proof. reflexivity. Qed.

(* ================================================================== *)
(** ** Further properties of the key model and of the rules *)

(** X1. Circular increments add up: stepping by [s] then by [t] is
    stepping by [s + t], from any integer; a step of 12 changes nothing;
    a step of 0 leaves exactly the positions 1 to 12 where they are. *)
Theorem camelot_increment_compose :
  (forall p s t,
      camelot_increment (camelot_increment p s) t
      = camelot_increment p (s + t)) /\
  (forall p s, camelot_increment p (s + 12) = camelot_increment p s) /\
  (forall p, camelot_increment p 0 = p <-> 1 <= p <= 12).
Proof.
  split; [ | split].
  - intros p s t. ring12.
  - intros p s. ring12.
  - intros p. split; intros H; ring12.
Qed.

Lemma rule_results_decoded (k1 k2 : string) (n1 n2 : Z) (l1 l2 : ascii) :
  parse_camelot k1 = Ok (n1, l1) ->
  parse_camelot k2 = Ok (n2, l2) ->
  rule_results k1 k2 =
  [ Ok (String.eqb k1 k2);
    Ok (Ascii.eqb l1 l2 && (n2 =? camelot_increment n1 1));
    Ok (Ascii.eqb l1 l2 && (n2 =? camelot_increment n1 (-1)));
    Ok (Ascii.eqb l1 l2 && (n2 =? camelot_increment n1 2));
    Ok ((n1 =? n2) && negb (Ascii.eqb l1 l2));
    Ok (negb (Ascii.eqb l1 l2) && (n2 =? camelot_increment n1 (-1)));
    Ok ((n2 =? camelot_increment n1 3) && negb (Ascii.eqb l1 l2));
    Ok ((n2 =? camelot_increment n1 (-5)) && Ascii.eqb l1 l2) ].
Proof.
  intros H1 H2.
  unfold rule_results, is_perfect_mix, is_plus1_mix, is_minus1_mix,
    is_energy_boost, is_scale_change, is_diagonal_mix, is_mood_shifter,
    is_jaws_mix.
  rewrite H1, H2. reflexivity.
Qed.

Lemma rule_results_undecoded (k1 k2 : string) (e : exn) :
  parse_camelot k1 = Raise e \/ parse_camelot k2 = Raise e ->
  exists e1 e2 e3 e4 e5 e6 e7,
    rule_results k1 k2 =
    [ Ok (String.eqb k1 k2); Raise e1; Raise e2; Raise e3; Raise e4;
      Raise e5; Raise e6; Raise e7 ].
Proof.
  intros H.
  unfold rule_results, is_perfect_mix, is_plus1_mix, is_minus1_mix,
    is_energy_boost, is_scale_change, is_diagonal_mix, is_mood_shifter,
    is_jaws_mix.
  destruct (parse_camelot k1) as [[n1 l1] | e1]; cbn [bind].
  - destruct H as [H | H]; [discriminate | ]. rewrite H. cbn [bind].
    repeat eexists.
  - repeat eexists.
Qed.

(** For any two key strings at most one of the eight rule predicates
    returns [True]. *)
Lemma rules_exclusive (k1 k2 : string) :
  (List.length (filter holds (rule_results k1 k2)) <= 1)%nat.
Proof.
  destruct (parse_camelot k1) as [[n1 l1] | e1] eqn:H1.
  - destruct (parse_camelot k2) as [[n2 l2] | e2] eqn:H2.
    + rewrite (rule_results_decoded _ _ _ _ _ _ H1 H2).
      destruct (String.eqb_spec k1 k2) as [Heq | _].
      * subst k2. rewrite H1 in H2. injection H2 as <- <-.
        rewrite Ascii.eqb_refl, Z.eqb_refl. cbn [andb negb].
        repeat match goal with
               | |- context [?a =? ?b] =>
                   destruct (Z.eqb_spec a b); [ring12 | ]
               end.
        simpl. lia.
      * destruct (Ascii.eqb l1 l2); cbn [andb negb];
          rewrite ?andb_false_r, ?andb_true_r;
          repeat match goal with
                 | |- context [?a =? ?b] => destruct (Z.eqb_spec a b)
                 end;
          simpl; try lia; ring12.
    + destruct (rule_results_undecoded k1 k2 e2 (or_intror H2))
        as (? & ? & ? & ? & ? & ? & ? & ->).
      simpl. destruct (String.eqb k1 k2); simpl; lia.
  - destruct (rule_results_undecoded k1 k2 e1 (or_introl H1))
      as (? & ? & ? & ? & ? & ? & ? & ->).
    simpl. destruct (String.eqb k1 k2); simpl; lia.
Qed.

(** [classify_mix_type] is the chain over [rule_table]. *)
Lemma classify_first_hit (k1 k2 : string) :
  classify_mix_type (Some k1) (Some k2) = first_hit (rule_table k1 k2).
Proof. reflexivity. Qed.

Lemma rule_table_results (k1 k2 : string) :
  map fst (rule_table k1 k2) = rule_results k1 k2.
Proof. reflexivity. Qed.

(** A chain none of whose predicates raises returns the label of a
    predicate that holds, or non-harmonic when there is none. *)
Lemma first_hit_found (rs : list (result bool * string)) :
  (forall r l, In (r, l) rs -> exists b, r = Ok b) ->
  exists L, first_hit rs = Ok L /\
            (In (Ok true, L) rs \/
             (L = "non-harmonic" /\ forall l, ~ In (Ok true, l) rs)).
Proof.
  induction rs as [| [r l] rest IH]; intros Hok.
  - exists "non-harmonic". split; [reflexivity | ]. right. now split.
  - destruct (Hok r l (or_introl eq_refl)) as [b ->]. cbn [first_hit bind].
    destruct b.
    + exists l. split; [reflexivity | ]. left. now left.
    + destruct IH as (L & HL & Hcase).
      { intros r' l' Hin. apply (Hok r' l'). now right. }
      exists L. split; [exact HL | ].
      destruct Hcase as [Hin | [-> Hnone]].
      * left. now right.
      * right. split; [reflexivity | ].
        intros l' [E | Hin]; [discriminate | ]. exact (Hnone l' Hin).
Qed.

(** With at most one predicate that holds, all the entries that hold
    carry one label. *)
Lemma holds_unique (rs : list (result bool * string)) :
  (List.length (filter holds (map fst rs)) <= 1)%nat ->
  forall l l', In (Ok true, l) rs -> In (Ok true, l') rs -> l = l'.
Proof.
  assert (Hzero : forall (qs : list (result bool * string)) l,
             List.length (filter holds (map fst qs)) = 0%nat ->
             ~ In (Ok true, l) qs).
  { induction qs as [| [r x] rest IH]; intros l Hc Hin; [easy | ].
    cbn [map fst filter] in Hc.
    destruct Hin as [E | Hin].
    - injection E as -> ->. discriminate Hc.
    - destruct (holds r); [discriminate Hc | ]. exact (IH l Hc Hin). }
  induction rs as [| [r x] rest IH]; intros Hc l l' Hl Hl'; [easy | ].
  cbn [map fst filter] in Hc.
  destruct (holds r) eqn:Hr.
  - cbn [List.length] in Hc.
    assert (Hc0 : List.length (filter holds (map fst rest)) = 0%nat) by lia.
    destruct Hl as [E | Hl]; [ | now apply Hzero in Hl].
    destruct Hl' as [E' | Hl']; [ | now apply Hzero in Hl'].
    congruence.
  - destruct Hl as [E | Hl];
      [injection E as -> ->; discriminate Hr | ].
    destruct Hl' as [E' | Hl'];
      [injection E' as -> ->; discriminate Hr | ].
    exact (IH Hc l l' Hl Hl').
Qed.

(** Predicates that never raise and of which at most one holds can be
    tried in any order. *)
Lemma first_hit_perm (rs ts : list (result bool * string)) :
  Permutation rs ts ->
  (forall r l, In (r, l) ts -> exists b, r = Ok b) ->
  (List.length (filter holds (map fst ts)) <= 1)%nat ->
  first_hit rs = first_hit ts.
Proof.
  intros Hp Hok Hc.
  destruct (first_hit_found ts Hok) as (L & -> & Hcase).
  destruct (first_hit_found rs) as (L' & -> & Hcase').
  { intros r l Hin. apply (Hok r l).
    exact (Permutation_in _ Hp Hin). }
  f_equal.
  destruct Hcase' as [Hin' | [-> Hnone']].
  - apply (Permutation_in _ Hp) in Hin'.
    destruct Hcase as [Hin | [-> Hnone]].
    + exact (holds_unique ts Hc _ _ Hin' Hin).
    + now apply Hnone in Hin'.
  - destruct Hcase as [Hin | [-> _]]; [ | reflexivity].
    apply (Permutation_in _ (Permutation_sym Hp)) in Hin.
    now apply Hnone' in Hin.
Qed.

(** X2. [classify_mix_type] on two present keys is the chain of the eight
    rule predicates in the order of [rule_table].  At most one of the eight
    returns [True], whatever the keys.  When both keys decode no predicate
    raises, and trying the eight predicates in any other order returns the
    same label.  When a key does not decode the order does decide: on the
    pair XX, XX the written order returns perfect mix, the reverse order
    raises [ValueError]. *)
Theorem rules_order_irrelevant :
  (forall k1 k2,
      classify_mix_type (Some k1) (Some k2) = first_hit (rule_table k1 k2) /\
      (List.length (filter holds (rule_results k1 k2)) <= 1)%nat) /\
  (forall k1 k2 p1 p2 rs,
      parse_camelot k1 = Ok p1 ->
      parse_camelot k2 = Ok p2 ->
      Permutation rs (rule_table k1 k2) ->
      first_hit rs = classify_mix_type (Some k1) (Some k2)) /\
  first_hit (rule_table "XX" "XX") = Ok "perfect mix" /\
  first_hit (rev (rule_table "XX" "XX")) = Raise ValueError.
Proof.
  split; [ | split; [ | split; reflexivity]].
  - intros k1 k2. split; [reflexivity | apply rules_exclusive].
  - intros k1 k2 [n1 l1] [n2 l2] rs H1 H2 Hp.
    rewrite classify_first_hit. apply (first_hit_perm _ _ Hp).
    + intros r l Hin. apply (in_map fst) in Hin.
      rewrite rule_table_results,
        (rule_results_decoded _ _ _ _ _ _ H1 H2) in Hin.
      cbn [fst] in Hin. simpl in Hin.
      repeat (destruct Hin as [<- | Hin]; [eauto | ]). easy.
    + rewrite rule_table_results. apply rules_exclusive.
Qed.

Lemma rules_order_irrelevant_witness :
  parse_camelot "9A" = Ok (9, "A"%char) /\
  parse_camelot "8B" = Ok (8, "B"%char) /\
  Permutation (rev (rule_table "9A" "8B")) (rule_table "9A" "8B") /\
  first_hit (rev (rule_table "9A" "8B")) =
  classify_mix_type (Some "9A") (Some "8B") /\
  classify_mix_type (Some "9A") (Some "8B") = Ok "diagonal mix".
Proof.
  split; [reflexivity | split; [reflexivity | ]].
  assert (Hp : Permutation (rev (rule_table "9A" "8B"))
                 (rule_table "9A" "8B"))
    by (apply Permutation_sym, Permutation_rev).
  split; [exact Hp | split; [ | reflexivity]].
  exact (proj1 (proj2 rules_order_irrelevant)
           "9A" "8B" _ _ _ eq_refl eq_refl Hp).
Defined.

(** The classifier on two keys that decode, as one chain of tests. *)
Lemma classify_chain (k1 k2 : string) (n1 n2 : Z) (l1 l2 : ascii) :
  parse_camelot k1 = Ok (n1, l1) ->
  parse_camelot k2 = Ok (n2, l2) ->
  classify_mix_type (Some k1) (Some k2) =
  Ok (if String.eqb k1 k2 then "perfect mix"
      else if Ascii.eqb l1 l2 && (n2 =? camelot_increment n1 1)
      then "+1 mix"
      else if Ascii.eqb l1 l2 && (n2 =? camelot_increment n1 (-1))
      then "-1 mix"
      else if Ascii.eqb l1 l2 && (n2 =? camelot_increment n1 2)
      then "energy boost"
      else if (n1 =? n2) && negb (Ascii.eqb l1 l2)
      then "scale change"
      else if negb (Ascii.eqb l1 l2) && (n2 =? camelot_increment n1 (-1))
      then "diagonal mix"
      else if (n2 =? camelot_increment n1 3) && negb (Ascii.eqb l1 l2)
      then "mood shifter"
      else if (n2 =? camelot_increment n1 (-5)) && Ascii.eqb l1 l2
      then "jaws mix"
      else "non-harmonic").
Proof.
  intros H1 H2.
  unfold classify_mix_type, is_perfect_mix, is_plus1_mix, is_minus1_mix,
    is_energy_boost, is_scale_change, is_diagonal_mix, is_mood_shifter,
    is_jaws_mix.
  rewrite H1, H2. cbn [bind].
  repeat match goal with
         | |- context [if ?c then _ else _] => destruct c
         end; reflexivity.
Qed.

(** Resolve the chains of tests of a hypothesis, then of the goal, from
    the outermost test inwards. *)
Ltac resolve_chain :=
  repeat match goal with
         | H : Ok (if (?a =? ?b) then _ else _) = _ |- _ =>
             destruct (Z.eqb_spec a b); try discriminate H
         end;
  repeat match goal with
         | |- Ok (if (?a =? ?b) then _ else _) = _ =>
             destruct (Z.eqb_spec a b)
         end;
  try discriminate; try reflexivity; try ring12.

Ltac enter_chain H1 H2 :=
  rewrite (classify_chain _ _ _ _ _ _ H1 H2),
          (classify_chain _ _ _ _ _ _ H2 H1);
  rewrite (String.eqb_sym _ _);
  match goal with
  | |- context [String.eqb ?a ?b] => destruct (String.eqb a b)
  end;
  try match goal with
      | |- context [Ascii.eqb ?a ?b] =>
          rewrite (Ascii.eqb_sym b a); destruct (Ascii.eqb a b)
      end;
  cbn [andb negb]; rewrite ?andb_true_r, ?andb_false_r.

(** X3. Reversing a transition between two keys that decode: a perfect mix
    and a scale change stay what they are; with the first position in
    [1,12] a +1 mix becomes a -1 mix and a -1 mix a +1 mix; an energy
    boost, a diagonal mix, a mood shifter or a jaws mix becomes
    non-harmonic. *)
Theorem classify_reversed (k1 k2 : string) (n1 n2 : Z) (l1 l2 : ascii) :
  parse_camelot k1 = Ok (n1, l1) ->
  parse_camelot k2 = Ok (n2, l2) ->
  (classify_mix_type (Some k1) (Some k2) = Ok "perfect mix" ->
   classify_mix_type (Some k2) (Some k1) = Ok "perfect mix") /\
  (classify_mix_type (Some k1) (Some k2) = Ok "scale change" ->
   classify_mix_type (Some k2) (Some k1) = Ok "scale change") /\
  (1 <= n1 <= 12 ->
   classify_mix_type (Some k1) (Some k2) = Ok "+1 mix" ->
   classify_mix_type (Some k2) (Some k1) = Ok "-1 mix") /\
  (1 <= n1 <= 12 ->
   classify_mix_type (Some k1) (Some k2) = Ok "-1 mix" ->
   classify_mix_type (Some k2) (Some k1) = Ok "+1 mix") /\
  (classify_mix_type (Some k1) (Some k2) = Ok "energy boost" \/
   classify_mix_type (Some k1) (Some k2) = Ok "diagonal mix" \/
   classify_mix_type (Some k1) (Some k2) = Ok "mood shifter" \/
   classify_mix_type (Some k1) (Some k2) = Ok "jaws mix" ->
   classify_mix_type (Some k2) (Some k1) = Ok "non-harmonic").
Proof.
  intros H1 H2. repeat split.
  - enter_chain H1 H2; intros H; resolve_chain.
  - enter_chain H1 H2; intros H; resolve_chain.
  - intros Hr. enter_chain H1 H2; intros H; resolve_chain.
  - intros Hr. enter_chain H1 H2; intros H; resolve_chain.
  - enter_chain H1 H2; intros [H | [H | [H | H]]]; resolve_chain.
Qed.

Lemma classify_reversed_witness :
  classify_mix_type (Some "12A") (Some "1A") = Ok "+1 mix" /\
  classify_mix_type (Some "1A") (Some "12A") = Ok "-1 mix" /\
  classify_mix_type (Some "9A") (Some "8B") = Ok "diagonal mix" /\
  classify_mix_type (Some "8B") (Some "9A") = Ok "non-harmonic".
Proof.
  split; [reflexivity | split; [ | split; [reflexivity | ]]].
  - apply (proj1 (proj2 (proj2
             (classify_reversed "12A" "1A" 12 1 "A" "A" eq_refl eq_refl))));
      [lia | reflexivity].
  - apply (proj2 (proj2 (proj2 (proj2
             (classify_reversed "9A" "8B" 9 8 "A" "B" eq_refl eq_refl))))).
    right. left. reflexivity.
Defined.

(** X4. Every label [classify_mix_type] returns is a key of the score
    table of both mixers, and the two tables are the same: the default of
    [MIX_SCORES.get(mix_type, 0.0)] is never used. *)
Theorem classify_label_in_tables (k1 k2 : option string) (lbl : string) :
  classify_mix_type k1 k2 = Ok lbl ->
  In lbl (map fst BpmFirst.MIX_SCORES) /\
  In lbl (map fst HarmonicsFirst.MIX_SCORES) /\
  (forall d d',
      dict_get BpmFirst.MIX_SCORES lbl d
      = dict_get HarmonicsFirst.MIX_SCORES lbl d').
Proof.
  intros H. destruct (classify_label _ _ _ H) as [m ->].
  repeat split; destruct m; simpl; tauto.
Qed.

Lemma classify_label_in_tables_witness :
  In "jaws mix" (map fst BpmFirst.MIX_SCORES) /\
  In "jaws mix" (map fst HarmonicsFirst.MIX_SCORES) /\
  (forall d d',
      dict_get BpmFirst.MIX_SCORES "jaws mix" d
      = dict_get HarmonicsFirst.MIX_SCORES "jaws mix" d').
Proof.
  exact (classify_label_in_tables (Some "1A") (Some "8A") "jaws mix"
                                  eq_refl).
Defined.

(** X5. A second key whose number lies outside [1,12] is never reached by
    an increment rule: the transition to it is a perfect mix (same
    string), a scale change (same number, other letter) or
    non-harmonic. *)
Theorem classify_target_out_of_range
        (k1 k2 : string) (n1 n2 : Z) (l1 l2 : ascii) :
  parse_camelot k1 = Ok (n1, l1) ->
  parse_camelot k2 = Ok (n2, l2) ->
  ~ 1 <= n2 <= 12 ->
  classify_mix_type (Some k1) (Some k2) = Ok "perfect mix" \/
  classify_mix_type (Some k1) (Some k2) = Ok "scale change" \/
  classify_mix_type (Some k1) (Some k2) = Ok "non-harmonic".
Proof.
  intros H1 H2 Hout.
  rewrite (classify_chain _ _ _ _ _ _ H1 H2).
  pose proof (camelot_increment_range n1 1).
  pose proof (camelot_increment_range n1 (-1)).
  pose proof (camelot_increment_range n1 2).
  pose proof (camelot_increment_range n1 3).
  pose proof (camelot_increment_range n1 (-5)).
  destruct (String.eqb k1 k2); [now left | ].
  repeat match goal with
         | |- context [n2 =? camelot_increment n1 ?s] =>
             destruct (Z.eqb_spec n2 (camelot_increment n1 s)); [lia | ]
         end.
  rewrite !andb_false_r. cbn [andb].
  destruct ((n1 =? n2) && negb (Ascii.eqb l1 l2)); tauto.
Qed.

Lemma classify_target_out_of_range_witness :
  classify_mix_type (Some "12A") (Some "13A") = Ok "perfect mix" \/
  classify_mix_type (Some "12A") (Some "13A") = Ok "scale change" \/
  classify_mix_type (Some "12A") (Some "13A") = Ok "non-harmonic".
Proof.
  apply (classify_target_out_of_range "12A" "13A" 12 13 "A" "A"
           eq_refl eq_refl).
  lia.
Defined.

(* ================================================================== *)
(** ** Further properties of the scores *)

Section ScoreBounds.

Local Open Scope Q_scope.

Lemma table_range (m : Spec.MixType) : 0 <= Spec.table m <= 5.
Proof. destruct m; simpl; lra. Qed.

Lemma bpm_score_range (x y : option Q) : 0 <= Spec.bpm_score x y <= 10.
Proof.
  destruct x as [x | ], y as [y | ]; simpl; try lra.
  pose proof (Qabs_nonneg (y - x)).
  destruct (bpm_score_cases x y) as [[H1 E1] | [H1 E1]];
    unfold Spec.bpm_score in E1; rewrite E1; lra.
Qed.

Lemma label_perfect (m : Spec.MixType) :
  Spec.table m == 5 <-> Spec.label m = "perfect mix".
Proof.
  destruct m; simpl; split; intros H; try reflexivity; try discriminate;
    try lra.
Qed.

(** X6. A BPM-first score lies between 0 and 7, and it is 7 exactly for a
    perfect mix between two tracks of equal BPM. *)
Theorem bpm_first_score_bounds (a b : Song) (s : Q) (lbl : string) :
  BpmFirst.transition_score a b = Ok (s, lbl) ->
  0 <= s <= 7 /\
  (s == 7 <->
   lbl = "perfect mix" /\
   exists x y, bpm a = Some x /\ bpm b = Some y /\ x == y).
Proof.
  intros Ht. destruct (bpm_first_score_inv _ _ _ _ Ht) as [Hc ->].
  destruct (classify_label _ _ _ Hc) as [m ->].
  rewrite bpm_first_table, bpm_score_code.
  pose proof (table_range m) as Hm.
  pose proof (bpm_score_range (bpm a) (bpm b)) as Hb.
  split; [lra | ]. split.
  - intros H7.
    assert (Ht5 : Spec.table m == 5) by lra.
    assert (Hb10 : Spec.bpm_score (bpm a) (bpm b) == 10) by lra.
    split; [now apply label_perfect | ].
    destruct (bpm a) as [x | ], (bpm b) as [y | ];
      try (simpl in Hb10; lra).
    exists x, y. repeat split.
    pose proof (Qabs_nonneg (y - x)) as Hn.
    destruct (bpm_score_cases x y) as [[H1 E1] | [H1 E1]];
      rewrite E1 in Hb10; [ | lra].
    assert (Hz : Qabs (y - x) <= 0) by lra.
    apply Qabs_Qle_condition in Hz. lra.
  - intros [Hl (x & y & -> & -> & Hxy)].
    apply label_perfect in Hl. rewrite Hl.
    assert (Hd : Qabs (y - x) == 0).
    { setoid_replace (y - x) with 0 by lra. reflexivity. }
    destruct (bpm_score_cases x y) as [[H1 E1] | [H1 E1]];
      rewrite E1; lra.
Qed.

Lemma bpm_first_score_bounds_witness :
  exists s,
    BpmFirst.transition_score (track 120 "8A") (track 120 "8A")
    = Ok (s, "perfect mix") /\
    0 <= s <= 7.
Proof.
  eexists. split; [reflexivity | ].
  exact (proj1 (bpm_first_score_bounds (track 120 "8A") (track 120 "8A")
                  _ "perfect mix" eq_refl)).
Defined.

(** X7. A harmonic-first score is at most ten times the table score of its
    mix type, hence at most 50; and a transition of a higher-scored mix
    type beats one of a lower-scored type whenever its own BPM difference
    is at most 66. *)
Theorem harmonics_first_category_wins
        (a b a' b' : Song) (s s' : Q) (lbl lbl' : string) :
  HarmonicsFirst.transition_score a b = Ok (s, lbl) ->
  HarmonicsFirst.transition_score a' b' = Ok (s', lbl') ->
  s <= dict_get HarmonicsFirst.MIX_SCORES lbl 0.0 * 10 /\
  s <= 50 /\
  (dict_get HarmonicsFirst.MIX_SCORES lbl' 0.0
   < dict_get HarmonicsFirst.MIX_SCORES lbl 0.0 ->
   (forall x y, bpm a = Some x -> bpm b = Some y -> Qabs (y - x) <= 66) ->
   s' < s).
Proof.
  intros Ht Ht'.
  destruct (harmonics_first_score_inv _ _ _ _ Ht) as [Hc ->].
  destruct (harmonics_first_score_inv _ _ _ _ Ht') as [Hc' ->].
  destruct (classify_label _ _ _ Hc) as [m ->].
  destruct (classify_label _ _ _ Hc') as [m' ->].
  rewrite !harmonics_first_table.
  pose proof (table_range m) as Hm.
  assert (Hp : 0 <= match bpm a, bpm b with
                    | Some x, Some y => Qabs (y - x) * 0.15
                    | _, _ => 0.0
                    end).
  { destruct (bpm a) as [x | ], (bpm b) as [y | ]; try lra.
    pose proof (Qabs_nonneg (y - x)). lra. }
  assert (Hp' : 0 <= match bpm a', bpm b' with
                     | Some x, Some y => Qabs (y - x) * 0.15
                     | _, _ => 0.0
                     end).
  { destruct (bpm a') as [x | ], (bpm b') as [y | ]; try lra.
    pose proof (Qabs_nonneg (y - x)). lra. }
  split; [lra | split; [lra | ]].
  intros Hlt Hgap.
  assert (Hstep : Spec.table m' + 1 <= Spec.table m).
  { destruct m, m'; simpl in *; lra. }
  assert (Hpen : match bpm a, bpm b with
                 | Some x, Some y => Qabs (y - x) * 0.15
                 | _, _ => 0.0
                 end <= 9.9).
  { destruct (bpm a) as [x | ], (bpm b) as [y | ]; try lra.
    specialize (Hgap x y eq_refl eq_refl). lra. }
  lra.
Qed.

Lemma harmonics_first_category_wins_witness :
  exists s s',
    HarmonicsFirst.transition_score (track 100 "8A") (track 160 "9A")
    = Ok (s, "+1 mix") /\
    HarmonicsFirst.transition_score (track 100 "8A") (track 100 "10A")
    = Ok (s', "energy boost") /\
    s' < s.
Proof.
  eexists. eexists. split; [reflexivity | split; [reflexivity | ]].
  apply (proj2 (proj2 (harmonics_first_category_wins
                         (track 100 "8A") (track 160 "9A")
                         (track 100 "8A") (track 100 "10A")
                         _ _ "+1 mix" "energy boost" eq_refl eq_refl))).
  - reflexivity.
  - intros x y [= <-] [= <-]. vm_compute. discriminate.
Defined.

End ScoreBounds.

(* ================================================================== *)
(** ** The builders on arbitrary inputs *)

Section LoopShape.

Variable transition_score : Song -> Song -> result (Q * string).
Variable songs_sorted : list Song.

(** An iteration that does not raise moves one index of the pool to the
    end of the path and keeps the order of the others. *)
Lemma extend_once_inv (path remaining path' remaining' : list nat) :
  extend_once transition_score songs_sorted path remaining
  = Ok (path', remaining') ->
  exists best before after,
    path' = path ++ [best] /\
    remaining = before ++ best :: after /\
    remaining' = before ++ after.
Proof.
  unfold extend_once.
  destruct (PyList.index_last path) as [last_idx | e]; simpl;
    [ | discriminate].
  destruct (PyList.index songs_sorted last_idx) as [a | e]; simpl;
    [ | discriminate].
  destruct (scan transition_score songs_sorted a remaining None NegInf)
    as [[best | ] | e]; simpl; try discriminate.
  destruct (PyList.remove best remaining) as [r' | e] eqn:Hrm; simpl;
    [ | discriminate].
  intros [= <- <-].
  destruct (remove_inv _ _ _ Hrm) as (before & after & -> & -> & _).
  now exists best, before, after.
Qed.

(** However the loop ends, a finished path permutes the indices it was
    entered with. *)
Lemma extend_perm (fuel : nat) :
  forall path remaining final,
    extend transition_score songs_sorted fuel path remaining
    = Some (Ok final) ->
    Permutation final (path ++ remaining).
Proof.
  induction fuel as [ | fuel IH]; intros path remaining final.
  - destruct remaining; simpl; [ | discriminate].
    intros [= <-]. rewrite app_nil_r. apply Permutation_refl.
  - destruct remaining as [ | j rest]; simpl.
    + intros [= <-]. rewrite app_nil_r. apply Permutation_refl.
    + destruct (extend_once transition_score songs_sorted path (j :: rest))
        as [[path' rest'] | e] eqn:Hone; [ | discriminate].
      intros Hext. apply IH in Hext.
      destruct (extend_once_inv _ _ _ _ Hone)
        as (best & before & after & -> & Hsplit & ->).
      rewrite Hsplit. eapply perm_trans; [exact Hext | ].
      rewrite <- app_assoc. apply Permutation_app_head.
      simpl. apply Permutation_middle.
Qed.

(** The first iteration raises when the first candidate cannot be scored
    after the last track of the path. *)
Lemma extend_first_raises (fuel : nat) (pre : list nat) (cur idx : nat)
      (rest : list nat) (a c : Song) (e : exn) :
  nth_error songs_sorted cur = Some a ->
  nth_error songs_sorted idx = Some c ->
  transition_score a c = Raise e ->
  extend transition_score songs_sorted (S fuel) (pre ++ [cur])
         (idx :: rest)
  = Some (Raise e).
Proof.
  intros Ha Hc He. cbn [extend]. unfold extend_once.
  rewrite index_last_snoc. cbn [bind].
  rewrite (index_Some _ _ _ Ha). cbn [bind scan].
  rewrite (index_Some _ _ _ Hc). cbn [bind]. rewrite He. reflexivity.
Qed.

End LoopShape.

Lemma bind_fuel_ok {A B : Type} (m : option (result A))
      (k : A -> result B) (b : B) :
  bind_fuel m k = Some (Ok b) ->
  exists a, m = Some (Ok a) /\ k a = Ok b.
Proof.
  destruct m as [[a | e] | ]; simpl; try discriminate.
  intros [= H]. now exists a.
Qed.

Lemma rebuild_fun (ss : list Song) (final : list nat) (out : list Song) :
  Permutation final (seq 0 (List.length ss)) ->
  rebuild ss final = Ok out ->
  Permutation out ss.
Proof.
  intros Hp Hout.
  destruct (rebuild_perm ss final Hp) as (out' & Hout' & _ & Hperm).
  congruence.
Qed.

Lemma bpm_first_returns_perm (songs out : list Song) :
  BpmFirst.build_bpm_first_path songs = Some (Ok out) ->
  Permutation songs out.
Proof.
  destruct songs as [ | s r] eqn:Hsongs.
  - intros [= <-]. constructor.
  - rewrite <- Hsongs.
    assert (Hne : songs <> []) by (rewrite Hsongs; discriminate).
    destruct (bpm_first_unfold songs Hne) as [Hpath Hbuild].
    rewrite Hbuild. intros H. apply bind_fuel_ok in H.
    destruct H as (final & Hfinal & Hout).
    rewrite Hpath in Hfinal. apply extend_perm in Hfinal.
    apply Permutation_sym. eapply perm_trans; [ | apply sorted_perm].
    apply (rebuild_fun _ final); [ | exact Hout].
    eapply perm_trans; [exact Hfinal | ].
    pose proof (sorted_nonempty bpm_sort_key songs Hne) as Hss.
    destruct (PyList.sorted bpm_sort_key songs) as [ | h t];
      [congruence | ].
    simpl. rewrite Nat.sub_0_r. apply Permutation_refl.
Qed.

Lemma harmonics_first_returns_perm (songs out : list Song) :
  HarmonicsFirst.build_harmonic_path songs = Some (Ok out) ->
  Permutation songs out.
Proof.
  destruct songs as [ | s r] eqn:Hsongs.
  - intros [= <-]. constructor.
  - rewrite <- Hsongs.
    assert (Hne : songs <> []) by (rewrite Hsongs; discriminate).
    rewrite (harmonics_first_unfold songs Hne). cbv zeta.
    destruct (first_keyed_from 0 (PyList.sorted bpm_sort_key songs))
      as [start | ].
    + intros H. apply bind_fuel_ok in H.
      destruct H as (final & Hfinal & Hout).
      unfold HarmonicsFirst.path_indices in Hfinal.
      destruct (PyList.remove start _) as [pool | e] eqn:Hrm;
        [ | discriminate].
      apply extend_perm in Hfinal.
      apply Permutation_sym. eapply perm_trans; [ | apply sorted_perm].
      apply (rebuild_fun _ final); [ | exact Hout].
      eapply perm_trans; [exact Hfinal | ].
      destruct (remove_inv _ _ _ Hrm) as (before & after & -> & -> & _).
      simpl. apply Permutation_middle.
    + intros [= <-]. apply Permutation_sym, sorted_perm.
Qed.

(** X8. Whatever either builder returns is a permutation of its input,
    also when records lack a BPM or a key or carry a key that does not
    decode. *)
Theorem builders_return_permutations (songs out : list Song) :
  (BpmFirst.build_bpm_first_path songs = Some (Ok out) ->
   Permutation songs out) /\
  (HarmonicsFirst.build_harmonic_path songs = Some (Ok out) ->
   Permutation songs out).
Proof.
  split.
  - apply bpm_first_returns_perm.
  - apply harmonics_first_returns_perm.
Qed.

Lemma builders_return_permutations_witness :
  Permutation [track 128 "XX"; track 120 "XX"]
              [track 120 "XX"; track 128 "XX"].
Proof.
  exact (proj1 (builders_return_permutations
                  [track 128 "XX"; track 120 "XX"]
                  [track 120 "XX"; track 128 "XX"]) eq_refl).
Defined.

(** X9. A single record comes back alone and unchanged from both builders,
    whatever its BPM and key are, and the empty list gives the empty
    list. *)
Theorem builders_small_inputs :
  BpmFirst.build_bpm_first_path [] = Some (Ok []) /\
  HarmonicsFirst.build_harmonic_path [] = Some (Ok []) /\
  (forall s, BpmFirst.build_bpm_first_path [s] = Some (Ok [s])) /\
  (forall s, HarmonicsFirst.build_harmonic_path [s] = Some (Ok [s])).
Proof.
  repeat split.
  intros s. unfold HarmonicsFirst.build_harmonic_path. simpl.
  destruct (key_truthy s); reflexivity.
Qed.

Lemma decodes_classified (a c : Song) :
  decodes_if_present a -> decodes_if_present c ->
  exists lbl, classify_mix_type (key a) (key c) = Ok lbl.
Proof.
  unfold decodes_if_present. intros Ha Hc.
  destruct (key a) as [k1 | ]; [ | now exists "unknown"].
  destruct (key c) as [k2 | ]; [ | now exists "unknown"].
  destruct (Ha k1 eq_refl) as [p1 H1].
  destruct (Hc k2 eq_refl) as [p2 H2].
  exact (classify_decodable _ _ _ _ H1 H2).
Qed.

Lemma decodes_bpm_first_scored (a c : Song) :
  decodes_if_present a -> decodes_if_present c ->
  exists s t, BpmFirst.transition_score a c = Ok (s, t).
Proof.
  intros Ha Hc. destruct (decodes_classified a c Ha Hc) as [lbl Hl].
  unfold BpmFirst.transition_score, BpmFirst.transition_score_w.
  rewrite Hl. simpl. eauto.
Qed.

Lemma decodes_harmonics_first_scored (a c : Song) :
  decodes_if_present a -> decodes_if_present c ->
  exists s t, HarmonicsFirst.transition_score a c = Ok (s, t).
Proof.
  intros Ha Hc. destruct (decodes_classified a c Ha Hc) as [lbl Hl].
  unfold HarmonicsFirst.transition_score,
    HarmonicsFirst.transition_score_w.
  rewrite Hl. simpl. eauto.
Qed.

Lemma first_keyed_bound (l : list Song) :
  forall k i, first_keyed_from k l = Some i ->
              (k <= i < k + List.length l)%nat.
Proof.
  induction l as [ | s r IH]; intros k i; simpl.
  - discriminate.
  - destruct (key_truthy s).
    + intros [= <-]. lia.
    + intros H. apply IH in H. lia.
Qed.

Lemma remove_in (x : nat) (l : list nat) :
  In x l -> exists l', PyList.remove x l = Ok l'.
Proof.
  induction l as [ | y r IH]; simpl; [tauto | ].
  intros Hin. destruct (Nat.eqb_spec y x) as [-> | Hne].
  - now exists r.
  - destruct IH as [r' Hr']; [destruct Hin; [contradiction | assumption] | ].
    rewrite Hr'. simpl. eauto.
Qed.

Lemma bpm_first_succeeds (songs : list Song) :
  Forall decodes_if_present songs ->
  exists out, BpmFirst.build_bpm_first_path songs = Some (Ok out).
Proof.
  intros Hd. destruct songs as [ | s0 r] eqn:Hsongs.
  - now exists [].
  - rewrite <- Hsongs in *.
    assert (Hne : songs <> []) by (rewrite Hsongs; discriminate).
    assert (Hss : forall x, In x (PyList.sorted bpm_sort_key songs) ->
                            decodes_if_present x).
    { rewrite Forall_forall in Hd. intros x Hx. apply Hd.
      exact (Permutation_in _ (sorted_perm bpm_sort_key songs) Hx). }
    destruct (extend_from_first BpmFirst.transition_score
                (PyList.sorted bpm_sort_key songs))
      as (final & out & _ & _ & Hext & _ & Hout & _).
    + intros a c Ha Hc. apply decodes_bpm_first_scored; now apply Hss.
    + now apply sorted_nonempty.
    + destruct (bpm_first_unfold songs Hne) as [Hpath Hbuild].
      exists out. rewrite Hbuild, Hpath, Hext. simpl. now rewrite Hout.
Qed.

Lemma harmonics_first_succeeds (songs : list Song) :
  Forall decodes_if_present songs ->
  exists out, HarmonicsFirst.build_harmonic_path songs = Some (Ok out).
Proof.
  intros Hd. destruct songs as [ | s0 r] eqn:Hsongs.
  - now exists [].
  - rewrite <- Hsongs in *.
    assert (Hne : songs <> []) by (rewrite Hsongs; discriminate).
    set (ss := PyList.sorted bpm_sort_key songs).
    assert (Hss : forall x, In x ss -> decodes_if_present x).
    { rewrite Forall_forall in Hd. intros x Hx. apply Hd.
      exact (Permutation_in _ (sorted_perm bpm_sort_key songs) Hx). }
    rewrite (harmonics_first_unfold songs Hne). cbv zeta. fold ss.
    destruct (first_keyed_from 0 ss) as [start | ] eqn:Hstart;
      [ | now exists ss].
    apply first_keyed_bound in Hstart.
    unfold HarmonicsFirst.path_indices.
    destruct (remove_in start (seq 0 (List.length ss))) as [pool Hrm].
    { apply in_seq. lia. }
    rewrite Hrm.
    destruct (remove_inv _ _ _ Hrm) as (before & after & Hseq & Hpool & _).
    destruct (extend_greedy HarmonicsFirst.transition_score ss
                (List.length pool)
                ltac:(intros a c Ha Hc;
                      apply decodes_harmonics_first_scored; now apply Hss)
                [] start pool)
      as (final & Hext & Hrun).
    + apply Nat.le_refl.
    + lia.
    + intros j Hj.
      assert (Hin : In j (seq 0 (List.length ss))).
      { rewrite Hseq. rewrite Hpool in Hj. apply in_app_or in Hj.
        apply in_or_app. destruct Hj; [now left | right; now right]. }
      apply in_seq in Hin. lia.
    + simpl in Hext. rewrite Hext.
      destruct (greedy_run_perm _ _ _ _ _ Hrun) as [Hperm _].
      destruct (rebuild_perm ss final) as (out & Hout & _).
      { eapply perm_trans; [exact Hperm | ].
        rewrite Hseq, Hpool. simpl. apply Permutation_middle. }
      exists out. simpl. now rewrite Hout.
Qed.

(** X10. Both builders return a permutation of their input as soon as every
    key that is present decodes; records without a BPM or without a key
    make neither of them fail. *)
Theorem builders_succeed_when_keys_decode (songs : list Song) :
  Forall decodes_if_present songs ->
  (exists out,
      BpmFirst.build_bpm_first_path songs = Some (Ok out) /\
      Permutation songs out) /\
  (exists out,
      HarmonicsFirst.build_harmonic_path songs = Some (Ok out) /\
      Permutation songs out).
Proof.
  intros Hd. split.
  - destruct (bpm_first_succeeds songs Hd) as [out Hout].
    exists out. split; [exact Hout | now apply bpm_first_returns_perm].
  - destruct (harmonics_first_succeeds songs Hd) as [out Hout].
    exists out. split; [exact Hout | now apply harmonics_first_returns_perm].
Qed.

Lemma example_keyless_decodes : Forall decodes_if_present example_keyless.
Proof.
  repeat constructor; intros k [= <-]. eexists. reflexivity.
Defined.

Lemma builders_succeed_when_keys_decode_witness :
  exists out,
    HarmonicsFirst.build_harmonic_path example_keyless = Some (Ok out) /\
    Permutation example_keyless out.
Proof.
  exact (proj2 (builders_succeed_when_keys_decode
                  example_keyless example_keyless_decodes)).
Defined.

(** X11. When the two slowest records carry different keys of which one
    does not decode, the BPM-first builder raises [ValueError] on its
    first comparison, and so does the harmonic-first builder when the
    slowest record's key is not the empty string. *)
Theorem builders_raise_on_undecodable_key
        (songs : list Song) (a c : Song) (rest : list Song)
        (k1 k2 : string) (e : exn) :
  PyList.sorted bpm_sort_key songs = a :: c :: rest ->
  key a = Some k1 ->
  key c = Some k2 ->
  k1 <> k2 ->
  parse_camelot k1 = Raise e \/ parse_camelot k2 = Raise e ->
  BpmFirst.build_bpm_first_path songs = Some (Raise ValueError) /\
  (k1 <> "" ->
   HarmonicsFirst.build_harmonic_path songs = Some (Raise ValueError)).
Proof.
  intros Hss Ha Hc Hne Hraise.
  assert (Hsongs : songs <> []).
  { intros ->. discriminate. }
  pose proof (classify_undecodable k1 k2 e Hne Hraise) as Hcl.
  split.
  - destruct (bpm_first_unfold songs Hsongs) as [Hpath Hbuild].
    rewrite Hbuild, Hpath, Hss.
    assert (Htr : BpmFirst.transition_score a c = Raise ValueError).
    { unfold BpmFirst.transition_score, BpmFirst.transition_score_w.
      now rewrite Ha, Hc, Hcl. }
    pose proof (extend_first_raises BpmFirst.transition_score
                  (a :: c :: rest) (List.length (seq 2 (List.length rest)))
                  [] 0 1 (seq 2 (List.length rest)) a c ValueError
                  eq_refl eq_refl Htr) as Hext.
    change (bind_fuel
              (extend BpmFirst.transition_score (a :: c :: rest)
                      (S (List.length (seq 2 (List.length rest))))
                      ([] ++ [0%nat])
                      (1%nat :: seq 2 (List.length rest)))
              (rebuild (a :: c :: rest))
            = Some (Raise ValueError)).
    now rewrite Hext.
  - intros Hk1.
    rewrite (harmonics_first_unfold songs Hsongs). cbv zeta.
    rewrite Hss. simpl.
    assert (Htr : key_truthy a = true).
    { unfold key_truthy. rewrite Ha.
      destruct (String.eqb_spec k1 ""); [contradiction | reflexivity]. }
    rewrite Htr.
    assert (Hts : HarmonicsFirst.transition_score a c = Raise ValueError).
    { unfold HarmonicsFirst.transition_score,
        HarmonicsFirst.transition_score_w.
      now rewrite Ha, Hc, Hcl. }
    pose proof (extend_first_raises HarmonicsFirst.transition_score
                  (a :: c :: rest) (List.length (seq 2 (List.length rest)))
                  [] 0 1 (seq 2 (List.length rest)) a c ValueError
                  eq_refl eq_refl Hts) as Hext.
    change (bind_fuel
              (extend HarmonicsFirst.transition_score (a :: c :: rest)
                      (S (List.length (seq 2 (List.length rest))))
                      ([] ++ [0%nat])
                      (1%nat :: seq 2 (List.length rest)))
              (rebuild (a :: c :: rest))
            = Some (Raise ValueError)).
    now rewrite Hext.
Qed.

Lemma builders_raise_on_undecodable_key_witness :
  BpmFirst.build_bpm_first_path [track 128 "8A"; track 120 "H"]
  = Some (Raise ValueError).
Proof.
  refine (proj1 (builders_raise_on_undecodable_key
                   [track 128 "8A"; track 120 "H"]
                   (track 120 "H") (track 128 "8A") [] "H" "8A"
                   ValueError eq_refl eq_refl eq_refl _ _)).
  - discriminate.
  - left. reflexivity.
Defined.

Lemma bpm_first_head (songs out : list Song) :
  songs <> [] ->
  BpmFirst.build_bpm_first_path songs = Some (Ok out) ->
  exists h t tail,
    PyList.sorted bpm_sort_key songs = h :: t /\ out = h :: tail.
Proof.
  intros Hne Hb.
  destruct (bpm_first_unfold songs Hne) as [Hpath Hbuild].
  rewrite Hbuild in Hb. apply bind_fuel_ok in Hb.
  destruct Hb as (final & Hfinal & Hout).
  rewrite Hpath in Hfinal. apply extend_prefix in Hfinal.
  destruct Hfinal as [more ->]. simpl in Hout.
  apply comprehension_head in Hout.
  destruct Hout as (b & bs & Hidx & ->).
  apply index_inv in Hidx.
  destruct (PyList.sorted bpm_sort_key songs) as [ | h t];
    [discriminate | ].
  injection Hidx as <-. now exists h, t, bs.
Qed.

(** X12. Whenever the BPM-first builder returns, its first record is one
    of the input with no record slower than it; a record without BPM comes
    first only when no record has a BPM. *)
Theorem bpm_first_starts_lowest (songs : list Song) (first : Song)
        (rest : list Song) :
  BpmFirst.build_bpm_first_path songs = Some (Ok (first :: rest)) ->
  In first songs /\
  (forall b, bpm first = Some b ->
             forall s b', In s songs -> bpm s = Some b' -> (b <= b')%Q) /\
  (bpm first = None -> forall s, In s songs -> bpm s = None).
Proof.
  intros Hb.
  assert (Hne : songs <> []).
  { intros ->. discriminate. }
  destruct (bpm_first_head songs _ Hne Hb) as (h & t & tail & Hss & Hout).
  injection Hout as <- _.
  destruct (sorted_head bpm_sort_key songs first t Hss)
    as (before & after & Hsongs & Hbefore & Hafter).
  assert (Hmin : forall s, In s songs ->
                           xlt (bpm_sort_key s) (bpm_sort_key first)
                           = false).
  { intros s Hs. rewrite Hsongs in Hs. apply in_app_or in Hs.
    destruct Hs as [Hs | [<- | Hs]].
    - apply xlt_asym. now apply Hbefore.
    - apply xlt_irrefl.
    - now apply Hafter. }
  split; [ | split].
  - rewrite Hsongs. apply in_or_app. right. now left.
  - intros b Hfirst s b' Hs Hbpm. specialize (Hmin s Hs).
    unfold bpm_sort_key in Hmin. rewrite Hfirst, Hbpm in Hmin.
    now apply Qltb_ge.
  - intros Hfirst s Hs. specialize (Hmin s Hs).
    unfold bpm_sort_key in Hmin. rewrite Hfirst in Hmin.
    destruct (bpm s); [discriminate | reflexivity].
Qed.

Lemma bpm_first_starts_lowest_witness :
  In (track 120 "9A") [mkSong None None None (Some "8A"); track 120 "9A"] /\
  (forall b, bpm (track 120 "9A") = Some b ->
             forall s b',
               In s [mkSong None None None (Some "8A"); track 120 "9A"] ->
               bpm s = Some b' -> (b <= b')%Q) /\
  (bpm (track 120 "9A") = None ->
   forall s, In s [mkSong None None None (Some "8A"); track 120 "9A"] ->
             bpm s = None).
Proof.
  exact (bpm_first_starts_lowest
           [mkSong None None None (Some "8A"); track 120 "9A"]
           (track 120 "9A")
           [mkSong None None None (Some "8A")]
           eq_refl).
Defined.

(* ================================================================== *)
(** ** The filter of [main] and the two pipelines *)

Lemma filter_split {A : Type} (f g : A -> bool) (l : list A) :
  (forall x, g x = negb (f x)) ->
  Permutation l (filter f l ++ filter g l).
Proof.
  intros Hg. induction l as [ | x r IH]; simpl.
  - constructor.
  - rewrite Hg. destruct (f x); simpl.
    + now apply perm_skip.
    + now apply Permutation_cons_app.
Qed.

Lemma main_missing_negates (s : Song) :
  negb (key_truthy s) || negb (bpm_present s)
  = negb (key_truthy s && bpm_present s).
Proof. now destruct (key_truthy s), (bpm_present s). Qed.

Lemma key_truthy_iff (s : Song) :
  key_truthy s = true <-> exists k, key s = Some k /\ k <> "".
Proof.
  unfold key_truthy. destruct (key s) as [k | ].
  - destruct (String.eqb_spec k "") as [-> | Hne]; simpl; split.
    + discriminate.
    + intros (k & [= <-] & Hk). congruence.
    + intros _. now exists k.
    + reflexivity.
  - split; [discriminate | intros (k & Hk & _); discriminate].
Qed.

Lemma bpm_present_iff (s : Song) :
  bpm_present s = true <-> bpm s <> None.
Proof.
  unfold bpm_present. destruct (bpm s); split; congruence.
Qed.

(** X13. The two lists [main] builds split its input: together they are a
    permutation of it; a record is usable exactly when its key is neither
    [None] nor empty and its BPM is not [None] (a BPM of 0 counts), and
    missing exactly otherwise. *)
Theorem main_filter_splits (songs : list Song) :
  Permutation songs (main_usable songs ++ main_missing songs) /\
  (List.length (main_usable songs) + List.length (main_missing songs)
   = List.length songs)%nat /\
  (forall s, In s (main_usable songs) <->
             In s songs /\
             (exists k, key s = Some k /\ k <> "") /\ bpm s <> None) /\
  (forall s, In s (main_missing songs) <->
             In s songs /\
             ~ ((exists k, key s = Some k /\ k <> "") /\ bpm s <> None)).
Proof.
  assert (Hp : Permutation songs (main_usable songs ++ main_missing songs)).
  { apply filter_split. intros x. apply main_missing_negates. }
  split; [exact Hp | split; [ | split]].
  - rewrite <- length_app. symmetry. now apply Permutation_length.
  - intros s. unfold main_usable. rewrite filter_In, andb_true_iff.
    now rewrite key_truthy_iff, bpm_present_iff.
  - intros s. unfold main_missing.
    rewrite filter_In, main_missing_negates, negb_true_iff.
    rewrite <- not_true_iff_false, andb_true_iff.
    now rewrite key_truthy_iff, bpm_present_iff.
Qed.

Lemma main_usable_decodes (songs : list Song) :
  (forall s k, In s (main_usable songs) -> key s = Some k ->
               exists p, parse_camelot k = Ok p) ->
  Forall decodes_if_present (main_usable songs).
Proof.
  intros H. apply Forall_forall. intros s Hs k Hk. now apply (H s k).
Qed.

(** X14. When every key that passes the filter of [main] decodes, both
    scripts order exactly the usable records: the result is a permutation
    of them, and each of its records has a BPM and a non-empty key. *)
Theorem main_orders_usable (songs : list Song) :
  (forall s k, In s (main_usable songs) -> key s = Some k ->
               exists p, parse_camelot k = Ok p) ->
  (exists out,
      bpm_first_main_ordered songs = Some (Ok out) /\
      Permutation (main_usable songs) out /\
      Forall (fun s => bpm s <> None /\ key_truthy s = true) out) /\
  (exists out,
      harmonics_first_main_ordered songs = Some (Ok out) /\
      Permutation (main_usable songs) out /\
      Forall (fun s => bpm s <> None /\ key_truthy s = true) out).
Proof.
  intros H. pose proof (main_usable_decodes songs H) as Hd.
  assert (Hkept : Forall (fun s => bpm s <> None /\ key_truthy s = true)
                         (main_usable songs)).
  { apply Forall_forall. intros s Hs. unfold main_usable in Hs.
    apply filter_In in Hs. destruct Hs as [_ Hs].
    apply andb_true_iff in Hs. destruct Hs as [Hk Hb].
    split; [now apply bpm_present_iff | exact Hk]. }
  split.
  - destruct (bpm_first_succeeds _ Hd) as [out Hout].
    pose proof (bpm_first_returns_perm _ _ Hout) as Hp.
    exists out. split; [exact Hout | split; [exact Hp | ]].
    exact (Permutation_Forall Hp Hkept).
  - destruct (harmonics_first_succeeds _ Hd) as [out Hout].
    pose proof (harmonics_first_returns_perm _ _ Hout) as Hp.
    exists out. split; [exact Hout | split; [exact Hp | ]].
    exact (Permutation_Forall Hp Hkept).
Qed.

Lemma main_orders_usable_witness :
  exists out,
    bpm_first_main_ordered example_keyless = Some (Ok out) /\
    Permutation (main_usable example_keyless) out /\
    Forall (fun s => bpm s <> None /\ key_truthy s = true) out.
Proof.
  refine (proj1 (main_orders_usable example_keyless _)).
  intros s k [<- | []] [= <-]. eexists. reflexivity.
Defined.

(** X15. The filter of [main] does not test that a key decodes: a key
    such as ["H"] passes it, and the script then raises [ValueError]
    instead of writing a mix. In general, when the two slowest usable
    records carry different keys of which one does not decode, both
    scripts raise. *)
Theorem main_raises_on_undecodable_key
        (songs : list Song) (a c : Song) (rest : list Song)
        (k1 k2 : string) (e : exn) :
  PyList.sorted bpm_sort_key (main_usable songs) = a :: c :: rest ->
  key a = Some k1 ->
  key c = Some k2 ->
  k1 <> k2 ->
  parse_camelot k1 = Raise e \/ parse_camelot k2 = Raise e ->
  bpm_first_main_ordered songs = Some (Raise ValueError) /\
  harmonics_first_main_ordered songs = Some (Raise ValueError).
Proof.
  intros Hss Ha Hc Hne Hraise.
  unfold bpm_first_main_ordered, harmonics_first_main_ordered.
  assert (Hin : In a (main_usable songs)).
  { apply Permutation_in with (l := a :: c :: rest); [ | now left].
    rewrite <- Hss. apply sorted_perm. }
  unfold main_usable in Hin. apply filter_In in Hin.
  destruct Hin as [_ Hin]. apply andb_true_iff in Hin.
  destruct Hin as [Hk _]. apply key_truthy_iff in Hk.
  destruct Hk as (k & Hk & Hkne). rewrite Ha in Hk. injection Hk as <-.
  pose proof (bpm_first_unfold (main_usable songs)) as _.
  assert (Hsongs : main_usable songs <> []).
  { intros E. rewrite E in Hss. discriminate. }
  pose proof (classify_undecodable k1 k2 e Hne Hraise) as Hcl.
  assert (Hb : BpmFirst.transition_score a c = Raise ValueError).
  { unfold BpmFirst.transition_score, BpmFirst.transition_score_w.
    now rewrite Ha, Hc, Hcl. }
  assert (Hh : HarmonicsFirst.transition_score a c = Raise ValueError).
  { unfold HarmonicsFirst.transition_score,
      HarmonicsFirst.transition_score_w.
    now rewrite Ha, Hc, Hcl. }
  split.
  - destruct (bpm_first_unfold _ Hsongs) as [Hpath Hbuild].
    rewrite Hbuild, Hpath, Hss.
    pose proof (extend_first_raises BpmFirst.transition_score
                  (a :: c :: rest) (List.length (seq 2 (List.length rest)))
                  [] 0 1 (seq 2 (List.length rest)) a c ValueError
                  eq_refl eq_refl Hb) as Hext.
    change (bind_fuel
              (extend BpmFirst.transition_score (a :: c :: rest)
                      (S (List.length (seq 2 (List.length rest))))
                      ([] ++ [0%nat])
                      (1%nat :: seq 2 (List.length rest)))
              (rebuild (a :: c :: rest))
            = Some (Raise ValueError)).
    now rewrite Hext.
  - rewrite (harmonics_first_unfold _ Hsongs). cbv zeta.
    rewrite Hss. simpl.
    assert (Htr : key_truthy a = true).
    { apply key_truthy_iff. now exists k1. }
    rewrite Htr.
    pose proof (extend_first_raises HarmonicsFirst.transition_score
                  (a :: c :: rest) (List.length (seq 2 (List.length rest)))
                  [] 0 1 (seq 2 (List.length rest)) a c ValueError
                  eq_refl eq_refl Hh) as Hext.
    change (bind_fuel
              (extend HarmonicsFirst.transition_score (a :: c :: rest)
                      (S (List.length (seq 2 (List.length rest))))
                      ([] ++ [0%nat])
                      (1%nat :: seq 2 (List.length rest)))
              (rebuild (a :: c :: rest))
            = Some (Raise ValueError)).
    now rewrite Hext.
Qed.

Lemma main_raises_on_undecodable_key_witness :
  bpm_first_main_ordered
    [track 128 "8A"; track 120 "H"; mkSong None None None (Some "9A")]
  = Some (Raise ValueError) /\
  harmonics_first_main_ordered
    [track 128 "8A"; track 120 "H"; mkSong None None None (Some "9A")]
  = Some (Raise ValueError).
Proof.
  refine (main_raises_on_undecodable_key
            [track 128 "8A"; track 120 "H";
             mkSong None None None (Some "9A")]
            (track 120 "H") (track 128 "8A") [] "H" "8A"
            ValueError eq_refl eq_refl eq_refl _ _).
  - discriminate.
  - left. reflexivity.
Defined.

(* ================================================================== *)
(** ** The clean output *)

Section CleanOutputFacts.

Variable value : Type.
Variable none : value.

Lemma clean_one (s : pydict value) :
  let s' := [ ("song", py_get none s "song");
              ("artist", py_get none s "artist");
              ("bpm", py_get none s "bpm");
              ("key", py_get none s "key") ] in
  map fst s' = clean_keys /\
  (forall k, In k clean_keys -> py_get none s' k = py_get none s k) /\
  (forall k, ~ In k clean_keys -> py_get none s' k = none).
Proof.
  intros s'. split; [reflexivity | split].
  - intros k [<- | [<- | [<- | [<- | []]]]]; reflexivity.
  - intros k Hk. unfold clean_keys in Hk. simpl in Hk. subst s'.
    cbn [py_get].
    repeat match goal with
           | |- context [String.eqb ?a k] =>
               destruct (String.eqb_spec a k); [subst k; tauto | ]
           end.
    reflexivity.
Qed.

(** X16. [make_clean_output] keeps the number and the order of the tracks;
    each output dictionary has exactly the entries song, artist, bpm, key,
    in that order, with the values the input track gives for them
    ([None] when it has none), and nothing under any other name; cleaning
    a clean list changes nothing. *)
Theorem make_clean_output_projects (ordered_songs : list (pydict value)) :
  List.length (make_clean_output none ordered_songs)
  = List.length ordered_songs /\
  (forall i s,
      nth_error ordered_songs i = Some s ->
      exists s',
        nth_error (make_clean_output none ordered_songs) i = Some s' /\
        map fst s' = clean_keys /\
        (forall k, In k clean_keys -> py_get none s' k = py_get none s k) /\
        (forall k, ~ In k clean_keys -> py_get none s' k = none)) /\
  make_clean_output none (make_clean_output none ordered_songs)
  = make_clean_output none ordered_songs.
Proof.
  split; [apply length_map | split].
  - intros i s Hs. unfold make_clean_output.
    rewrite nth_error_map, Hs. simpl. eexists. split; [reflexivity | ].
    apply clean_one.
  - unfold make_clean_output. rewrite map_map. reflexivity.
Qed.

End CleanOutputFacts.

Lemma make_clean_output_projects_witness :
  exists s',
    nth_error
      (make_clean_output None
         [[("song", Some "Intro"); ("url", Some "spotify:track:1");
           ("key", Some "8A")]]) 0
    = Some s' /\
    map fst s' = clean_keys /\
    (forall k, In k clean_keys ->
               py_get None s' k
               = py_get None [("song", Some "Intro");
                              ("url", Some "spotify:track:1");
                              ("key", Some "8A")] k) /\
    (forall k, ~ In k clean_keys -> py_get None s' k = None).
Proof.
  exact (proj1 (proj2 (make_clean_output_projects (option string) None
                         [[("song", Some "Intro");
                           ("url", Some "spotify:track:1");
                           ("key", Some "8A")]]))
               0%nat _ eq_refl).
Defined.

(* ================================================================== *)
(** ** Tracks that all carry the same key *)

Lemma sorted_nth {A : Type} (R : A -> A -> Prop) (l : list A) :
  StronglySorted R l ->
  forall i j a b,
    (i < j)%nat -> nth_error l i = Some a -> nth_error l j = Some b ->
    R a b.
Proof.
  induction 1 as [ | x r Hr IH Hx]; intros i j a b Hij Ha Hb.
  - destruct i; discriminate.
  - destruct j as [ | j]; [lia | ]. simpl in Hb.
    destruct i as [ | i]; simpl in Ha.
    + injection Ha as <-. rewrite Forall_forall in Hx.
      apply Hx. now apply nth_error_In with j.
    + apply (IH i j); [lia | assumption | assumption].
Qed.

Section SortedRun.

Variable transition_score : Song -> Song -> result (Q * string).
Variable songs_sorted : list Song.

Hypothesis all_scored :
  forall a c, In a songs_sorted -> In c songs_sorted ->
              exists s t, transition_score a c = Ok (s, t).

(** Seen from any track, a candidate further down the sorted list never
    scores more than one nearer. *)
Hypothesis fading :
  forall i j l a sj sl,
    (i < j)%nat -> (j < l)%nat ->
    nth_error songs_sorted i = Some a ->
    scored transition_score songs_sorted a j sj ->
    scored transition_score songs_sorted a l sl ->
    (sl <= sj)%Q.

Lemma all_scored_at (a : Song) (j : nat) :
  In a songs_sorted ->
  (j < List.length songs_sorted)%nat ->
  exists s, scored transition_score songs_sorted a j s.
Proof.
  intros Ha Hj.
  destruct (nth_error songs_sorted j) as [c | ] eqn:Hc;
    [ | apply nth_error_None in Hc; lia].
  destruct (all_scored a c Ha (nth_error_In _ _ Hc)) as (s & t & Hs).
  exists s, c, t. now split.
Qed.

(** Under these two hypotheses the loop, entered after the first [k]
    indices, walks through the others in order. *)
Lemma extend_sorted_run (fuel : nat) :
  forall k,
    (S k <= List.length songs_sorted)%nat ->
    (List.length songs_sorted - S k <= fuel)%nat ->
    extend transition_score songs_sorted fuel
           (seq 0 (S k)) (seq (S k) (List.length songs_sorted - S k))
    = Some (Ok (seq 0 (List.length songs_sorted))).
Proof.
  set (n := List.length songs_sorted).
  induction fuel as [ | fuel IH]; intros k Hk Hfuel.
  - assert (E : S k = n) by lia. rewrite E, Nat.sub_diag. reflexivity.
  - destruct (n - S k)%nat as [ | m] eqn:Hm.
    + assert (E : S k = n) by lia. rewrite E. reflexivity.
    + destruct (nth_error songs_sorted k) as [a | ] eqn:Ha;
        [ | apply nth_error_None in Ha; fold n in Ha; lia].
      assert (Hall : forall j, In j (seq (S k) (S m)) ->
                               exists s,
                                 scored transition_score songs_sorted a j s).
      { intros j Hj. apply in_seq in Hj.
        apply all_scored_at; [now apply nth_error_In with k | fold n; lia]. }
      rewrite seq_S. simpl Nat.add.
      destruct (extend_once_selects transition_score songs_sorted
                  (seq 0 k) k a (seq (S k) (S m)) Ha
                  ltac:(discriminate) Hall)
        as (best & rest & Hone & Hsel).
      destruct Hsel as (before & after & sb & Hsplit & Hrest & Hsb & Hb & _).
      assert (Hfirst : before = []).
      { destruct before as [ | b0 before']; [reflexivity | exfalso].
        simpl in Hsplit. injection Hsplit as Hb0 Htail.
        destruct (Hb b0 (or_introl eq_refl)) as (s0 & Hs0 & Hlt).
        assert (Hin : In best (seq (S (S k)) m)).
        { rewrite Htail. apply in_or_app. right. now left. }
        apply in_seq in Hin.
        assert (Hle : (sb <= s0)%Q).
        { apply (fading k b0 best a s0 sb); try assumption; subst b0; lia. }
        exact (Qlt_not_le _ _ Hlt Hle). }
      subst before. simpl in Hsplit, Hrest.
      injection Hsplit as Hbest Hafter. subst best after rest.
      change (seq (S k) (S m)) with (S k :: seq (S (S k)) m) in Hone |- *.
      cbn [extend]. rewrite Hone.
      replace ((seq 0 k ++ [k]) ++ [S k]) with (seq 0 (S (S k)))
        by (rewrite !seq_S; reflexivity).
      replace m with (n - S (S k))%nat by lia.
      apply IH; lia.
Qed.

Lemma rebuild_all :
  rebuild songs_sorted (seq 0 (List.length songs_sorted))
  = Ok songs_sorted.
Proof.
  unfold rebuild.
  rewrite (comprehension_index songs_sorted (mkSong None None None None)).
  - now rewrite map_nth_seq.
  - intros i Hi. apply in_seq in Hi. lia.
Qed.

End SortedRun.

Lemma classify_same (ko : option string) :
  classify_mix_type ko ko
  = Ok (match ko with Some _ => "perfect mix" | None => "unknown" end).
Proof.
  destruct ko as [k | ]; [ | reflexivity].
  unfold classify_mix_type. now rewrite is_perfect_mix_refl.
Qed.

Section SameKey.

Variable songs : list Song.

Hypothesis same_key :
  forall a c, In a songs -> In c songs -> key a = key c.

Local Abbreviation ss := (PyList.sorted bpm_sort_key songs).

Lemma ss_in (x : Song) : In x ss -> In x songs.
Proof. apply Permutation_in, sorted_perm. Qed.

Lemma ss_ordered (i j : nat) (a c : Song) :
  (i < j)%nat ->
  nth_error ss i = Some a -> nth_error ss j = Some c ->
  xlt (bpm_sort_key c) (bpm_sort_key a) = false.
Proof.
  intros Hij Ha Hc.
  exact (sorted_nth _ ss (sorted_ascending bpm_sort_key songs)
                    i j a c Hij Ha Hc).
Qed.

Lemma same_key_bpm_first_scored (a c : Song) :
  In a ss -> In c ss ->
  exists s t, BpmFirst.transition_score a c = Ok (s, t).
Proof.
  intros Ha Hc.
  unfold BpmFirst.transition_score, BpmFirst.transition_score_w.
  rewrite (same_key a c (ss_in _ Ha) (ss_in _ Hc)), classify_same.
  simpl. eauto.
Qed.

Lemma same_key_harmonics_first_scored (a c : Song) :
  In a ss -> In c ss ->
  exists s t, HarmonicsFirst.transition_score a c = Ok (s, t).
Proof.
  intros Ha Hc.
  unfold HarmonicsFirst.transition_score,
    HarmonicsFirst.transition_score_w.
  rewrite (same_key a c (ss_in _ Ha) (ss_in _ Hc)), classify_same.
  simpl. eauto.
Qed.

Local Open Scope Q_scope.

Lemma same_key_bpm_first_fading
      (i j l : nat) (a : Song) (sj sl : Q) :
  (i < j)%nat -> (j < l)%nat ->
  nth_error ss i = Some a ->
  scored BpmFirst.transition_score ss a j sj ->
  scored BpmFirst.transition_score ss a l sl ->
  sl <= sj.
Proof.
  intros Hij Hjl Ha (cj & tj & Hcj & Hsj) (cl & tl & Hcl & Hsl).
  pose proof (ss_ordered i j a cj Hij Ha Hcj) as Oj.
  pose proof (ss_ordered j l cj cl Hjl Hcj Hcl) as Ol.
  destruct (bpm_first_score_inv _ _ _ _ Hsj) as [Kj ->].
  destruct (bpm_first_score_inv _ _ _ _ Hsl) as [Kl ->].
  assert (Hk : key cj = key cl).
  { apply same_key; apply ss_in; eapply nth_error_In; eassumption. }
  rewrite <- Hk in Kl. rewrite Kj in Kl. injection Kl as <-.
  unfold bpm_sort_key in Oj, Ol.
  destruct (bpm a) as [x | ], (bpm cj) as [y | ], (bpm cl) as [z | ];
    simpl in Oj, Ol; try discriminate; try lra.
  - apply Qltb_ge in Oj, Ol.
    assert (Ey : Qabs (y - x) == y - x) by (apply Qabs_pos; lra).
    assert (Ez : Qabs (z - x) == z - x) by (apply Qabs_pos; lra).
    destruct (Q.max_spec 0.0 (10.0 - Qabs (y - x))) as [[H1 E1] | [H1 E1]];
    destruct (Q.max_spec 0.0 (10.0 - Qabs (z - x))) as [[H2 E2] | [H2 E2]];
      rewrite E1, E2; lra.
  - destruct (Q.max_spec 0.0 (10.0 - Qabs (y - x))) as [[H1 E1] | [H1 E1]];
      rewrite E1; lra.
Qed.

Lemma same_key_harmonics_first_fading
      (i j l : nat) (a : Song) (sj sl : Q) :
  (forall s, In s songs -> bpm s <> None) ->
  (i < j)%nat -> (j < l)%nat ->
  nth_error ss i = Some a ->
  scored HarmonicsFirst.transition_score ss a j sj ->
  scored HarmonicsFirst.transition_score ss a l sl ->
  sl <= sj.
Proof.
  intros Hbpm Hij Hjl Ha (cj & tj & Hcj & Hsj) (cl & tl & Hcl & Hsl).
  pose proof (ss_ordered i j a cj Hij Ha Hcj) as Oj.
  pose proof (ss_ordered j l cj cl Hjl Hcj Hcl) as Ol.
  destruct (harmonics_first_score_inv _ _ _ _ Hsj) as [Kj ->].
  destruct (harmonics_first_score_inv _ _ _ _ Hsl) as [Kl ->].
  assert (Hk : key cj = key cl).
  { apply same_key; apply ss_in; eapply nth_error_In; eassumption. }
  rewrite <- Hk in Kl. rewrite Kj in Kl. injection Kl as <-.
  pose proof (Hbpm a (ss_in _ (nth_error_In _ _ Ha))) as Ba.
  pose proof (Hbpm cj (ss_in _ (nth_error_In _ _ Hcj))) as Bj.
  pose proof (Hbpm cl (ss_in _ (nth_error_In _ _ Hcl))) as Bl.
  unfold bpm_sort_key in Oj, Ol.
  destruct (bpm a) as [x | ], (bpm cj) as [y | ], (bpm cl) as [z | ];
    try congruence.
  simpl in Oj, Ol. apply Qltb_ge in Oj, Ol.
  assert (Ey : Qabs (y - x) == y - x) by (apply Qabs_pos; lra).
  assert (Ez : Qabs (z - x) == z - x) by (apply Qabs_pos; lra).
  rewrite Ey, Ez. lra.
Qed.

End SameKey.

Lemma same_key_bpm_first (songs : list Song) :
  (forall a c, In a songs -> In c songs -> key a = key c) ->
  BpmFirst.build_bpm_first_path songs
  = Some (Ok (PyList.sorted bpm_sort_key songs)).
Proof.
  intros Hsame.
  destruct songs as [ | s0 r] eqn:Hsongs; [reflexivity | ].
  rewrite <- Hsongs in *.
  assert (Hne : songs <> []) by (rewrite Hsongs; discriminate).
  destruct (bpm_first_unfold songs Hne) as [Hpath Hbuild].
  pose proof (sorted_nonempty bpm_sort_key songs Hne) as Hss.
  pose proof (extend_sorted_run BpmFirst.transition_score
                (PyList.sorted bpm_sort_key songs)
                (same_key_bpm_first_scored songs Hsame)
                (same_key_bpm_first_fading songs Hsame)
                (List.length (PyList.sorted bpm_sort_key songs) - 1) 0)
    as Hrun.
  change (seq 0 1) with [0%nat] in Hrun.
  rewrite Hbuild, Hpath, length_seq, Hrun.
  - simpl. now rewrite rebuild_all.
  - destruct (PyList.sorted bpm_sort_key songs);
      [congruence | simpl; lia].
  - lia.
Qed.

Lemma same_key_harmonics_first (songs : list Song) :
  (forall a c, In a songs -> In c songs -> key a = key c) ->
  (forall s, In s songs -> bpm s <> None) ->
  HarmonicsFirst.build_harmonic_path songs
  = Some (Ok (PyList.sorted bpm_sort_key songs)).
Proof.
  intros Hsame Hbpm.
  destruct songs as [ | s0 r] eqn:Hsongs; [reflexivity | ].
  rewrite <- Hsongs in *.
  assert (Hne : songs <> []) by (rewrite Hsongs; discriminate).
  pose proof (sorted_nonempty bpm_sort_key songs Hne) as Hss.
  rewrite (harmonics_first_unfold songs Hne). cbv zeta.
  pose proof (same_key_harmonics_first_scored songs Hsame) as Hscored.
  pose proof (fun i j l a sj sl =>
                same_key_harmonics_first_fading songs Hsame i j l a sj sl
                                                Hbpm) as Hfading.
  pose proof (fun x => Permutation_in x (sorted_perm bpm_sort_key songs))
    as Hin.
  set (ss := PyList.sorted bpm_sort_key songs) in *.
  destruct (first_keyed_from 0 ss) as [start | ] eqn:Hstart;
    [ | reflexivity].
  assert (Hzero : start = 0%nat).
  { destruct ss as [ | h t] eqn:Ess; [discriminate | ].
    simpl in Hstart.
    destruct (key_truthy h) eqn:Hh; [congruence | ].
    rewrite first_keyed_none in Hstart; [discriminate | ].
    intros x Hx. unfold key_truthy in *.
    rewrite (Hsame x h); [exact Hh | | ]; apply Hin;
      [now right | now left]. }
  subst start.
  rewrite (harmonics_first_from_first ss Hss), length_seq.
  pose proof (extend_sorted_run HarmonicsFirst.transition_score ss
                Hscored Hfading (List.length ss - 1) 0) as Hrun.
  change (seq 0 1) with [0%nat] in Hrun.
  rewrite Hrun.
  - simpl. now rewrite rebuild_all.
  - destruct ss; [congruence | simpl; lia].
  - lia.
Qed.

(** X17. When all records carry the same key (or none carries one), the
    BPM-first builder returns the records in ascending BPM order, records
    without BPM last, equal tempos in input order; so does the
    harmonic-first builder when every record has a BPM. *)
Theorem same_key_gives_bpm_order (songs : list Song) :
  (forall a c, In a songs -> In c songs -> key a = key c) ->
  BpmFirst.build_bpm_first_path songs
  = Some (Ok (PyList.sorted bpm_sort_key songs)) /\
  ((forall s, In s songs -> bpm s <> None) ->
   HarmonicsFirst.build_harmonic_path songs
   = Some (Ok (PyList.sorted bpm_sort_key songs))).
Proof.
  intros Hsame. split.
  - now apply same_key_bpm_first.
  - now apply same_key_harmonics_first.
Qed.

Lemma same_key_gives_bpm_order_witness :
  BpmFirst.build_bpm_first_path
    [track 128 "8A"; track 140 "8A"; track 120 "8A"]
  = Some (Ok [track 120 "8A"; track 128 "8A"; track 140 "8A"]).
Proof.
  refine (proj1 (same_key_gives_bpm_order
                   [track 128 "8A"; track 140 "8A"; track 120 "8A"] _)).
  intros a c [<- | [<- | [<- | []]]] [<- | [<- | [<- | []]]]; reflexivity.
Defined.

(* ================================================================== *)
(** ** Candidates without a BPM *)

Section MissingBpm.

Local Open Scope Q_scope.

(** X18. For one mix type, a candidate without BPM is the worst choice of
    the BPM-first score (its closeness term is 0, as for a difference of
    10 or more) and the best choice of the harmonic-first score (it pays
    no penalty, as a candidate of equal BPM). *)
Theorem missing_bpm_scores (a c c' : Song) (lbl : string) (s s' : Q) :
  bpm c = None ->
  (BpmFirst.transition_score a c = Ok (s, lbl) ->
   BpmFirst.transition_score a c' = Ok (s', lbl) ->
   s <= s') /\
  (HarmonicsFirst.transition_score a c = Ok (s, lbl) ->
   HarmonicsFirst.transition_score a c' = Ok (s', lbl) ->
   s' <= s).
Proof.
  intros Hc. split; intros Hs Hs'.
  - destruct (bpm_first_score_inv _ _ _ _ Hs) as [_ ->].
    destruct (bpm_first_score_inv _ _ _ _ Hs') as [_ ->].
    rewrite Hc.
    destruct (bpm a) as [x | ], (bpm c') as [y | ]; try lra.
    destruct (Q.max_spec 0.0 (10.0 - Qabs (y - x))) as [[H1 E1] | [H1 E1]];
      rewrite E1; lra.
  - destruct (harmonics_first_score_inv _ _ _ _ Hs) as [_ ->].
    destruct (harmonics_first_score_inv _ _ _ _ Hs') as [_ ->].
    rewrite Hc.
    destruct (bpm a) as [x | ], (bpm c') as [y | ]; try lra.
    pose proof (Qabs_nonneg (y - x)). lra.
Qed.

Lemma missing_bpm_scores_witness :
  exists s s',
    HarmonicsFirst.transition_score
      (track 100 "8A") (mkSong None None None (Some "9A"))
    = Ok (s, "+1 mix") /\
    HarmonicsFirst.transition_score (track 100 "8A") (track 101 "9A")
    = Ok (s', "+1 mix") /\
    s' <= s.
Proof.
  eexists. eexists. split; [reflexivity | split; [reflexivity | ]].
  exact (proj2 (missing_bpm_scores
                  (track 100 "8A") (mkSong None None None (Some "9A"))
                  (track 101 "9A") "+1 mix" _ _ eq_refl)
               eq_refl eq_refl).
Defined.

End MissingBpm.

(* ================================================================== *)
(** ** The order of binary64 numbers *)

Ltac sf_compare :=
  unfold SFltb, SFleb, SFeqb, SFcompare, SFrank, rank_lt, SFnumber;
  repeat match goal with
         | x : spec_float |- _ => destruct x
         | s : bool |- _ => destruct s
         end;
  repeat match goal with
         | |- context [Z.compare ?a ?b] => destruct (Z.compare_spec a b)
         | |- context [Pos.compare_cont Eq ?a ?b] =>
             change (Pos.compare_cont Eq a b) with (Pos.compare a b);
             destruct (Pos.compare_spec a b)
         end;
  cbn [CompOpp];
  try (split;
       [ let T := fresh in
         intros T; try discriminate T; (repeat split; try discriminate; lia)
       | let T := fresh in
         intros T; destruct T as (? & ? & ?);
         try congruence; try reflexivity; exfalso; lia ]).

Lemma SFltb_rank (x y : spec_float) :
  SFltb x y = true <->
  SFnumber x /\ SFnumber y /\ rank_lt (SFrank x) (SFrank y).
Proof. sf_compare. Qed.

Lemma SFleb_rank (x y : spec_float) :
  SFleb x y = true <->
  SFnumber x /\ SFnumber y /\ ~ rank_lt (SFrank y) (SFrank x).
Proof. sf_compare. Qed.

Lemma SFeqb_refl (x : spec_float) : SFeqb x x = true <-> SFnumber x.
Proof.
  unfold SFeqb, SFcompare, SFnumber.
  destruct x as [[] | [] | | [] m e];
    rewrite ?Z.compare_refl, ?Pos.compare_cont_refl; cbn;
    split; congruence.
Qed.

Lemma ltb_rank (x y : float) :
  (x <? y)%float = true <->
  SFnumber (Prim2SF x) /\ SFnumber (Prim2SF y) /\
  rank_lt (SFrank (Prim2SF x)) (SFrank (Prim2SF y)).
Proof. rewrite ltb_spec. apply SFltb_rank. Qed.

Lemma leb_rank (x y : float) :
  (x <=? y)%float = true <->
  SFnumber (Prim2SF x) /\ SFnumber (Prim2SF y) /\
  ~ rank_lt (SFrank (Prim2SF y)) (SFrank (Prim2SF x)).
Proof. rewrite leb_spec. apply SFleb_rank. Qed.

Lemma is_nan_number (x : float) :
  is_nan x = false <-> SFnumber (Prim2SF x).
Proof.
  unfold is_nan. rewrite negb_false_iff, eqb_spec. apply SFeqb_refl.
Qed.

(** Facts about [<?], [<=?] and [is_nan] become facts about ranks, which
    linear arithmetic settles. *)
Ltac float_order :=
  repeat match goal with
         | H : (_ <? _)%float = true |- _ => apply ltb_rank in H
         | H : (_ <=? _)%float = true |- _ => apply leb_rank in H
         | H : (_ <? _)%float = false |- _ =>
             apply not_true_iff_false in H; rewrite ltb_rank in H
         | H : (_ <=? _)%float = false |- _ =>
             apply not_true_iff_false in H; rewrite leb_rank in H
         | H : is_nan _ = false |- _ => apply is_nan_number in H
         | |- (_ <? _)%float = true => apply ltb_rank
         | |- (_ <=? _)%float = true => apply leb_rank
         | |- (_ <? _)%float = false =>
             apply not_true_iff_false; rewrite ltb_rank
         | |- (_ <=? _)%float = false =>
             apply not_true_iff_false; rewrite leb_rank
         | |- is_nan _ = false => apply is_nan_number
         end;
  unfold rank_lt in *;
  repeat match goal with
         | |- context [SFrank ?x] =>
             let a := fresh "s" in let b := fresh "e" in
             let c := fresh "m" in
             destruct (SFrank x) as [[a b] c]
         | H : context [SFrank ?x] |- _ =>
             let a := fresh "s" in let b := fresh "e" in
             let c := fresh "m" in
             destruct (SFrank x) as [[a b] c]
         end;
  try tauto; try (intuition lia).

Lemma ltb_irrefl (x : float) : (x <? x)%float = false.
Proof. float_order. Qed.

Lemma ltb_trans (x y z : float) :
  (x <? y)%float = true -> (y <? z)%float = true -> (x <? z)%float = true.
Proof. intros. float_order. Qed.

Lemma ltb_asym (x y : float) :
  (x <? y)%float = true -> (y <? x)%float = false.
Proof. intros. float_order. Qed.

Lemma ltb_number (x y : float) :
  (x <? y)%float = true -> is_nan x = false /\ is_nan y = false.
Proof. intros. split; float_order. Qed.

Lemma ltb_leb (x y : float) :
  (x <? y)%float = true -> (x <=? y)%float = true.
Proof. intros. float_order. Qed.

(** Between numbers, not smaller is greater or equal. *)
Lemma nltb_leb (x y : float) :
  is_nan x = false -> is_nan y = false ->
  (x <? y)%float = false -> (y <=? x)%float = true.
Proof. intros. float_order. Qed.

Lemma leb_nltb (x y : float) :
  (x <=? y)%float = true -> (y <? x)%float = false.
Proof. intros. float_order. Qed.

Lemma leb_refl (x : float) : is_nan x = false -> (x <=? x)%float = true.
Proof. intros. float_order. Qed.

Lemma leb_trans (x y z : float) :
  (x <=? y)%float = true -> (y <=? z)%float = true ->
  (x <=? z)%float = true.
Proof. intros. float_order. Qed.

Lemma leb_ltb_trans (x y z : float) :
  (x <=? y)%float = true -> (y <? z)%float = true -> (x <? z)%float = true.
Proof. intros. float_order. Qed.

Lemma ltb_leb_trans (x y z : float) :
  (x <? y)%float = true -> (y <=? z)%float = true -> (x <? z)%float = true.
Proof. intros. float_order. Qed.

(* ================================================================== *)
(** ** Signs of rounded results *)

Lemma shr_1_nonneg (mrs : shr_record) :
  0 <= shr_m mrs -> 0 <= shr_m (shr_1 mrs).
Proof.
  destruct mrs as [m r s]. destruct m as [ | [p | p | ] | p]; simpl; lia.
Qed.

Lemma iter_shr_1_nonneg (p : positive) :
  forall mrs, 0 <= shr_m mrs -> 0 <= shr_m (iter_pos shr_1 p mrs).
Proof.
  induction p as [p IH | p IH | ]; intros mrs H; simpl.
  - apply IH, IH, shr_1_nonneg, H.
  - apply IH, IH, H.
  - apply shr_1_nonneg, H.
Qed.

Lemma shr_fexp_nonneg (m e : Z) (l : location) :
  0 <= m -> 0 <= shr_m (fst (shr_fexp prec emax m e l)).
Proof.
  intros H. unfold shr_fexp, shr.
  assert (H0 : 0 <= shr_m (shr_record_of_loc m l))
    by (destruct l as [ | []]; exact H).
  destruct (fexp prec emax (Zdigits2 m + e) - e); simpl;
    [exact H0 | | exact H0].
  apply iter_shr_1_nonneg, H0.
Qed.

Lemma round_nearest_even_nonneg (m : Z) (l : location) :
  0 <= m -> 0 <= round_nearest_even m l.
Proof.
  intros H. destruct l as [ | []]; simpl; try exact H;
    try destruct (Z.even m); lia.
Qed.

(** Rounding a non-negative mantissa gives a number of the sign asked
    for: a zero, a finite number or an infinity, never a NaN. *)
Lemma binary_round_aux_sign (sx : bool) (mx ex : Z) (lx : location) :
  0 <= mx ->
  match binary_round_aux prec emax sx mx ex lx with
  | S754_nan => False
  | S754_zero s | S754_infinity s | S754_finite s _ _ => s = sx
  end.
Proof.
  intros H. unfold binary_round_aux.
  pose proof (shr_fexp_nonneg mx ex lx H) as H1.
  destruct (shr_fexp prec emax mx ex lx) as [mrs' e'].
  cbn [fst] in H1.
  pose proof (shr_fexp_nonneg _ e' loc_Exact
                (round_nearest_even_nonneg _ (loc_of_shr_record mrs') H1))
    as H2.
  destruct (shr_fexp prec emax _ e' loc_Exact) as [mrs'' e''].
  cbn [fst] in H2.
  destruct (shr_m mrs'') as [ | m | m]; [reflexivity | | lia].
  destruct (e'' <=? emax - prec); reflexivity.
Qed.

Lemma binary_round_sign (sx : bool) (mx : positive) (ex : Z) :
  match binary_round prec emax sx mx ex with
  | S754_nan => False
  | S754_zero s | S754_infinity s | S754_finite s _ _ => s = sx
  end.
Proof.
  unfold binary_round. destruct (shl_align _ _ _) as [mz ez].
  apply binary_round_aux_sign. lia.
Qed.

Lemma SFmul_nonneg (x : spec_float) (m : positive) (e : Z) :
  SFnonneg x -> SFnonneg (SFmul prec emax x (S754_finite false m e)).
Proof.
  destruct x as [s | s | | s mx ex]; cbn [SFnonneg SFmul];
    try (intros ->; reflexivity); try easy.
  intros ->. cbn [xorb].
  pose proof (binary_round_aux_sign false (Z.pos (mx * m)) (ex + e)
                loc_Exact ltac:(lia)) as H.
  destruct (binary_round_aux _ _ _ _ _ _); exact H.
Qed.

Lemma SFadd_nonneg (x y : spec_float) :
  SFnonneg x -> SFnonneg y -> SFnonneg (SFadd prec emax x y).
Proof.
  destruct x as [sx | sx | | sx mx ex], y as [sy | sy | | sy my ey];
    cbn [SFnonneg]; try easy; intros -> ->; try reflexivity.
  cbn [SFadd cond_Zopp]. 
  match goal with
  | |- SFnonneg (binary_normalize _ _ (Z.pos ?a + Z.pos ?b) ?ez _) =>
      change (Z.pos a + Z.pos b) with (Z.pos (a + b));
      cbn [binary_normalize];
      pose proof (binary_round_sign false (a + b) ez) as H
  end.
  destruct (binary_round _ _ _ _ _); exact H.
Qed.

Lemma nonneg_number (x : float) :
  SFnonneg (Prim2SF x) -> (neg_infinity <? x)%float = true.
Proof.
  intros H. rewrite ltb_spec.
  change (Prim2SF neg_infinity) with (S754_infinity true).
  destruct (Prim2SF x) as [s | s | | s m e]; cbn [SFnonneg] in H;
    try contradiction; subst s; reflexivity.
Qed.

Lemma pymax_nonneg (x : float) :
  SFnonneg (Prim2SF (Binary64.pymax 0 x)).
Proof.
  unfold Binary64.pymax.
  destruct (0 <? x)%float eqn:H; [ | reflexivity].
  rewrite ltb_spec in H.
  change (Prim2SF 0) with (S754_zero false) in H.
  destruct (Prim2SF x) as [s | s | | s m e]; cbn in H;
    try discriminate; destruct s; try discriminate; reflexivity.
Qed.

(* ================================================================== *)
(** ** The binary64 mixers: sorting *)

Section Binary64Sorted.

Local Abbreviation skey := Binary64.bpm_sort_key.

Lemma b64_insert_perm (x : Binary64.Song) (l : list Binary64.Song) :
  Permutation (Binary64.insert x l) (x :: l).
Proof.
  induction l as [ | y r IH]; simpl.
  - apply Permutation_refl.
  - destruct (skey y <? skey x)%float.
    + eapply perm_trans; [apply perm_skip, IH | apply perm_swap].
    + apply Permutation_refl.
Qed.

Lemma b64_sorted_perm (l : list Binary64.Song) :
  Permutation (Binary64.sorted l) l.
Proof.
  induction l as [ | x r IH]; simpl.
  - apply perm_nil.
  - eapply perm_trans; [apply b64_insert_perm | now apply perm_skip].
Qed.

Lemma b64_sorted_length (l : list Binary64.Song) :
  List.length (Binary64.sorted l) = List.length l.
Proof. apply Permutation_length, b64_sorted_perm. Qed.

Lemma b64_sorted_nonempty (l : list Binary64.Song) :
  l <> [] -> Binary64.sorted l <> [].
Proof.
  intros Hl E. apply Hl. apply length_zero_iff_nil.
  rewrite <- b64_sorted_length, E. reflexivity.
Qed.

(** When every key is a number, the head of the sorted list is the
    leftmost minimum of the input. *)
Lemma b64_sorted_head (l : list Binary64.Song) (h : Binary64.Song)
      (t : list Binary64.Song) :
  (forall x, In x l -> is_nan (skey x) = false) ->
  Binary64.sorted l = h :: t ->
  exists before after,
    l = before ++ h :: after /\
    (forall x, In x before -> (skey h <? skey x)%float = true) /\
    (forall x, In x after -> (skey h <=? skey x)%float = true).
Proof.
  revert h t. induction l as [ | x r IH]; intros h t Hnum; simpl.
  - discriminate.
  - assert (Hx : is_nan (skey x) = false) by (apply Hnum; now left).
    assert (Hr : forall y, In y r -> is_nan (skey y) = false)
      by (intros y Hy; apply Hnum; now right).
    destruct (Binary64.sorted r) as [ | h' t'] eqn:Hs.
    + simpl. intros [= <- <-].
      assert (r = []) as ->.
      { apply length_zero_iff_nil. rewrite <- b64_sorted_length, Hs.
        reflexivity. }
      exists [], []. repeat split; intros y [].
    + destruct (IH h' t' Hr eq_refl) as (before & after & -> & Hb & Ha).
      assert (Hh' : is_nan (skey h') = false).
      { apply Hr. apply in_or_app. right. now left. }
      simpl. destruct (skey h' <? skey x)%float eqn:Hlt.
      * intros [= <- <-]. exists (x :: before), after.
        repeat split; [ | exact Ha].
        intros y [<- | Hy]; [exact Hlt | now apply Hb].
      * intros [= <- <-]. exists [], (before ++ h' :: after).
        repeat split; [intros y [] | ].
        apply nltb_leb in Hlt; [ | exact Hh' | exact Hx].
        intros y Hy. apply in_app_or in Hy.
        destruct Hy as [Hy | [<- | Hy]].
        -- apply leb_trans with (y := skey h'); [exact Hlt | ].
           apply ltb_leb. now apply Hb.
        -- exact Hlt.
        -- apply leb_trans with (y := skey h'); [exact Hlt | ].
           now apply Ha.
Qed.

Lemma b64_insert_ascending (x : Binary64.Song) (l : list Binary64.Song) :
  is_nan (skey x) = false ->
  (forall y, In y l -> is_nan (skey y) = false) ->
  StronglySorted (fun a c => (skey a <=? skey c)%float = true) l ->
  StronglySorted (fun a c => (skey a <=? skey c)%float = true)
                 (Binary64.insert x l).
Proof.
  intros Hx Hl. induction 1 as [ | y r Hr IH Hy]; simpl.
  - constructor; constructor.
  - assert (Hny : is_nan (skey y) = false) by (apply Hl; now left).
    destruct (skey y <? skey x)%float eqn:Hlt.
    + constructor; [apply IH; intros z Hz; apply Hl; now right | ].
      rewrite Forall_forall in *. intros z Hz.
      apply (Permutation_in _ (b64_insert_perm x r)) in Hz.
      destruct Hz as [<- | Hz]; [now apply ltb_leb | now apply Hy].
    + apply nltb_leb in Hlt; [ | exact Hny | exact Hx].
      constructor; [now constructor | ].
      constructor; [exact Hlt | ].
      rewrite Forall_forall in *. intros z Hz.
      apply leb_trans with (y := skey y); [exact Hlt | now apply Hy].
Qed.

Lemma b64_sorted_ascending (l : list Binary64.Song) :
  (forall y, In y l -> is_nan (skey y) = false) ->
  StronglySorted (fun a c => (skey a <=? skey c)%float = true)
                 (Binary64.sorted l).
Proof.
  induction l as [ | x r IH]; intros Hl; simpl.
  - constructor.
  - assert (Hr : forall y, In y r -> is_nan (skey y) = false)
      by (intros y Hy; apply Hl; now right).
    apply b64_insert_ascending; [apply Hl; now left | | now apply IH].
    intros y Hy. apply Hr.
    exact (Permutation_in _ (b64_sorted_perm r) Hy).
Qed.

End Binary64Sorted.

(* ================================================================== *)
(** ** The binary64 mixers: the greedy loop *)

Section Binary64Greedy.

Variable transition_score :
  Binary64.Song -> Binary64.Song -> result (float * string).
Variable songs_sorted : list Binary64.Song.

Local Abbreviation scored :=
  (Binary64.scored transition_score songs_sorted).
Local Abbreviation selects :=
  (Binary64.selects transition_score songs_sorted).
Local Abbreviation greedy_run :=
  (Binary64.greedy_run transition_score songs_sorted).
Local Abbreviation scan := (Binary64.scan transition_score songs_sorted).
Local Abbreviation extend_once :=
  (Binary64.extend_once transition_score songs_sorted).
Local Abbreviation loop := (Binary64.extend transition_score songs_sorted).

Lemma b64_scored_fun (a : Binary64.Song) (j : nat) (s s' : float) :
  scored a j s -> scored a j s' -> s = s'.
Proof.
  intros (c & t & Hc & Hs) (c' & t' & Hc' & Hs'). congruence.
Qed.

(** What one scan returns when the scores it meets are numbers: either
    nothing beat the starting score, or the leftmost maximum of the
    scanned candidates did. *)
Lemma b64_scan_spec (a : Binary64.Song) (remaining : list nat) :
  forall (bi : option nat) (bs : float),
    is_nan bs = false ->
    (forall j, In j remaining ->
               exists s, scored a j s /\ is_nan s = false) ->
    exists r,
      scan a remaining bi bs = Ok r /\
      ((r = bi /\
        forall j s, In j remaining -> scored a j s ->
                    (s <=? bs)%float = true) \/
       (exists before best after sb,
           remaining = before ++ best :: after /\
           r = Some best /\
           scored a best sb /\
           (bs <? sb)%float = true /\
           (forall j s, In j before -> scored a j s ->
                        (s <? sb)%float = true) /\
           (forall j s, In j after -> scored a j s ->
                        (s <=? sb)%float = true))).
Proof.
  induction remaining as [ | idx rest IH]; intros bi bs Hbs Hall.
  - exists bi. split; [reflexivity | left]. split; [reflexivity | ].
    intros j s [].
  - destruct (Hall idx (or_introl eq_refl)) as (s & Hs & Hns).
    pose proof Hs as (c & t & Hc & Ht).
    assert (Hrest : forall j, In j rest ->
                              exists s, scored a j s /\ is_nan s = false)
      by (intros j Hj; apply Hall; now right).
    simpl. rewrite (index_Some _ _ _ Hc). simpl. rewrite Ht. simpl.
    destruct (bs <? s)%float eqn:Hlt.
    + destruct (IH (Some idx) s Hns Hrest) as (r & Hr & Hcase).
      exists r. split; [exact Hr | right].
      destruct Hcase as [[-> Hle] | Hcase].
      * exists [], idx, rest, s. repeat split; try assumption.
        intros j s' [].
      * destruct Hcase as (before & best & after & sb & -> & -> & Hsb
                           & Hgt & Hb & Ha).
        exists (idx :: before), best, after, sb. repeat split;
          try assumption.
        -- now apply ltb_trans with (y := s).
        -- intros j s' [<- | Hj] Hs'.
           ++ now rewrite (b64_scored_fun _ _ _ _ Hs' Hs).
           ++ now apply (Hb j).
    + apply nltb_leb in Hlt; [ | exact Hbs | exact Hns].
      destruct (IH bi bs Hbs Hrest) as (r & Hr & Hcase).
      exists r. split; [exact Hr | ].
      destruct Hcase as [[-> Hle] | Hcase].
      * left. split; [reflexivity | ].
        intros j s' [<- | Hj] Hs'.
        -- now rewrite (b64_scored_fun _ _ _ _ Hs' Hs).
        -- now apply (Hle j).
      * right.
        destruct Hcase as (before & best & after & sb & -> & -> & Hsb
                           & Hgt & Hb & Ha).
        exists (idx :: before), best, after, sb. repeat split;
          try assumption.
        intros j s' [<- | Hj] Hs'.
        -- rewrite (b64_scored_fun _ _ _ _ Hs' Hs).
           now apply leb_ltb_trans with (y := bs).
        -- now apply (Hb j).
Qed.

(** One iteration of the loop body makes the greedy choice, when every
    candidate scores above minus infinity. *)
Lemma b64_extend_once_selects (pre : list nat) (cur : nat)
      (a : Binary64.Song) (remaining : list nat) :
  nth_error songs_sorted cur = Some a ->
  remaining <> [] ->
  (forall j, In j remaining ->
             exists s, scored a j s /\ (neg_infinity <? s)%float = true) ->
  exists best rest,
    extend_once (pre ++ [cur]) remaining
    = Ok ((pre ++ [cur]) ++ [best], rest) /\
    selects a remaining best rest.
Proof.
  intros Ha Hne Hall. unfold Binary64.extend_once.
  rewrite index_last_snoc. simpl. rewrite (index_Some _ _ _ Ha). simpl.
  assert (Hnum : forall j, In j remaining ->
                           exists s, scored a j s /\ is_nan s = false).
  { intros j Hj. destruct (Hall j Hj) as (s & Hs & Hgt).
    exists s. split; [exact Hs | ]. now apply ltb_number in Hgt. }
  destruct (b64_scan_spec a remaining None neg_infinity eq_refl Hnum)
    as (r & Hr & Hcase).
  rewrite Hr. simpl.
  destruct Hcase as [[-> Hle] | Hcase].
  - destruct remaining as [ | j rest]; [congruence | ].
    destruct (Hall j (or_introl eq_refl)) as (s & Hs & Hgt).
    specialize (Hle j s (or_introl eq_refl) Hs).
    apply leb_nltb in Hle. congruence.
  - destruct Hcase as (before & best & after & sb & -> & -> & Hsb
                       & _ & Hb & Hafter).
    assert (Hnin : ~ In best before).
    { intros Hin. specialize (Hb best sb Hin Hsb).
      rewrite ltb_irrefl in Hb. discriminate. }
    rewrite (remove_middle _ _ _ Hnin). simpl.
    exists best, (before ++ after). split; [reflexivity | ].
    exists before, after, sb. repeat split; try assumption.
    + intros j Hj.
      destruct (Hall j) as (s & Hs & _); [apply in_or_app; now left | ].
      exists s. split; [exact Hs | now apply (Hb j)].
    + intros j Hj.
      destruct (Hall j) as (s & Hs & _);
        [apply in_or_app; right; now right | ].
      exists s. split; [exact Hs | now apply (Hafter j)].
Qed.

Lemma b64_extend_once_shape (path remaining path' remaining' : list nat) :
  extend_once path remaining = Ok (path', remaining') ->
  (exists best, path' = path ++ [best]) /\
  List.length remaining = S (List.length remaining').
Proof.
  unfold Binary64.extend_once.
  destruct (PyList.index_last path) as [last_idx | e]; simpl;
    [ | discriminate].
  destruct (PyList.index songs_sorted last_idx) as [a | e]; simpl;
    [ | discriminate].
  destruct (scan a remaining None neg_infinity) as [[best | ] | e]; simpl;
    try discriminate.
  destruct (PyList.remove best remaining) as [r' | e] eqn:Hrm; simpl;
    [ | discriminate].
  intros [= <- <-]. split; [now exists best | ].
  exact (remove_length _ _ _ Hrm).
Qed.

(** The loop never runs out of the fuel its callers give it. *)
Lemma b64_extend_fuel (fuel : nat) :
  forall path remaining,
    (List.length remaining <= fuel)%nat ->
    loop fuel path remaining <> None.
Proof.
  induction fuel as [ | fuel IH]; intros path remaining Hlen.
  - destruct remaining; simpl in *; [discriminate | lia].
  - destruct remaining as [ | j rest]; [discriminate | ].
    cbn [Binary64.extend].
    destruct (extend_once path (j :: rest)) as [[path' rest'] | e] eqn:Hone;
      [ | discriminate].
    apply IH. apply b64_extend_once_shape in Hone.
    destruct Hone as [_ Hlen']. simpl in *. lia.
Qed.

(** When every track scores above minus infinity after every track, the
    loop finishes and its path is a run of greedy steps. *)
Lemma b64_extend_greedy (fuel : nat) :
  (forall a c, In a songs_sorted -> In c songs_sorted ->
               exists s t, transition_score a c = Ok (s, t) /\
                           (neg_infinity <? s)%float = true) ->
  forall pre cur remaining,
    (List.length remaining <= fuel)%nat ->
    (cur < List.length songs_sorted)%nat ->
    (forall j, In j remaining -> (j < List.length songs_sorted)%nat) ->
    exists final,
      loop fuel (pre ++ [cur]) remaining = Some (Ok final) /\
      greedy_run (pre ++ [cur]) remaining final.
Proof.
  intros Hscore.
  induction fuel as [ | fuel IH]; intros pre cur remaining Hlen Hcur Hrem.
  - destruct remaining; simpl in Hlen; [ | lia].
    eexists. split; [reflexivity | constructor].
  - destruct remaining as [ | j rest].
    + eexists. split; [reflexivity | constructor].
    + destruct (nth_error songs_sorted cur) as [a | ] eqn:Ha;
        [ | apply nth_error_None in Ha; lia].
      assert (Hall : forall i, In i (j :: rest) ->
                               exists s, scored a i s /\
                                         (neg_infinity <? s)%float = true).
      { intros i Hi. specialize (Hrem i Hi).
        destruct (nth_error songs_sorted i) as [c | ] eqn:Hc;
          [ | apply nth_error_None in Hc; lia].
        destruct (Hscore a c) as (s & t & Hs & Hgt);
          [now apply nth_error_In with cur
          | now apply nth_error_In with i | ].
        exists s. split; [ | exact Hgt]. exists c, t. now split. }
      destruct (b64_extend_once_selects pre cur a (j :: rest) Ha
                  ltac:(discriminate) Hall)
        as (best & rest' & Hone & Hsel).
      cbn [Binary64.extend]. rewrite Hone.
      pose proof Hsel as (before & after & sb & Hsplit & -> & _).
      destruct (IH (pre ++ [cur]) best (before ++ after))
        as (final & Hext & Hrun).
      * assert (Hl : List.length (j :: rest)
                     = S (List.length (before ++ after))).
        { rewrite Hsplit, !length_app. simpl. lia. }
        simpl in Hlen, Hl. lia.
      * apply Hrem. rewrite Hsplit. apply in_or_app. right. now left.
      * intros i Hi. apply Hrem. rewrite Hsplit.
        apply in_app_or in Hi. apply in_or_app.
        destruct Hi; [now left | right; now right].
      * exists final. split; [exact Hext | ].
        eapply Binary64.greedy_next; try eassumption;
          [reflexivity | discriminate].
Qed.

Lemma b64_greedy_run_perm (path remaining final : list nat) :
  greedy_run path remaining final ->
  Permutation final (path ++ remaining) /\
  exists more, final = path ++ more.
Proof.
  induction 1 as [path | path pre cur a remaining best rest final
                          Hpath Ha Hne Hsel Hrun [IHp [more IHm]]].
  - rewrite app_nil_r. split; [apply Permutation_refl | ].
    exists []. now rewrite app_nil_r.
  - destruct Hsel as (before & after & sb & -> & -> & _).
    split.
    + eapply perm_trans; [exact IHp | ].
      rewrite <- app_assoc. apply Permutation_app_head.
      simpl. apply Permutation_middle.
    + exists (best :: more). rewrite IHm. now rewrite <- app_assoc.
Qed.

End Binary64Greedy.

(* ================================================================== *)
(** ** The binary64 mixers: the two scores *)

Section Binary64Scores.

Local Open Scope float_scope.

Lemma b64_bpm_first_table (m : Spec.MixType) :
  Binary64.dict_get Binary64.BpmFirst.MIX_SCORES (Spec.label m) 0
  = Binary64.Formula.table m.
Proof. destruct m; reflexivity. Qed.

Lemma b64_harmonics_first_table (m : Spec.MixType) :
  Binary64.dict_get Binary64.HarmonicsFirst.MIX_SCORES (Spec.label m) 0
  = Binary64.Formula.table m.
Proof. destruct m; reflexivity. Qed.

Lemma b64_table_values (m : Spec.MixType) :
  In (Binary64.Formula.table m) Binary64.table_values.
Proof. destruct m; simpl; tauto. Qed.

(** The BPM-first score is the formula of the specification, operation
    for operation. *)
Lemma b64_bpm_first_score (a b : Binary64.Song) (m : Spec.MixType) :
  classify_mix_type (Binary64.key a) (Binary64.key b)
  = Ok (Spec.label m) ->
  Binary64.BpmFirst.transition_score a b
  = Ok (Binary64.Formula.bpm_first_score m (Binary64.bpm a)
          (Binary64.bpm b), Spec.label m).
Proof.
  intros Hc.
  unfold Binary64.BpmFirst.transition_score,
    Binary64.BpmFirst.transition_score_w.
  rewrite Hc. cbn [bind]. rewrite b64_bpm_first_table.
  destruct (Binary64.bpm a), (Binary64.bpm b); reflexivity.
Qed.

Lemma b64_harmonics_first_score (a b : Binary64.Song) (m : Spec.MixType) :
  classify_mix_type (Binary64.key a) (Binary64.key b)
  = Ok (Spec.label m) ->
  Binary64.HarmonicsFirst.transition_score a b
  = Ok (Binary64.Formula.harmonic_first_score m (Binary64.bpm a)
          (Binary64.bpm b), Spec.label m).
Proof.
  intros Hc.
  unfold Binary64.HarmonicsFirst.transition_score,
    Binary64.HarmonicsFirst.transition_score_w.
  rewrite Hc. cbn [bind]. rewrite b64_harmonics_first_table.
  destruct (Binary64.bpm a), (Binary64.bpm b); reflexivity.
Qed.

Lemma b64_bpm_first_raises (a b : Binary64.Song) (e : exn) :
  classify_mix_type (Binary64.key a) (Binary64.key b) = Raise e ->
  Binary64.BpmFirst.transition_score a b = Raise e.
Proof.
  intros Hc.
  unfold Binary64.BpmFirst.transition_score,
    Binary64.BpmFirst.transition_score_w.
  now rewrite Hc.
Qed.

Lemma b64_harmonics_first_raises (a b : Binary64.Song) (e : exn) :
  classify_mix_type (Binary64.key a) (Binary64.key b) = Raise e ->
  Binary64.HarmonicsFirst.transition_score a b = Raise e.
Proof.
  intros Hc.
  unfold Binary64.HarmonicsFirst.transition_score,
    Binary64.HarmonicsFirst.transition_score_w.
  now rewrite Hc.
Qed.

(** A score that was returned comes with the classification. *)
Lemma b64_bpm_first_inv (a b : Binary64.Song) (s : float) (lbl : string) :
  Binary64.BpmFirst.transition_score a b = Ok (s, lbl) ->
  exists m,
    lbl = Spec.label m /\
    classify_mix_type (Binary64.key a) (Binary64.key b) = Ok lbl /\
    s = Binary64.Formula.bpm_first_score m (Binary64.bpm a)
          (Binary64.bpm b).
Proof.
  intros Hs.
  destruct (classify_mix_type (Binary64.key a) (Binary64.key b))
    as [l | e] eqn:Hc.
  - destruct (classify_label _ _ _ Hc) as [m ->].
    rewrite (b64_bpm_first_score a b m Hc) in Hs.
    injection Hs as <- <-. now exists m.
  - rewrite (b64_bpm_first_raises a b e Hc) in Hs. discriminate.
Qed.

Lemma b64_harmonics_first_inv (a b : Binary64.Song) (s : float)
      (lbl : string) :
  Binary64.HarmonicsFirst.transition_score a b = Ok (s, lbl) ->
  exists m,
    lbl = Spec.label m /\
    classify_mix_type (Binary64.key a) (Binary64.key b) = Ok lbl /\
    s = Binary64.Formula.harmonic_first_score m (Binary64.bpm a)
          (Binary64.bpm b).
Proof.
  intros Hs.
  destruct (classify_mix_type (Binary64.key a) (Binary64.key b))
    as [l | e] eqn:Hc.
  - destruct (classify_label _ _ _ Hc) as [m ->].
    rewrite (b64_harmonics_first_score a b m Hc) in Hs.
    injection Hs as <- <-. now exists m.
  - rewrite (b64_harmonics_first_raises a b e Hc) in Hs. discriminate.
Qed.

(** C5. In binary64, the BPM-first score of a pair of tracks is
    [bpmScore * 0.40 + table[classify(keyA, keyB)] * 0.60] with
    [bpmScore = max(0, 10 - |bpmB - bpmA|)], and 0 when a BPM is absent,
    every operation rounded as the code rounds it; the weight
    [1 - weight_bpm] of the code is the float 0.60; the table holds the
    ten fixed scores; the mix type comes back with the score, and the
    score exists exactly when the classification does.  From 126/8B to
    130/9A the score is 2.4000000000000004. *)
Theorem bpm_first_transition_score :
  (forall m,
      Binary64.dict_get Binary64.BpmFirst.MIX_SCORES (Spec.label m) 0
      = Binary64.Formula.table m) /\
  1 - Binary64.BpmFirst.default_weight_bpm = 0.60 /\
  (forall a b lbl,
      classify_mix_type (Binary64.key a) (Binary64.key b) = Ok lbl ->
      exists m,
        lbl = Spec.label m /\
        Binary64.BpmFirst.transition_score a b
        = Ok (Binary64.Formula.bpm_first_score m (Binary64.bpm a)
                (Binary64.bpm b), lbl)) /\
  (forall a b e,
      classify_mix_type (Binary64.key a) (Binary64.key b) = Raise e ->
      Binary64.BpmFirst.transition_score a b = Raise e) /\
  Binary64.BpmFirst.transition_score
    (Binary64.track 126 "8B") (Binary64.track 130 "9A")
  = Ok (2.4000000000000004, "non-harmonic").
Proof.
  split; [exact b64_bpm_first_table | ].
  split; [reflexivity | ].
  split; [ | split; [exact b64_bpm_first_raises | reflexivity]].
  intros a b lbl Hc. destruct (classify_label _ _ _ Hc) as [m ->].
  exists m. split; [reflexivity | now apply b64_bpm_first_score].
Qed.

Lemma bpm_first_transition_score_witness :
  exists m,
    "scale change" = Spec.label m /\
    Binary64.BpmFirst.transition_score
      (Binary64.track 126 "8B") (Binary64.track 128 "8A")
    = Ok (Binary64.Formula.bpm_first_score m (Some 126) (Some 128),
          "scale change").
Proof.
  exact (proj1 (proj2 (proj2 bpm_first_transition_score))
               (Binary64.track 126 "8B") (Binary64.track 128 "8A")
               "scale change" eq_refl).
Defined.

(** C6. In binary64, the harmonic-first score of a pair of tracks is
    [table[classify(keyA, keyB)] * 10 - |bpmB - bpmA| * 0.15], the penalty
    being 0 when a BPM is absent, every operation rounded as the code
    rounds it, and the mix type comes back with the score.  For a
    non-harmonic pair three BPM apart the score is
    -0.44999999999999996. *)
Theorem harmonics_first_transition_score :
  (forall m,
      Binary64.dict_get Binary64.HarmonicsFirst.MIX_SCORES (Spec.label m) 0
      = Binary64.Formula.table m) /\
  (forall a b lbl,
      classify_mix_type (Binary64.key a) (Binary64.key b) = Ok lbl ->
      exists m,
        lbl = Spec.label m /\
        Binary64.HarmonicsFirst.transition_score a b
        = Ok (Binary64.Formula.harmonic_first_score m (Binary64.bpm a)
                (Binary64.bpm b), lbl)) /\
  (forall a b e,
      classify_mix_type (Binary64.key a) (Binary64.key b) = Raise e ->
      Binary64.HarmonicsFirst.transition_score a b = Raise e) /\
  Binary64.HarmonicsFirst.transition_score
    (Binary64.track 126 "8A") (Binary64.track 129 "3B")
  = Ok (-0.44999999999999996, "non-harmonic").
Proof.
  split; [exact b64_harmonics_first_table | ].
  split; [ | split; [exact b64_harmonics_first_raises | reflexivity]].
  intros a b lbl Hc. destruct (classify_label _ _ _ Hc) as [m ->].
  exists m. split; [reflexivity | now apply b64_harmonics_first_score].
Qed.

Lemma harmonics_first_transition_score_witness :
  exists m,
    "scale change" = Spec.label m /\
    Binary64.HarmonicsFirst.transition_score
      (Binary64.track 126 "8B") (Binary64.track 128 "8A")
    = Ok (Binary64.Formula.harmonic_first_score m (Some 126) (Some 128),
          "scale change").
Proof.
  exact (proj1 (proj2 harmonics_first_transition_score)
               (Binary64.track 126 "8B") (Binary64.track 128 "8A")
               "scale change" eq_refl).
Defined.

End Binary64Scores.

(* ================================================================== *)
(** ** The binary64 scores over whole tempo differences *)

Lemma in_zrange_from (n : nat) :
  forall z x, In x (Binary64.zrange_from z n) <-> z <= x < z + Z.of_nat n.
Proof.
  induction n as [ | n IH]; intros z x; cbn [Binary64.zrange_from In].
  - lia.
  - rewrite IH. lia.
Qed.

Section Binary64Gaps.

Local Open Scope float_scope.

Local Abbreviation bf := Binary64.bpm_first_at.
Local Abbreviation hf := Binary64.harmonics_first_at.

(** Exhaustive evaluation over the whole tempos 0 to 999: the
    difference of two of them is computed exactly. *)
Lemma whole_gaps_checked :
  forallb (fun x => forallb (fun y =>
    Leibniz.eqb (abs (Binary64.of_Z y - Binary64.of_Z x))
                (Binary64.of_Z (Z.abs (y - x))))
    (Binary64.zrange_from 0 1000)) (Binary64.zrange_from 0 1000) = true.
Proof. vm_compute. reflexivity. Qed.

Lemma whole_gap (x y : Z) :
  (0 <= x <= 999)%Z -> (0 <= y <= 999)%Z ->
  abs (Binary64.of_Z y - Binary64.of_Z x)
  = Binary64.of_Z (Z.abs (y - x)).
Proof.
  intros Hx Hy.
  pose proof whole_gaps_checked as H.
  rewrite forallb_forall in H.
  specialize (H x ltac:(apply in_zrange_from; lia)).
  rewrite forallb_forall in H.
  specialize (H y ltac:(apply in_zrange_from; lia)).
  now apply Leibniz.eqb_spec in H.
Qed.

(** Exhaustive evaluation over the table values and the whole
    differences: the BPM-first score decreases over the differences 0 to
    10 and is constant from 10 on; the harmonic-first score decreases at
    every step and is never minus infinity. *)
Lemma bpm_first_checked :
  forallb (fun h =>
    forallb (fun d1 => forallb (fun d2 =>
      if (d1 <? d2)%Z then bf h d2 <? bf h d1 else true)
      (Binary64.zrange_from 0 11)) (Binary64.zrange_from 0 11) &&
    forallb (fun d => Leibniz.eqb (bf h d) (bf h 10))
      (Binary64.zrange_from 10 990))
    Binary64.table_values = true.
Proof. vm_compute. reflexivity. Qed.

Lemma harmonics_first_checked :
  forallb (fun h =>
    forallb (fun d =>
      (hf h (d + 1) <? hf h d) &&
      (neg_infinity <? hf h d) &&
      (neg_infinity <? hf h (d + 1)))
      (Binary64.zrange_from 0 999))
    Binary64.table_values = true.
Proof. vm_compute. reflexivity. Qed.

(** Below a difference of 10 the BPM-first score decreases. *)
Lemma bpm_first_at_low (h : float) (d1 d2 : Z) :
  In h Binary64.table_values ->
  (0 <= d1 < d2)%Z -> (d2 <= 10)%Z ->
  (bf h d2 <? bf h d1) = true.
Proof.
  intros Hh Hd1 Hd2. pose proof bpm_first_checked as H.
  rewrite forallb_forall in H. specialize (H h Hh).
  apply andb_prop in H. destruct H as [H _].
  rewrite forallb_forall in H.
  specialize (H d1 ltac:(apply in_zrange_from; lia)).
  rewrite forallb_forall in H.
  specialize (H d2 ltac:(apply in_zrange_from; lia)).
  destruct (Z.ltb_spec d1 d2); [exact H | lia].
Qed.

(** From a difference of 10 on it is constant. *)
Lemma bpm_first_at_flat (h : float) (d : Z) :
  In h Binary64.table_values ->
  (10 <= d <= 999)%Z ->
  bf h d = bf h 10.
Proof.
  intros Hh Hd. pose proof bpm_first_checked as H.
  rewrite forallb_forall in H. specialize (H h Hh).
  apply andb_prop in H. destruct H as [_ H].
  rewrite forallb_forall in H.
  specialize (H d ltac:(apply in_zrange_from; lia)).
  now apply Leibniz.eqb_spec in H.
Qed.

Lemma harmonics_first_at_step (h : float) (d : Z) :
  In h Binary64.table_values ->
  (0 <= d <= 998)%Z ->
  (hf h (d + 1) <? hf h d) = true /\
  (neg_infinity <? hf h d) = true /\
  (neg_infinity <? hf h (d + 1)) = true.
Proof.
  intros Hh Hd. pose proof harmonics_first_checked as H.
  rewrite forallb_forall in H. specialize (H h Hh).
  rewrite forallb_forall in H.
  specialize (H d ltac:(apply in_zrange_from; lia)).
  apply andb_prop in H. destruct H as [H H3].
  apply andb_prop in H. destruct H as [H1 H2]. now repeat split.
Qed.

(** The harmonic-first score decreases with the difference. *)
Lemma harmonics_first_at_decreasing (h : float) (d1 d2 : Z) :
  In h Binary64.table_values ->
  (0 <= d1 < d2)%Z -> (d2 <= 999)%Z ->
  (hf h d2 <? hf h d1) = true.
Proof.
  intros Hh Hd1 Hd2.
  assert (Hind : forall n : nat,
             (d1 + 1 + Z.of_nat n <= 999)%Z ->
             (hf h (d1 + 1 + Z.of_nat n) <? hf h d1) = true).
  { induction n as [ | n IH]; intros Hn.
    - rewrite Z.add_0_r.
      apply (harmonics_first_at_step h d1 Hh). lia.
    - apply ltb_trans with (y := hf h (d1 + 1 + Z.of_nat n));
        [ | apply IH; lia].
      replace (d1 + 1 + Z.of_nat (S n))%Z
        with (d1 + 1 + Z.of_nat n + 1)%Z by lia.
      apply (harmonics_first_at_step h _ Hh). lia. }
  specialize (Hind (Z.to_nat (d2 - d1 - 1))).
  replace (d1 + 1 + Z.of_nat (Z.to_nat (d2 - d1 - 1)))%Z with d2 in Hind
    by lia.
  apply Hind. lia.
Qed.

Lemma harmonics_first_at_above (h : float) (d : Z) :
  In h Binary64.table_values ->
  (0 <= d <= 999)%Z ->
  (neg_infinity <? hf h d) = true.
Proof.
  intros Hh Hd. destruct (Z.eq_dec d 999) as [-> | Hne].
  - apply (harmonics_first_at_step h 998 Hh). lia.
  - apply (harmonics_first_at_step h d Hh). lia.
Qed.

(** The two formulas on whole tempos. *)
Lemma bpm_first_whole (m : Spec.MixType) (x y : Z) :
  (0 <= x <= 999)%Z -> (0 <= y <= 999)%Z ->
  Binary64.Formula.bpm_first_score m (Some (Binary64.of_Z x))
    (Some (Binary64.of_Z y))
  = bf (Binary64.Formula.table m) (Z.abs (y - x)).
Proof.
  intros Hx Hy.
  unfold Binary64.Formula.bpm_first_score, Binary64.Formula.bpm_score.
  rewrite (whole_gap x y Hx Hy). reflexivity.
Qed.

Lemma harmonics_first_whole (m : Spec.MixType) (x y : Z) :
  (0 <= x <= 999)%Z -> (0 <= y <= 999)%Z ->
  Binary64.Formula.harmonic_first_score m (Some (Binary64.of_Z x))
    (Some (Binary64.of_Z y))
  = hf (Binary64.Formula.table m) (Z.abs (y - x)).
Proof.
  intros Hx Hy.
  unfold Binary64.Formula.harmonic_first_score,
    Binary64.Formula.bpm_penalty.
  rewrite (whole_gap x y Hx Hy). reflexivity.
Qed.

(** C7, as stated, fails.  For the BPM-first score: from a difference of
    10 on the closeness term is clamped at 0, so the differences 10 and 20
    give one score for one category; and a difference too small to change
    [10.0 - diff] changes nothing.  For the harmonic-first score: a
    penalty below half the spacing of the floats around the base score is
    rounded away, so two differences give one score, which no decreasing
    affine function allows. *)
Lemma bpm_first_score_flat_from_ten :
  (exists s,
      Binary64.BpmFirst.transition_score
        (Binary64.track 100 "8A") (Binary64.track 110 "9A")
      = Ok (s, "+1 mix") /\
      Binary64.BpmFirst.transition_score
        (Binary64.track 100 "8A") (Binary64.track 120 "9A")
      = Ok (s, "+1 mix") /\
      (abs (110 - 100) <? abs (120 - 100)) = true) /\
  (exists s,
      Binary64.BpmFirst.transition_score
        (Binary64.track 1 "8A") (Binary64.track 1 "9A")
      = Ok (s, "+1 mix") /\
      Binary64.BpmFirst.transition_score
        (Binary64.track 1 "8A") (Binary64.track 1.0000000000000002 "9A")
      = Ok (s, "+1 mix") /\
      (abs (1 - 1) <? abs (1.0000000000000002 - 1)) = true) /\
  (exists s,
      Binary64.HarmonicsFirst.transition_score
        (Binary64.track 120 "8A") (Binary64.track 120 "9A")
      = Ok (s, "+1 mix") /\
      Binary64.HarmonicsFirst.transition_score
        (Binary64.track 120 "8A")
        (Binary64.track 120.00000000000001 "9A")
      = Ok (s, "+1 mix") /\
      (abs (120 - 120) <? abs (120.00000000000001 - 120)) = true).
Proof.
  repeat split; eexists; repeat split; vm_compute; reflexivity.
Qed.

(** C7, amended. For tracks whose tempos are whole numbers between 0 and
    999 and a fixed harmonic category, in binary64: the BPM-first score
    is strictly decreasing in [|bpmB - bpmA|] while the smaller
    difference is below 10, and the same from 10 on; the harmonic-first
    score is strictly decreasing in [|bpmB - bpmA|]. *)
Theorem score_decreasing_in_bpm_gap :
  forall a b a' b' x y x' y' lbl,
    (0 <= x <= 999)%Z -> (0 <= y <= 999)%Z ->
    (0 <= x' <= 999)%Z -> (0 <= y' <= 999)%Z ->
    Binary64.whole_bpm x a -> Binary64.whole_bpm y b ->
    Binary64.whole_bpm x' a' -> Binary64.whole_bpm y' b' ->
    classify_mix_type (Binary64.key a) (Binary64.key b) = Ok lbl ->
    classify_mix_type (Binary64.key a') (Binary64.key b') = Ok lbl ->
    (Z.abs (y - x) < Z.abs (y' - x'))%Z ->
    (exists s s',
        Binary64.BpmFirst.transition_score a b = Ok (s, lbl) /\
        Binary64.BpmFirst.transition_score a' b' = Ok (s', lbl) /\
        ((Z.abs (y - x) < 10)%Z -> (s' <? s) = true) /\
        ((10 <= Z.abs (y - x))%Z -> s' = s)) /\
    (exists s s',
        Binary64.HarmonicsFirst.transition_score a b = Ok (s, lbl) /\
        Binary64.HarmonicsFirst.transition_score a' b' = Ok (s', lbl) /\
        (s' <? s) = true).
Proof.
  intros a b a' b' x y x' y' lbl Hx Hy Hx' Hy' Ha Hb Ha' Hb' Hc Hc' Hlt.
  destruct (classify_label _ _ _ Hc) as [m ->].
  pose proof (b64_table_values m) as Hh.
  unfold Binary64.whole_bpm in *.
  split.
  - rewrite (b64_bpm_first_score a b m Hc),
      (b64_bpm_first_score a' b' m Hc'), Ha, Hb, Ha', Hb'.
    rewrite (bpm_first_whole m x y Hx Hy),
      (bpm_first_whole m x' y' Hx' Hy').
    eexists. eexists. split; [reflexivity | split; [reflexivity | ]].
    split.
    + intros Hlow.
      destruct (Z_le_gt_dec (Z.abs (y' - x')) 10) as [Hle | Hgt].
      * apply bpm_first_at_low; [exact Hh | lia | exact Hle].
      * rewrite (bpm_first_at_flat _ (Z.abs (y' - x')) Hh) by lia.
        apply bpm_first_at_low; [exact Hh | lia | lia].
    + intros Hhigh.
      rewrite (bpm_first_at_flat _ (Z.abs (y - x)) Hh) by lia.
      rewrite (bpm_first_at_flat _ (Z.abs (y' - x')) Hh) by lia.
      reflexivity.
  - rewrite (b64_harmonics_first_score a b m Hc),
      (b64_harmonics_first_score a' b' m Hc'), Ha, Hb, Ha', Hb'.
    rewrite (harmonics_first_whole m x y Hx Hy),
      (harmonics_first_whole m x' y' Hx' Hy').
    eexists. eexists. split; [reflexivity | split; [reflexivity | ]].
    apply harmonics_first_at_decreasing; [exact Hh | lia | lia].
Qed.

Lemma score_decreasing_in_bpm_gap_witness :
  (exists s s',
      Binary64.BpmFirst.transition_score
        (Binary64.track 100 "8A") (Binary64.track 103 "9A")
      = Ok (s, "+1 mix") /\
      Binary64.BpmFirst.transition_score
        (Binary64.track 100 "8A") (Binary64.track 107 "9A")
      = Ok (s', "+1 mix") /\
      ((Z.abs (103 - 100) < 10)%Z -> (s' <? s) = true) /\
      ((10 <= Z.abs (103 - 100))%Z -> s' = s)) /\
  (exists s s',
      Binary64.HarmonicsFirst.transition_score
        (Binary64.track 100 "8A") (Binary64.track 103 "9A")
      = Ok (s, "+1 mix") /\
      Binary64.HarmonicsFirst.transition_score
        (Binary64.track 100 "8A") (Binary64.track 107 "9A")
      = Ok (s', "+1 mix") /\
      (s' <? s) = true).
Proof.
  refine (score_decreasing_in_bpm_gap
            (Binary64.track 100 "8A") (Binary64.track 103 "9A")
            (Binary64.track 100 "8A") (Binary64.track 107 "9A")
            100 103 100 107 "+1 mix" _ _ _ _
            eq_refl eq_refl eq_refl eq_refl eq_refl eq_refl _); lia.
Defined.

End Binary64Gaps.

(* ================================================================== *)
(** ** The binary64 mixers: the path builders *)

(** A BPM-first score is zero, positive or plus infinity, whatever the
    tempos: it is a number above minus infinity. *)
Lemma b64_bpm_first_above (a b : Binary64.Song) (s : float) (lbl : string) :
  Binary64.BpmFirst.transition_score a b = Ok (s, lbl) ->
  (neg_infinity <? s)%float = true.
Proof.
  intros Hs. destruct (b64_bpm_first_inv _ _ _ _ Hs) as (m & _ & _ & ->).
  apply nonneg_number. unfold Binary64.Formula.bpm_first_score.
  rewrite add_spec. apply SFadd_nonneg.
  - rewrite mul_spec.
    change (Prim2SF 0.40) with (S754_finite false 7205759403792794 (-54)).
    apply SFmul_nonneg. unfold Binary64.Formula.bpm_score.
    destruct (Binary64.bpm a), (Binary64.bpm b); try reflexivity.
    exact (pymax_nonneg _).
  - destruct m; vm_compute; reflexivity.
Qed.

Lemma b64_usable_classified (a c : Binary64.Song) :
  Binary64.usable a -> Binary64.usable c ->
  exists lbl,
    classify_mix_type (Binary64.key a) (Binary64.key c) = Ok lbl.
Proof.
  intros (_ & k1 & p1 & -> & H1) (_ & k2 & p2 & -> & H2).
  exact (classify_decodable _ _ _ _ H1 H2).
Qed.

Lemma b64_usable_bpm_first_scored (a c : Binary64.Song) :
  Binary64.usable a -> Binary64.usable c ->
  exists s t,
    Binary64.BpmFirst.transition_score a c = Ok (s, t) /\
    (neg_infinity <? s)%float = true.
Proof.
  intros Ha Hc. destruct (b64_usable_classified a c Ha Hc) as [lbl Hl].
  destruct (classify_label _ _ _ Hl) as [m ->].
  pose proof (b64_bpm_first_score a c m Hl) as Hs.
  eexists. eexists. split; [exact Hs | ].
  exact (b64_bpm_first_above _ _ _ _ Hs).
Qed.

Lemma b64_usable_harmonics_first_scored (a c : Binary64.Song) :
  Binary64.usable a -> Binary64.usable c ->
  exists s t, Binary64.HarmonicsFirst.transition_score a c = Ok (s, t).
Proof.
  intros Ha Hc. destruct (b64_usable_classified a c Ha Hc) as [lbl Hl].
  destruct (classify_label _ _ _ Hl) as [m ->].
  eexists. eexists. exact (b64_harmonics_first_score a c m Hl).
Qed.

Lemma b64_usable_key_truthy (s : Binary64.Song) :
  Binary64.usable s -> Binary64.key_truthy s = true.
Proof.
  intros (_ & k & p & Hk & Hp). unfold Binary64.key_truthy. rewrite Hk.
  destruct (String.eqb_spec k "") as [-> | _]; [discriminate | reflexivity].
Qed.

Lemma b64_usable_sort_key (s : Binary64.Song) :
  Binary64.usable s ->
  exists b, Binary64.bpm s = Some b /\ Binary64.bpm_sort_key s = b /\
            is_nan b = false.
Proof.
  intros ((b & Hb & Hn) & _). unfold Binary64.bpm_sort_key.
  rewrite Hb. now exists b.
Qed.

Lemma b64_usable_sorted (songs : list Binary64.Song) :
  Forall Binary64.usable songs ->
  Forall Binary64.usable (Binary64.sorted songs).
Proof.
  intros H. eapply Permutation_Forall; [ | exact H].
  apply Permutation_sym, b64_sorted_perm.
Qed.

Lemma b64_rebuild_perm (songs_sorted : list Binary64.Song)
      (final : list nat) :
  Permutation final (seq 0 (List.length songs_sorted)) ->
  exists out,
    Binary64.rebuild songs_sorted final = Ok out /\
    out = map (fun i => nth i songs_sorted
                          (Binary64.mkSong None None None None))
              final /\
    Permutation out songs_sorted.
Proof.
  intros Hp. eexists. split; [ | split; [reflexivity | ]].
  - unfold Binary64.rebuild. apply comprehension_index.
    intros i Hi. apply (Permutation_in _ Hp) in Hi.
    apply in_seq in Hi. lia.
  - eapply perm_trans; [apply Permutation_map, Hp | ].
    rewrite map_nth_seq. apply Permutation_refl.
Qed.

(** The loop entered with the first index as path and the other indices,
    in order, as pool. *)
Lemma b64_extend_from_first
      (transition_score :
         Binary64.Song -> Binary64.Song -> result (float * string))
      (songs_sorted : list Binary64.Song) :
  (forall a c, In a songs_sorted -> In c songs_sorted ->
               exists s t, transition_score a c = Ok (s, t) /\
                           (neg_infinity <? s)%float = true) ->
  songs_sorted <> [] ->
  let pool := seq 1 (List.length songs_sorted - 1) in
  exists final out first rest,
    Binary64.extend transition_score songs_sorted (List.length pool)
                    [0%nat] pool
    = Some (Ok final) /\
    Binary64.greedy_run transition_score songs_sorted [0%nat] pool final /\
    Binary64.rebuild songs_sorted final = Ok out /\
    Permutation out songs_sorted /\
    songs_sorted = first :: rest /\
    exists tail, out = first :: tail.
Proof.
  intros all_scored nonempty pool. subst pool.
  destruct songs_sorted as [ | first rest] eqn:Hss; [congruence | ].
  rewrite <- Hss in *.
  assert (Hlen : List.length songs_sorted = S (List.length rest))
    by now rewrite Hss.
  set (pool := seq 1 (List.length songs_sorted - 1)).
  destruct (b64_extend_greedy transition_score songs_sorted
              (List.length pool) all_scored [] 0%nat pool)
    as (final & Hext & Hrun).
  - apply Nat.le_refl.
  - lia.
  - intros j Hj. apply in_seq in Hj. lia.
  - destruct (b64_greedy_run_perm _ _ _ _ _ Hrun) as [Hperm [more Hmore]].
    assert (Hall : Permutation final (seq 0 (List.length songs_sorted))).
    { eapply perm_trans; [exact Hperm | ].
      subst pool. rewrite Hlen. simpl. rewrite Nat.sub_0_r.
      apply Permutation_refl. }
    destruct (b64_rebuild_perm songs_sorted final Hall)
      as (out & Hout & Hmap & Hpout).
    exists final, out, first, rest. repeat split; try assumption.
    rewrite Hmap, Hmore, Hss. simpl. eauto.
Qed.

Lemma b64_bpm_first_unfold (songs : list Binary64.Song) :
  songs <> [] ->
  let ss := Binary64.sorted songs in
  let pool := seq 1 (List.length ss - 1) in
  Binary64.BpmFirst.path_indices ss
  = Binary64.extend Binary64.BpmFirst.transition_score ss
      (List.length pool) [0%nat] pool /\
  Binary64.BpmFirst.build_bpm_first_path songs
  = bind_fuel (Binary64.BpmFirst.path_indices ss) (Binary64.rebuild ss).
Proof.
  intros Hne ss pool. split.
  - unfold Binary64.BpmFirst.path_indices. subst pool.
    pose proof (b64_sorted_nonempty songs Hne) as Hss.
    fold ss in Hss. destruct ss as [ | h t]; [congruence | ].
    simpl. now rewrite Nat.sub_0_r.
  - destruct songs; [congruence | reflexivity].
Qed.

Lemma b64_harmonics_first_unfold (songs : list Binary64.Song) :
  songs <> [] ->
  Forall Binary64.usable songs ->
  let ss := Binary64.sorted songs in
  let pool := seq 1 (List.length ss - 1) in
  Binary64.HarmonicsFirst.path_indices ss 0
  = Binary64.extend Binary64.HarmonicsFirst.transition_score ss
      (List.length pool) [0%nat] pool /\
  Binary64.HarmonicsFirst.build_harmonic_path songs
  = bind_fuel (Binary64.HarmonicsFirst.path_indices ss 0)
              (Binary64.rebuild ss).
Proof.
  intros Hne Hus ss pool.
  pose proof (b64_sorted_nonempty songs Hne) as Hss. fold ss in Hss.
  pose proof (b64_usable_sorted songs Hus) as Hu. fold ss in Hu.
  split.
  - unfold Binary64.HarmonicsFirst.path_indices. subst pool.
    destruct ss as [ | h t]; [congruence | ].
    simpl. now rewrite Nat.sub_0_r.
  - destruct songs as [ | s0 r]; [congruence | ].
    unfold Binary64.HarmonicsFirst.build_harmonic_path. fold ss.
    destruct ss as [ | h t]; [congruence | ].
    inversion Hu as [ | ? ? Hh _]; subst.
    cbn [List.length seq Binary64.HarmonicsFirst.find_start].
    unfold PyList.index. cbn [nth_error bind].
    now rewrite (b64_usable_key_truthy h Hh).
Qed.

Lemma b64_bpm_first_run (songs : list Binary64.Song) :
  songs <> [] ->
  Forall Binary64.usable songs ->
  let ss := Binary64.sorted songs in
  let pool := seq 1 (List.length ss - 1) in
  exists final out first rest,
    Binary64.BpmFirst.path_indices ss = Some (Ok final) /\
    Binary64.greedy_run Binary64.BpmFirst.transition_score ss
                        [0%nat] pool final /\
    Binary64.rebuild ss final = Ok out /\
    Binary64.BpmFirst.build_bpm_first_path songs = Some (Ok out) /\
    Permutation out ss /\
    ss = first :: rest /\
    exists tail, out = first :: tail.
Proof.
  intros Hne Hus ss pool. subst pool.
  pose proof (b64_usable_sorted songs Hus) as Hss. fold ss in Hss.
  rewrite Forall_forall in Hss.
  destruct (b64_extend_from_first Binary64.BpmFirst.transition_score ss)
    as (final & out & first & rest & Hext & Hrun & Hout & Hperm & Hsplit
        & Htail).
  - intros a c Ha Hc. apply b64_usable_bpm_first_scored; now apply Hss.
  - now apply b64_sorted_nonempty.
  - destruct (b64_bpm_first_unfold songs Hne) as [Hpath Hbuild].
    fold ss in Hpath, Hbuild.
    exists final, out, first, rest. repeat split; try assumption.
    + now rewrite Hpath.
    + rewrite Hbuild, Hpath, Hext. simpl. now rewrite Hout.
Qed.

Lemma b64_harmonics_first_run (songs : list Binary64.Song) :
  songs <> [] ->
  Forall Binary64.usable songs ->
  (forall a c s t,
      In a songs -> In c songs ->
      Binary64.HarmonicsFirst.transition_score a c = Ok (s, t) ->
      (neg_infinity <? s)%float = true) ->
  let ss := Binary64.sorted songs in
  let pool := seq 1 (List.length ss - 1) in
  exists final out,
    Binary64.HarmonicsFirst.path_indices ss 0 = Some (Ok final) /\
    Binary64.greedy_run Binary64.HarmonicsFirst.transition_score ss
                        [0%nat] pool final /\
    Binary64.rebuild ss final = Ok out /\
    Binary64.HarmonicsFirst.build_harmonic_path songs = Some (Ok out).
Proof.
  intros Hne Hus Habove ss pool. subst pool.
  pose proof (b64_usable_sorted songs Hus) as Hss. fold ss in Hss.
  rewrite Forall_forall in Hss.
  assert (Hin : forall x, In x ss -> In x songs).
  { intros x Hx. exact (Permutation_in _ (b64_sorted_perm songs) Hx). }
  destruct (b64_extend_from_first
              Binary64.HarmonicsFirst.transition_score ss)
    as (final & out & first & rest & Hext & Hrun & Hout & _).
  - intros a c Ha Hc.
    destruct (b64_usable_harmonics_first_scored a c (Hss a Ha) (Hss c Hc))
      as (s & t & Hs).
    exists s, t. split; [exact Hs | ].
    exact (Habove a c s t (Hin a Ha) (Hin c Hc) Hs).
  - now apply b64_sorted_nonempty.
  - destruct (b64_harmonics_first_unfold songs Hne Hus)
      as [Hpath Hbuild].
    fold ss in Hpath, Hbuild.
    exists final, out. repeat split; try assumption.
    + now rewrite Hpath.
    + rewrite Hbuild, Hpath, Hext. simpl. now rewrite Hout.
Qed.

(** The sorted list of usable tracks is in BPM order. *)
Lemma b64_sorted_bpm_le (songs : list Binary64.Song) :
  Forall Binary64.usable songs ->
  StronglySorted Binary64.bpm_le (Binary64.sorted songs).
Proof.
  intros Hus. rewrite Forall_forall in Hus.
  assert (Hnum : forall y, In y songs ->
                           is_nan (Binary64.bpm_sort_key y) = false).
  { intros y Hy. destruct (b64_usable_sort_key y (Hus y Hy))
      as (b & _ & -> & Hn). exact Hn. }
  pose proof (b64_sorted_ascending songs Hnum) as H.
  assert (Hu : forall z, In z (Binary64.sorted songs) ->
                         Binary64.usable z).
  { intros z Hz. apply Hus.
    exact (Permutation_in _ (b64_sorted_perm songs) Hz). }
  induction H as [ | a r Hr IH Ha]; constructor.
  - apply IH. intros z Hz. apply Hu. now right.
  - rewrite Forall_forall in *. intros c Hc. specialize (Ha c Hc).
    destruct (b64_usable_sort_key a (Hu a (or_introl eq_refl)))
      as (x & Hx & Hkx & _).
    destruct (b64_usable_sort_key c (Hu c (or_intror Hc)))
      as (y & Hy & Hky & _).
    unfold Binary64.bpm_le. rewrite Hx, Hy. now rewrite Hkx, Hky in Ha.
Qed.

Lemma b64_example_tracks_usable :
  Forall Binary64.usable Binary64.example_tracks.
Proof.
  repeat constructor;
    (eexists; split; reflexivity) ||
    (eexists; eexists; split; reflexivity).
Defined.

(** Between tracks with whole tempos from 0 to 999 no harmonic-first
    score is minus infinity. *)
Lemma b64_whole_harmonics_first_above (a c : Binary64.Song) (x y : Z)
      (s : float) (t : string) :
  0 <= x <= 999 -> 0 <= y <= 999 ->
  Binary64.whole_bpm x a -> Binary64.whole_bpm y c ->
  Binary64.HarmonicsFirst.transition_score a c = Ok (s, t) ->
  (neg_infinity <? s)%float = true.
Proof.
  intros Hx Hy Ha Hc Hs.
  destruct (b64_harmonics_first_inv _ _ _ _ Hs) as (m & _ & _ & ->).
  unfold Binary64.whole_bpm in *. rewrite Ha, Hc.
  rewrite (harmonics_first_whole m x y Hx Hy).
  apply harmonics_first_at_above; [apply b64_table_values | lia].
Qed.

(** Two tempos whose difference overflows make every harmonic-first score
    minus infinity: the scan selects nothing and [remaining.remove(None)]
    raises. *)
Lemma b64_harmonics_first_overflow :
  Binary64.HarmonicsFirst.transition_score
    (Binary64.track (-1.7e308) "8A") (Binary64.track 1.7e308 "8A")
  = Ok (neg_infinity, "perfect mix") /\
  Binary64.HarmonicsFirst.build_harmonic_path
    [Binary64.track 1.7e308 "8A"; Binary64.track (-1.7e308) "8A"]
  = Some (Raise ValueError).
Proof. split; vm_compute; reflexivity. Qed.

(* ================================================================== *)
(** ** The claim about the greedy selection *)

(** C4. The builders in binary64, on a non-empty input in which every
    record has a tempo that is a number and a key that decodes.  The
    sorted list holds the records of the input in BPM order.  The
    BPM-first builder returns, and its first record is the leftmost
    minimum of the input by BPM: every record before it in the input has
    a strictly greater tempo, no record after it a smaller one.  Its path
    is a run of greedy steps from the first index of the sorted list over
    the other indices in order: each step takes the candidate whose score
    is strictly greater than the score of every candidate before it in
    the pool and at least the score of every candidate after it, scores
    compared as the floats the code compares.  The harmonic-first builder
    does the same whenever no transition between two records scores minus
    infinity, which is so for whole tempos from 0 to 999.  On the input
    104/4B, 105/2A, 108/7A the candidates after 104/4B score 3.6 and
    3.6000000000000005, and 108/7A is taken first. *)
Theorem greedy_selection :
  (forall songs : list Binary64.Song,
      songs <> [] ->
      Forall Binary64.usable songs ->
      let ss := Binary64.sorted songs in
      let pool := seq 1 (List.length ss - 1) in
      Permutation songs ss /\
      StronglySorted Binary64.bpm_le ss /\
      (exists first rest before after b,
          Binary64.BpmFirst.build_bpm_first_path songs
          = Some (Ok (first :: rest)) /\
          songs = before ++ first :: after /\
          Binary64.bpm first = Some b /\
          (forall s, In s before ->
                     exists b', Binary64.bpm s = Some b' /\
                                (b <? b')%float = true) /\
          (forall s, In s after ->
                     exists b', Binary64.bpm s = Some b' /\
                                (b <=? b')%float = true)) /\
      (exists final out,
          Binary64.BpmFirst.path_indices ss = Some (Ok final) /\
          Binary64.greedy_run Binary64.BpmFirst.transition_score ss
                              [0%nat] pool final /\
          Binary64.rebuild ss final = Ok out /\
          Binary64.BpmFirst.build_bpm_first_path songs = Some (Ok out)) /\
      ((forall a c s t,
           In a songs -> In c songs ->
           Binary64.HarmonicsFirst.transition_score a c = Ok (s, t) ->
           (neg_infinity <? s)%float = true) ->
       exists final out,
         Binary64.HarmonicsFirst.path_indices ss 0 = Some (Ok final) /\
         Binary64.greedy_run Binary64.HarmonicsFirst.transition_score ss
                             [0%nat] pool final /\
         Binary64.rebuild ss final = Ok out /\
         Binary64.HarmonicsFirst.build_harmonic_path songs
         = Some (Ok out))) /\
  (forall a c x y s t,
      0 <= x <= 999 -> 0 <= y <= 999 ->
      Binary64.whole_bpm x a -> Binary64.whole_bpm y c ->
      Binary64.HarmonicsFirst.transition_score a c = Ok (s, t) ->
      (neg_infinity <? s)%float = true) /\
  Binary64.BpmFirst.transition_score
    (Binary64.track 104 "4B") (Binary64.track 105 "2A")
  = Ok (3.6%float, "non-harmonic") /\
  Binary64.BpmFirst.transition_score
    (Binary64.track 104 "4B") (Binary64.track 108 "7A")
  = Ok (3.6000000000000005%float, "mood shifter") /\
  Binary64.BpmFirst.build_bpm_first_path Binary64.close_scores_tracks
  = Some (Ok [Binary64.track 104 "4B"; Binary64.track 108 "7A";
              Binary64.track 105 "2A"]).
Proof.
  split; [ | split; [exact b64_whole_harmonics_first_above | ]];
    [ | repeat split; vm_compute; reflexivity].
  intros songs Hne Hus ss pool.
  destruct (b64_bpm_first_run songs Hne Hus)
    as (final & out & first & rest & Hpath & Hrun & Hout & Hb & Hp & Hsplit
        & tail & Htail).
  fold ss in Hpath, Hrun, Hout, Hp, Hsplit. fold pool in Hrun.
  split; [apply Permutation_sym, b64_sorted_perm | ].
  split; [now apply b64_sorted_bpm_le | ].
  split; [ | split].
  - rewrite Forall_forall in Hus.
    assert (Hnum : forall y, In y songs ->
                             is_nan (Binary64.bpm_sort_key y) = false).
    { intros y Hy. destruct (b64_usable_sort_key y (Hus y Hy))
        as (b & _ & -> & Hn). exact Hn. }
    destruct (b64_sorted_head songs first rest Hnum Hsplit)
      as (before & after & Hsongs & Hbefore & Hafter).
    assert (Hin : forall s, In s before \/ In s after -> In s songs).
    { intros s Hs. rewrite Hsongs. apply in_or_app.
      destruct Hs; [now left | right; now right]. }
    destruct (b64_usable_sort_key first) as (b & Hbpm & Hkey & _).
    { apply Hus. rewrite Hsongs. apply in_or_app. right. now left. }
    exists first, tail, before, after, b. subst out.
    repeat split; try assumption.
    + intros s Hs.
      destruct (b64_usable_sort_key s) as (b' & Hbpm' & Hkey' & _);
        [apply Hus, Hin; now left | ].
      exists b'. split; [exact Hbpm' | ].
      specialize (Hbefore s Hs). now rewrite Hkey, Hkey' in Hbefore.
    + intros s Hs.
      destruct (b64_usable_sort_key s) as (b' & Hbpm' & Hkey' & _);
        [apply Hus, Hin; now right | ].
      exists b'. split; [exact Hbpm' | ].
      specialize (Hafter s Hs). now rewrite Hkey, Hkey' in Hafter.
  - exists final, out. now repeat split.
  - intros Habove.
    exact (b64_harmonics_first_run songs Hne Hus Habove).
Qed.

Lemma greedy_selection_witness :
  exists final out,
    Binary64.BpmFirst.path_indices (Binary64.sorted Binary64.example_tracks)
    = Some (Ok final) /\
    Binary64.greedy_run Binary64.BpmFirst.transition_score
      (Binary64.sorted Binary64.example_tracks) [0%nat]
      (seq 1 (List.length (Binary64.sorted Binary64.example_tracks) - 1))
      final /\
    Binary64.rebuild (Binary64.sorted Binary64.example_tracks) final
    = Ok out /\
    Binary64.BpmFirst.build_bpm_first_path Binary64.example_tracks
    = Some (Ok out).
Proof.
  refine (proj1 (proj2 (proj2 (proj2
            (proj1 greedy_selection Binary64.example_tracks _
                   b64_example_tracks_usable))))).
  discriminate.
Defined.
